(** * StreetQuest: the street coverage engine of the sampled [MapView]

    A shallow embedding of the coverage engine found in
    [src/components/StreetToast.tsx] (the second module of that file, the
    [MapView] component with sampled coverage): the geometry helpers
    [distancePointToPoint], [projectOntoLineString], [findNearestSegment],
    [sampleLineStringWithT] and [subLineString], the position handler
    [updatePosition], the restore block of the map load handler and the
    final flush of the effect cleanup.

    JavaScript numbers are kept behind the interface [Num], so that one
    translation of the source runs on IEEE binary64 values (the instance
    [F64], on the kernel's primitive floats) and on the real numbers (the
    instance [Ideal]).  What a proof asks of the numbers is a class of
    laws, [NumOrder], [NumLe], [NumRatio] or [NumCount], that both
    instances are shown to keep.

    Way identifiers are integers, array lengths and indices are naturals, a
    JavaScript [Set] is a duplicate-free list in insertion order. *)

From Stdlib Require Import String Floats Uint63 Reals ZArith List Bool Lra Lia Psatz.
Import ListNotations.

Set Implicit Arguments.

(** ** The numbers of the source *)

Declare Scope num_scope.
Delimit Scope num_scope with num.

(** What the source asks of a [number]: literals, [Math.PI], the four
    operations, [Math.sqrt], [Math.cos], [Math.ceil], [Math.max],
    [Math.min], the comparisons [<], [<=] and [===], the test [x < Infinity],
    and the number of turns of a counting loop [for (j = 0; j < x; j++)]
    ([None] when the loop never ends). *)
Class Num (num : Type) : Type := {
  of_Z : Z -> num;
  Math_PI : num;
  num_add : num -> num -> num;
  num_sub : num -> num -> num;
  num_mul : num -> num -> num;
  num_div : num -> num -> num;
  Math_sqrt : num -> num;
  Math_cos : num -> num;
  Math_ceil : num -> num;
  Math_max : num -> num -> num;
  Math_min : num -> num -> num;
  num_ltb : num -> num -> bool;
  num_leb : num -> num -> bool;
  num_eqb : num -> num -> bool;
  lt_Infinity : num -> bool;
  count_below : num -> option nat
}.

Infix "+" := num_add : num_scope.
Infix "-" := num_sub : num_scope.
Infix "*" := num_mul : num_scope.
Infix "/" := num_div : num_scope.
Infix "<?" := num_ltb : num_scope.
Infix "<=?" := num_leb : num_scope.
Infix "=?" := num_eqb : num_scope.
Notation "a >? b" := (num_ltb b a) (at level 70, only parsing) : num_scope.
Notation "a >=? b" := (num_leb b a) (at level 70, only parsing) : num_scope.

(** A value that is either a number or the literal [Infinity], for the
    running minimum [bestDist] of the two searches. *)
Inductive xnum (num : Type) : Type :=
| Fin (d : num)
| Infinity.

Arguments Infinity {num}.

(** Outcome of a call that can throw: [coords[0][0]] on an empty array is a
    [TypeError]. *)
Inductive outcome (A : Type) : Type :=
| Ok (a : A)
| TypeError.

Arguments TypeError {A}.

Definition bind {A B : Type} (m : outcome A) (k : A -> outcome B) : outcome B :=
  match m with
  | Ok a => k a
  | TypeError => TypeError
  end.

(** A JavaScript [Set], in insertion order. *)
Section JsSet.
Variable K : Type.
Variable K_eqb : K -> K -> bool.

Definition set_has (s : list K) (k : K) : bool := existsb (K_eqb k) s.

Definition set_add (s : list K) (k : K) : list K :=
  if set_has s k then s else s ++ [k].

Definition set_size (s : list K) : nat := length s.

End JsSet.

(** [arr[i] = v] on an array: an index past the end extends the array, the
    hole reading as a falsy value. *)
Fixpoint array_set (arr : list bool) (i : nat) (v : bool) : list bool :=
  match arr, i with
  | _ :: tl, O => v :: tl
  | x :: tl, S i' => x :: array_set tl i' v
  | [], O => [v]
  | [], S i' => false :: array_set [] i' v
  end.

(** [arr.filter(Boolean).length] *)
Definition count_true (arr : list bool) : nat := length (filter (fun b => b) arr).

(** ** Geometry helpers *)

Section Geometry.
Context {num : Type} {N : Num num}.
Local Open Scope num_scope.

Definition Coord : Type := num * num.

Record Sample : Type := mkSample {
  s_lon : num;
  s_lat : num;
  s_t : num
}.

Definition xlt (a : num) (b : xnum num) : bool :=
  match b with
  | Fin d => a <? d
  | Infinity => lt_Infinity a
  end.

(** [Math.cos((lat * Math.PI) / 180)] *)
Definition cosLatOf (lat : num) : num := Math_cos ((lat * Math_PI) / of_Z 180).

Definition distancePointToPoint (px py qx qy : num) : num :=
  let cosLat := cosLatOf py in
  let dLon := (px - qx) * of_Z 111000 * cosLat in
  let dLat := (py - qy) * of_Z 111000 in
  Math_sqrt (dLon * dLon + dLat * dLat).

(** The pairs [(coords[i], coords[i + 1])] for [i < coords.length - 1]. *)
Fixpoint segmentsOf (coords : list Coord) : list (Coord * Coord) :=
  match coords with
  | a :: (b :: _) as rest => (a, b) :: segmentsOf rest
  | _ => []
  end.

Definition segLength (cosLat : num) (s : Coord * Coord) : num :=
  let '((ax, ay), (bx, by_)) := s in
  let dLon := (bx - ax) * of_Z 111000 * cosLat in
  let dLat := (by_ - ay) * of_Z 111000 in
  Math_sqrt (dLon * dLon + dLat * dLat).

Definition segLengthsOf (cosLat : num) (coords : list Coord) : list num :=
  map (segLength cosLat) (segmentsOf coords).

(** [segLengths.reduce((a, b) => a + b, 0)] *)
Definition totalOf (segLengths : list num) : num :=
  fold_left num_add segLengths (of_Z 0).

(** *** projectOntoLineString *)

Record Projection : Type := mkProjection {
  p_t : num;
  p_lon : num;
  p_lat : num;
  p_distance : xnum num
}.

Record ProjState : Type := mkProjState {
  bestDist : xnum num;
  bestT : num;
  bestLon : num;
  bestLat : num;
  cumDist : num
}.

(** One turn of the main loop, on the segment [(a, b)] of length [segLen]. *)
Definition projectStep (px py cosLat total : num) (st : ProjState)
    (seg : (Coord * Coord) * num) : ProjState :=
  let '(((ax, ay), (bx, by_)), segLen) := seg in
  let dLon := (bx - ax) * of_Z 111000 * cosLat in
  let dLat := (by_ - ay) * of_Z 111000 in
  let localT :=
    if segLen >? of_Z 0 then
      let pLon := (px - ax) * of_Z 111000 * cosLat in
      let pLat := (py - ay) * of_Z 111000 in
      Math_max (of_Z 0) (Math_min (of_Z 1) ((pLon * dLon + pLat * dLat) / (segLen * segLen)))
    else of_Z 0 in
  let cLon := ax + (bx - ax) * localT in
  let cLat := ay + (by_ - ay) * localT in
  let eLon := (px - cLon) * of_Z 111000 * cosLat in
  let eLat := (py - cLat) * of_Z 111000 in
  let dist := Math_sqrt (eLon * eLon + eLat * eLat) in
  let st' :=
    if xlt dist (bestDist st) then
      mkProjState (Fin dist)
        (if total >? of_Z 0 then (cumDist st + localT * segLen) / total else of_Z 0)
        cLon cLat (cumDist st)
    else st in
  mkProjState (bestDist st') (bestT st') (bestLon st') (bestLat st') (cumDist st + segLen).

Definition projectOntoLineString (px py : num) (coords : list Coord) : outcome Projection :=
  let cosLat := cosLatOf py in
  let segLengths := segLengthsOf cosLat coords in
  let total := totalOf segLengths in
  match coords with
  | [] => TypeError
  | (lon0, lat0) :: _ =>
      let init := mkProjState Infinity (of_Z 0) lon0 lat0 (of_Z 0) in
      let final := fold_left (projectStep px py cosLat total)
                             (combine (segmentsOf coords) segLengths) init in
      Ok (mkProjection (bestT final) (bestLon final) (bestLat final) (bestDist final))
  end.

(** *** sampleLineStringWithT *)

(** The samples of one segment: [j] runs from [j0] for [n] turns. *)
Fixpoint segmentSamples (a b : Coord) (segLen total cum steps : num) (j0 n : nat) : list Sample :=
  match n with
  | O => []
  | S n' =>
      let '((ax, ay), (bx, by_)) := (a, b) in
      let localT := of_Z (Z.of_nat j0) / steps in
      mkSample (ax + (bx - ax) * localT) (ay + (by_ - ay) * localT)
               (if total >? of_Z 0 then (cum + localT * segLen) / total else of_Z 0)
        :: segmentSamples a b segLen total cum steps (S j0) n'
  end.

Definition stepsOf (segLen stepMeters : num) : num :=
  Math_max (of_Z 1) (Math_ceil (segLen / stepMeters)).

(** The outer loop; [None] when an inner loop never ends. *)
Fixpoint sampleLoop (stepMeters total : num) (segs : list ((Coord * Coord) * num))
    (cum : num) (samples : list Sample) : option (list Sample) :=
  match segs with
  | [] => Some samples
  | ((a, b), segLen) :: rest =>
      let steps := stepsOf segLen stepMeters in
      match count_below steps with
      | None => None
      | Some n =>
          sampleLoop stepMeters total rest (cum + segLen)
            (samples ++ segmentSamples a b segLen total cum steps 0 n)
      end
  end.

Definition sampleLineStringWithT (coords : list Coord) (stepMeters : num)
    : option (list Sample) :=
  if (length coords <? 2)%nat then Some [] else
  let cosLat := cosLatOf (snd (hd (of_Z 0, of_Z 0) coords)) in
  let segLengths := segLengthsOf cosLat coords in
  let total := totalOf segLengths in
  match sampleLoop stepMeters total (combine (segmentsOf coords) segLengths) (of_Z 0) [] with
  | None => None
  | Some samples =>
      let last := List.last coords (of_Z 0, of_Z 0) in
      Some (samples ++ [mkSample (fst last) (snd last) (of_Z 1)])
  end.

(** *** subLineString *)

(** The main loop over the remaining segments; [cum] is [cumDist]. *)
Fixpoint subLoop (startDist endDist : num) (segs : list ((Coord * Coord) * num))
    (cum : num) (points : list Coord) : list Coord :=
  match segs with
  | [] => points
  | (((ax, ay), (bx, by_)), segLen) :: rest =>
      let segStart := cum in
      let segEnd := cum + segLen in
      if segEnd <? startDist then subLoop startDist endDist rest segEnd points
      else if segStart >? endDist then points
      else
        let points1 :=
          match points with
          | [] =>
              let localT :=
                if segLen >? of_Z 0
                then Math_max (of_Z 0) ((startDist - segStart) / segLen)
                else of_Z 0 in
              points ++ [(ax + (bx - ax) * localT, ay + (by_ - ay) * localT)]
          | _ :: _ => points
          end in
        if segEnd <=? endDist then
          subLoop startDist endDist rest segEnd (points1 ++ [(bx, by_)])
        else
          let localT := if segLen >? of_Z 0 then (endDist - segStart) / segLen else of_Z 0 in
          points1 ++ [(ax + (bx - ax) * localT, ay + (by_ - ay) * localT)]
  end.

Definition subLineString (coords : list Coord) (t0 t1 : num) : option (list Coord) :=
  if (t0 >=? t1) || (length coords <? 2)%nat then None else
  let cosLat := cosLatOf (snd (hd (of_Z 0, of_Z 0) coords)) in
  let segLengths := segLengthsOf cosLat coords in
  let total := totalOf segLengths in
  if total =? of_Z 0 then None else
  let startDist := t0 * total in
  let endDist := t1 * total in
  let points := subLoop startDist endDist (combine (segmentsOf coords) segLengths) (of_Z 0) [] in
  if (2 <=? length points)%nat then Some points else None.

End Geometry.

Arguments Coord num : clear implicits.
Arguments Sample num : clear implicits.
Arguments Projection num : clear implicits.
Arguments ProjState num : clear implicits.

(** ** The engine *)

Record Badge : Type := mkBadge {
  b_id : string;
  b_emoji : string;
  b_name : string
}.

Record BadgeDef : Type := mkBadgeDef {
  bd_badge : Badge;
  threshold : nat
}.

Definition BADGE_DEFS : list BadgeDef :=
  [ mkBadgeDef (mkBadge "first_step" "🚶" "Premier pas") 1;
    mkBadgeDef (mkBadge "explorer" "🗺️" "Explorateur") 50;
    mkBadgeDef (mkBadge "walker" "🏃" "Marcheur") 125;
    mkBadgeDef (mkBadge "connoisseur" "🌆" "Connaisseur") 249;
    mkBadgeDef (mkBadge "master" "🏆" "Maître de Marly") 498 ].

Definition SAVE_EVERY_N : Z := 10.

(** The payload of [saveExploration]. *)
Record Exploration : Type := mkExploration {
  user_id : string;
  city : string;
  explored_way_ids : list Z;
  total_ways : nat;
  badges : list string
}.

(** A string is truthy when it is not empty. *)
Definition truthy (u : option string) : bool :=
  match u with
  | Some s => negb (String.eqb s "")
  | None => false
  end.

(** [getUserId]: the stored identifier when there is one, else a fresh
    [crypto.randomUUID()], which is stored. *)
Definition getUserId (stored : option string) (fresh : string) : string :=
  match stored with
  | Some s => if truthy stored then s else fresh
  | None => fresh
  end.

Section Engine.
Context {num : Type} {N : Num num}.
Local Open Scope num_scope.

Definition SAMPLE_STEP_METERS : num := of_Z 5.

Definition COVERAGE_RADIUS_METERS : num := of_Z 15.

(** The literal [0.80]: the number nearest to 80/100, which is what the
    division of the two integers returns. *)
Definition VALIDATION_THRESHOLD : num := of_Z 80 / of_Z 100.

Definition MAP_MATCH_MAX_DIST : num := of_Z 50.

Record SegmentCoverage : Type := mkCov {
  wayId : Z;
  featureIndex : nat;
  coords : list (Coord num);
  samples : list (Sample num);
  covered : list bool;
  validated : bool;
  minCoveredT : num;
  maxCoveredT : num
}.

(** A feature of the street collection: its id and its LineString. *)
Record Feature : Type := mkFeature {
  f_id : Z;
  f_coordinates : list (Coord num)
}.

(** *** findNearestSegment *)

(** The winner is named by its position in [coverages], which stands for
    the reference to the coverage object. *)
Record Nearest : Type := mkNearest {
  coverage : nat;
  n_t : num;
  snappedLon : num;
  snappedLat : num;
  distance : xnum num
}.

Record NearState : Type := mkNearState {
  nBestDist : xnum num;
  nBestCov : option nat;
  nBestT : num;
  nBestLon : num;
  nBestLat : num
}.

(** [a < b] when [b] may be the literal [Infinity] and [a] the distance of
    a projection, itself [Infinity] when no segment was seen. *)
Definition xltx (a b : xnum num) : bool :=
  match a with
  | Fin d => xlt d b
  | Infinity => false
  end.

(** [a > b] for a distance [a] and a number [b]. *)
Definition xgt (a : xnum num) (b : num) : bool :=
  match a with
  | Fin d => d >? b
  | Infinity => lt_Infinity b
  end.

Definition nearestStep (lon lat : num) (st : NearState) (i : nat) (cov : SegmentCoverage)
    : outcome NearState :=
  bind (projectOntoLineString lon lat (coords cov)) (fun proj =>
    if xltx (p_distance proj) (nBestDist st)
    then Ok (mkNearState (p_distance proj) (Some i) (p_t proj) (p_lon proj) (p_lat proj))
    else Ok st).

Fixpoint nearestLoop (lon lat : num) (covs : list SegmentCoverage) (i : nat) (st : NearState)
    : outcome NearState :=
  match covs with
  | [] => Ok st
  | cov :: rest =>
      bind (nearestStep lon lat st i cov) (fun st' => nearestLoop lon lat rest (S i) st')
  end.

Definition findNearestSegment (lon lat : num) (coverages : list SegmentCoverage)
    : outcome (option Nearest) :=
  if (length coverages =? 0)%nat then Ok None else
  bind (nearestLoop lon lat coverages 0 (mkNearState Infinity None (of_Z 0) lon lat))
    (fun st =>
       match nBestCov st with
       | None => Ok None
       | Some i => Ok (Some (mkNearest i (nBestT st) (nBestLon st) (nBestLat st) (nBestDist st)))
       end).

(** *** updatePosition *)

Definition set_covered (c : SegmentCoverage) (v : list bool) : SegmentCoverage :=
  mkCov (wayId c) (featureIndex c) (coords c) (samples c) v (validated c)
        (minCoveredT c) (maxCoveredT c).

Definition set_validated (c : SegmentCoverage) (v : bool) : SegmentCoverage :=
  mkCov (wayId c) (featureIndex c) (coords c) (samples c) (covered c) v
        (minCoveredT c) (maxCoveredT c).

Definition set_minCoveredT (c : SegmentCoverage) (v : num) : SegmentCoverage :=
  mkCov (wayId c) (featureIndex c) (coords c) (samples c) (covered c) (validated c)
        v (maxCoveredT c).

Definition set_maxCoveredT (c : SegmentCoverage) (v : num) : SegmentCoverage :=
  mkCov (wayId c) (featureIndex c) (coords c) (samples c) (covered c) (validated c)
        (minCoveredT c) v.

(** Step 3, one turn, on the sample [s] at index [i]. *)
Definition coverStep (sLon sLat : num) (acc : SegmentCoverage * bool) (i : nat) (s : Sample num)
    : SegmentCoverage * bool :=
  let '(cov, touched) := acc in
  if nth i (covered cov) false then acc else
  let dist := distancePointToPoint (s_lon s) (s_lat s) sLon sLat in
  if dist <=? COVERAGE_RADIUS_METERS then
    let cov1 := set_covered cov (array_set (covered cov) i true) in
    let cov2 := if s_t s <? minCoveredT cov1 then set_minCoveredT cov1 (s_t s) else cov1 in
    let cov3 := if s_t s >? maxCoveredT cov2 then set_maxCoveredT cov2 (s_t s) else cov2 in
    (cov3, true)
  else acc.

Fixpoint coverLoop (sLon sLat : num) (ss : list (Sample num)) (i : nat)
    (acc : SegmentCoverage * bool) : SegmentCoverage * bool :=
  match ss with
  | [] => acc
  | s :: rest => coverLoop sLon sLat rest (S i) (coverStep sLon sLat acc i s)
  end.

(** Step 3: the coverage after the fix and whether a sample was touched. *)
Definition markCovered (cov : SegmentCoverage) (sLon sLat : num) : SegmentCoverage * bool :=
  coverLoop sLon sLat (samples cov) 0 (cov, false).

(** Step 4: the partial sub-LineStrings of the segments in progress. *)
Fixpoint progressFeatures (covs : list SegmentCoverage) : list (list (Coord num)) :=
  match covs with
  | [] => []
  | c :: rest =>
      if validated c || (minCoveredT c >? maxCoveredT c) then progressFeatures rest
      else match subLineString (coords c) (minCoveredT c) (maxCoveredT c) with
           | Some pts => pts :: progressFeatures rest
           | None => progressFeatures rest
           end
  end.

(** Step 5: [cov.covered.filter(Boolean).length / cov.samples.length]. *)
Definition coverageRatio (cov : SegmentCoverage) : num :=
  of_Z (Z.of_nat (count_true (covered cov))) / of_Z (Z.of_nat (length (samples cov))).

(** [coverages] with the object at position [i] replaced. *)
Fixpoint replace_at (covs : list SegmentCoverage) (i : nat) (c : SegmentCoverage)
    : list SegmentCoverage :=
  match covs, i with
  | [], _ => []
  | _ :: tl, O => c :: tl
  | x :: tl, S i' => x :: replace_at tl i' c
  end.

Record Engine : Type := mkEngine {
  geojson : option (list Feature);
  segmentCoverages : list SegmentCoverage;
  validatedWayIds : list Z;
  userId : option string;
  savedCount : nat;
  unlockedBadges : list string;
  badgeQueue : list Badge;
  currentBadge : option Badge;
  lastPosition : option (Coord num);
  exploredCount : nat;
  progressData : list (list (Coord num));
  exploredData : list Feature;
  saveRequests : list Exploration
}.

(** The refs and sources when the component mounts. *)
Definition initialEngine : Engine :=
  mkEngine None [] [] None 0 [] [] None None 0 [] [] [].

Definition newBadgesOf (unlocked : list string) (currentSize : nat) : list BadgeDef :=
  filter (fun b => negb (set_has String.eqb unlocked (b_id (bd_badge b)))
                   && (threshold b <=? currentSize)%nat) BADGE_DEFS.

(** The handler from the validation of [cov] on (after step 5's test). *)
Definition validateSegment (cityName : string) (features : list Feature) (i : nat)
    (cov : SegmentCoverage) (st : Engine) : Engine :=
  let coverages := replace_at (segmentCoverages st) i (set_validated cov true) in
  let validatedIds := set_add Z.eqb (validatedWayIds st) (wayId cov) in
  let exploredFeatures := filter (fun f => set_has Z.eqb validatedIds (f_id f)) features in
  let currentSize := set_size validatedIds in
  let newBadges := newBadgesOf (unlockedBadges st) currentSize in
  let unlocked := fold_left (fun u b => set_add String.eqb u (b_id (bd_badge b)))
                            newBadges (unlockedBadges st) in
  let queue := badgeQueue st ++ map bd_badge newBadges in
  let '(current, queue1) :=
    match newBadges, currentBadge st, queue with
    | _ :: _, None, next :: rest => (Some next, rest)
    | _, _, _ => (currentBadge st, queue)
    end in
  let save := truthy (userId st)
              && (Z.of_nat currentSize - Z.of_nat (savedCount st) >=? SAVE_EVERY_N)%Z in
  mkEngine (geojson st) coverages validatedIds (userId st)
    (if save then currentSize else savedCount st)
    unlocked queue1 current (lastPosition st) currentSize (progressData st) exploredFeatures
    (if save
     then saveRequests st ++
          [mkExploration (match userId st with Some u => u | None => "" end) cityName
             validatedIds (length features) unlocked]
     else saveRequests st).

Definition set_lastPosition (st : Engine) (p : option (Coord num)) : Engine :=
  mkEngine (geojson st) (segmentCoverages st) (validatedWayIds st) (userId st)
    (savedCount st) (unlockedBadges st) (badgeQueue st) (currentBadge st) p
    (exploredCount st) (progressData st) (exploredData st) (saveRequests st).

Definition set_segmentCoverages (st : Engine) (covs : list SegmentCoverage) : Engine :=
  mkEngine (geojson st) covs (validatedWayIds st) (userId st)
    (savedCount st) (unlockedBadges st) (badgeQueue st) (currentBadge st) (lastPosition st)
    (exploredCount st) (progressData st) (exploredData st) (saveRequests st).

Definition set_progressData (st : Engine) (d : list (list (Coord num))) : Engine :=
  mkEngine (geojson st) (segmentCoverages st) (validatedWayIds st) (userId st)
    (savedCount st) (unlockedBadges st) (badgeQueue st) (currentBadge st) (lastPosition st)
    (exploredCount st) d (exploredData st) (saveRequests st).

Definition updatePosition (cityName : string) (mapReady : bool) (lon lat : num) (st : Engine)
    : outcome Engine :=
  if negb mapReady then Ok st else
  match geojson st with
  | None => Ok st
  | Some features =>
      let coverages := segmentCoverages st in
      if (length coverages =? 0)%nat then Ok st else
      (* 1. last known position *)
      let st1 := set_lastPosition st (Some (lon, lat)) in
      (* 2. map matching *)
      bind (findNearestSegment lon lat coverages) (fun nearest =>
        match nearest with
        | None => Ok st1
        | Some nearest =>
            if xgt (distance nearest) MAP_MATCH_MAX_DIST then Ok st1 else
            match nth_error coverages (coverage nearest) with
            | None => Ok st1
            | Some cov =>
                if validated cov then Ok st1 else
                (* 3. samples near the snapped point *)
                let '(cov', touched) :=
                  markCovered cov (snappedLon nearest) (snappedLat nearest) in
                let coverages' := replace_at coverages (coverage nearest) cov' in
                let st2 := set_segmentCoverages st1 coverages' in
                if negb touched then Ok st2 else
                (* 4. progress layer *)
                let st3 := set_progressData st2 (progressFeatures coverages') in
                (* 5. validation *)
                if coverageRatio cov' <? VALIDATION_THRESHOLD then Ok st3 else
                Ok (validateSegment cityName features (coverage nearest) cov' st3)
            end
        end)
  end.

(** The refs once the handler has run: a throw happens in step 2, after
    step 1 and before any other write. *)
Definition afterFix (cityName : string) (mapReady : bool) (lon lat : num) (st : Engine)
    : Engine :=
  match updatePosition cityName mapReady lon lat st with
  | Ok st' => st'
  | TypeError => set_lastPosition st (Some (lon, lat))
  end.

(** *** The map load handler *)

Record OsmPoint : Type := mkOsmPoint {
  lat : num;
  lon : num
}.

Record OverpassWay : Type := mkWay {
  w_id : Z;
  geometry : list OsmPoint
}.

Definition streetsToGeoJSON (elements : list OverpassWay) : list Feature :=
  map (fun way => mkFeature (w_id way) (map (fun p => (lon p, lat p)) (geometry way)))
      elements.

(** [geojson.features.map((f, idx) => ...)]; [None] when a sampling loop
    never ends. *)
Fixpoint buildCoverages (features : list Feature) (idx : nat)
    : option (list SegmentCoverage) :=
  match features with
  | [] => Some []
  | f :: rest =>
      match sampleLineStringWithT (f_coordinates f) SAMPLE_STEP_METERS with
      | None => None
      | Some ss =>
          match buildCoverages rest (S idx) with
          | None => None
          | Some covs =>
              Some (mkCov (f_id f) idx (f_coordinates f) ss (repeat false (length ss))
                          false (of_Z 1) (of_Z 0) :: covs)
          end
      end
  end.

(** The coverage found by [find((c) => c.wayId === id)], forced to
    validated. *)
Definition restored (c : SegmentCoverage) : SegmentCoverage :=
  mkCov (wayId c) (featureIndex c) (coords c) (samples c)
        (map (fun _ => true) (covered c)) true (of_Z 0) (of_Z 1).

Fixpoint restoreFirst (covs : list SegmentCoverage) (id : Z) : list SegmentCoverage :=
  match covs with
  | [] => []
  | c :: rest =>
      if (wayId c =? id)%Z then restored c :: rest else c :: restoreFirst rest id
  end.

(** The restore block: the state after [savedIds.forEach], the badges,
    the saved count, the explored source and the explored count. *)
Definition restoreSession (savedIds : list Z) (savedBadges : list string) (st : Engine)
    : Engine :=
  let validatedIds := fold_left (set_add Z.eqb) savedIds (validatedWayIds st) in
  let coverages := fold_left restoreFirst savedIds (segmentCoverages st) in
  let unlocked := fold_left (set_add String.eqb) savedBadges (unlockedBadges st) in
  let features := match geojson st with Some fs => fs | None => [] end in
  let restoredFeatures :=
    if (0 <? length savedIds)%nat
    then filter (fun f => set_has Z.eqb validatedIds (f_id f)) features
    else [] in
  mkEngine (geojson st) coverages validatedIds (userId st) (length savedIds) unlocked
    (badgeQueue st) (currentBadge st) (lastPosition st)
    (if (0 <? length savedIds)%nat then length savedIds else exploredCount st)
    [] restoredFeatures (saveRequests st).

(** The load handler when both requests succeed: [uid] is what
    [getUserId] returned, [streets] the ways of the city, [savedIds] and
    [savedBadges] the stored exploration. *)
Definition mapLoad (uid : string) (streets : list OverpassWay) (savedIds : list Z)
    (savedBadges : list string) (st : Engine) : option Engine :=
  let features := streetsToGeoJSON streets in
  match buildCoverages features 0 with
  | None => None
  | Some covs =>
      Some (restoreSession savedIds savedBadges
              (mkEngine (Some features) covs (validatedWayIds st) (Some uid) (savedCount st)
                 (unlockedBadges st) (badgeQueue st) (currentBadge st) (lastPosition st)
                 (exploredCount st) (progressData st) (exploredData st) (saveRequests st)))
  end.

(** *** The cleanup of the effect: the final flush *)

Definition cleanup (cityName : string) (st : Engine) : Engine :=
  match geojson st with
  | Some features =>
      if truthy (userId st) && (savedCount st <? set_size (validatedWayIds st))%nat then
        mkEngine (geojson st) (segmentCoverages st) (validatedWayIds st) (userId st)
          (savedCount st) (unlockedBadges st) (badgeQueue st) (currentBadge st)
          (lastPosition st) (exploredCount st) (progressData st) (exploredData st)
          (saveRequests st ++
           [mkExploration (match userId st with Some u => u | None => "" end) cityName
              (validatedWayIds st) (length features) (unlockedBadges st)])
      else st
  | None => st
  end.

End Engine.

Arguments SegmentCoverage num : clear implicits.
Arguments Feature num : clear implicits.
Arguments Nearest num : clear implicits.
Arguments NearState num : clear implicits.
Arguments Engine num : clear implicits.
Arguments OsmPoint num : clear implicits.
Arguments OverpassWay num : clear implicits.

(** ** The two instances *)

(** *** Binary64 *)

Module F64.
Local Open Scope float_scope.

(** Integer literals and array lengths; exact below [2^53]. *)
Definition of_int (z : Z) : float :=
  match z with
  | Z0 => 0
  | Zpos _ => of_uint63 (Uint63.of_Z z)
  | Zneg p => - of_uint63 (Uint63.of_Z (Zpos p))
  end.

(** [Math.max] and [Math.min]: a [NaN] argument gives [NaN], and [+0] is
    above [-0]. *)
Definition max (a b : float) : float :=
  if is_nan a || is_nan b then nan
  else if a <? b then b
  else if b <? a then a
  else if get_sign a then b else a.

Definition min (a b : float) : float :=
  if is_nan a || is_nan b then nan
  else if a <? b then a
  else if b <? a then b
  else if get_sign a then a else b.

(** [Math.ceil]. *)
Definition ceil (x : float) : float :=
  match Prim2SF x with
  | S754_finite s m e =>
      if (0 <=? e)%Z then x else
      let d := (2 ^ (- e))%Z in
      let q := (Zpos m / d)%Z in
      if s then (if (q =? 0)%Z then (-0) else - of_int q)
      else of_int (if (Zpos m mod d =? 0)%Z then q else q + 1)
  | _ => x
  end.

(** The turns of [for (j = 0; j < x; j++)]: none when [x] is [NaN] or not
    positive; the counter stops growing at [2^53], so a larger bound is
    never reached. *)
Definition loop_turns (x : float) : option nat :=
  match Prim2SF (ceil x) with
  | S754_finite false m e =>
      let z := if (0 <=? e)%Z then (Zpos m * 2 ^ e)%Z else (Zpos m / 2 ^ (- e))%Z in
      if (z <=? 2 ^ 53)%Z then Some (Z.to_nat z) else None
  | S754_infinity false => None
  | _ => Some O
  end.

(** [Math.cos], which the language leaves to the host as an approximation:
    here the Taylor polynomial of degree 20, exact at 0. *)
Definition cos (x : float) : float :=
  let y := x * x in
  1 - y / 2 * (1 - y / 12 * (1 - y / 30 * (1 - y / 56 * (1 - y / 90 *
    (1 - y / 132 * (1 - y / 182 * (1 - y / 240 * (1 - y / 306 * (1 - y / 380))))))))).

#[global] Instance num : Num float := {|
  of_Z := of_int;
  Math_PI := 0x1.921fb54442d18p+1;
  num_add := PrimFloat.add;
  num_sub := PrimFloat.sub;
  num_mul := PrimFloat.mul;
  num_div := PrimFloat.div;
  Math_sqrt := PrimFloat.sqrt;
  Math_cos := cos;
  Math_ceil := ceil;
  Math_max := max;
  Math_min := min;
  num_ltb := PrimFloat.ltb;
  num_leb := PrimFloat.leb;
  num_eqb := PrimFloat.eqb;
  lt_Infinity := fun x => x <? infinity;
  count_below := loop_turns
|}.

End F64.

(** *** Exact arithmetic *)

Module Ideal.
Local Open Scope R_scope.

Definition ltb (a b : R) : bool := if Rlt_dec a b then true else false.

Definition leb (a b : R) : bool := if Rle_dec a b then true else false.

Definition eqb (a b : R) : bool := if Req_dec_T a b then true else false.

#[global] Instance num : Num R := {|
  of_Z := IZR;
  Math_PI := PI;
  num_add := Rplus;
  num_sub := Rminus;
  num_mul := Rmult;
  num_div := Rdiv;
  Math_sqrt := sqrt;
  Math_cos := cos;
  Math_ceil := fun x => IZR (Zceil x);
  Math_max := Rmax;
  Math_min := Rmin;
  num_ltb := ltb;
  num_leb := leb;
  num_eqb := eqb;
  lt_Infinity := fun _ => true;
  count_below := fun x => Some (Z.to_nat (Zceil x))
|}.

End Ideal.

(** ** A session as a sequence of events *)

Section Session.
Context {num : Type} {N : Num num}.

(** A fix: whether the map style is loaded when it arrives, and the
    position. *)
Record Fix : Type := mkFix {
  fix_ready : bool;
  fix_lon : num;
  fix_lat : num
}.

Definition processFix (cityName : string) (st : Engine num) (f : Fix) : Engine num :=
  afterFix cityName (fix_ready f) (fix_lon f) (fix_lat f) st.

Definition runFixes (cityName : string) (fixes : list Fix) (st : Engine num) : Engine num :=
  fold_left (processFix cityName) fixes st.

(** The states a mounted component goes through: the load handler runs
    with the non-empty identifier that [getUserId] returns and stops early
    when a request fails, then fixes arrive. *)
Inductive reachable (cityName : string) : Engine num -> Prop :=
| reach_init : reachable cityName initialEngine
| reach_load_failed : forall st uid,
    reachable cityName st -> uid <> ""%string ->
    reachable cityName
      (mkEngine (geojson st) (segmentCoverages st) (validatedWayIds st) (Some uid)
         (savedCount st) (unlockedBadges st) (badgeQueue st) (currentBadge st)
         (lastPosition st) (exploredCount st) (progressData st) (exploredData st)
         (saveRequests st))
| reach_load : forall st uid streets savedIds savedBadges st',
    reachable cityName st -> uid <> ""%string ->
    mapLoad uid streets savedIds savedBadges st = Some st' ->
    reachable cityName st'
| reach_fix : forall st f,
    reachable cityName st -> reachable cityName (processFix cityName st f).

(** Every field but the marker position. *)
Definition sameEngineState (a b : Engine num) : Prop :=
  geojson a = geojson b /\ segmentCoverages a = segmentCoverages b /\
  validatedWayIds a = validatedWayIds b /\ userId a = userId b /\
  savedCount a = savedCount b /\ unlockedBadges a = unlockedBadges b /\
  badgeQueue a = badgeQueue b /\ currentBadge a = currentBadge b /\
  exploredCount a = exploredCount b /\ progressData a = progressData b /\
  exploredData a = exploredData b /\ saveRequests a = saveRequests b.

End Session.

Arguments Fix num : clear implicits.

Unset Implicit Arguments.

(** ** The notions the statements use *)

(** What the search needs of [<]: a strict order in which every number
    below another is below [Infinity], total on the numbers below
    [Infinity] (on binary64 values these are the numbers other than [NaN]
    and [+Infinity]). *)
Class NumOrder {num : Type} (N : Num num) : Prop := {
  ltb_irrefl : forall a : num, num_ltb a a = false;
  ltb_trans : forall a b c : num,
    num_ltb a b = true -> num_ltb b c = true -> num_ltb a c = true;
  ltb_below_Infinity : forall a b : num, num_ltb a b = true -> lt_Infinity a = true;
  ltb_cotrans : forall a b c : num,
    num_ltb a b = true -> lt_Infinity c = true -> num_ltb a c = true \/ num_ltb c b = true
}.

Section Notions.
Context {num : Type} {N : Num num}.
Local Open Scope num_scope.

(** The shapes of the state after a fix. *)
Inductive fixEffect (cityName : string) (lon lat : num) (st : Engine num)
    : Engine num -> Prop :=
| fe_ignored : fixEffect cityName lon lat st st
| fe_position : fixEffect cityName lon lat st (set_lastPosition st (Some (lon, lat)))
| fe_covered : forall n cov cov' touched,
    findNearestSegment lon lat (segmentCoverages st) = Ok (Some n) ->
    xgt (distance n) MAP_MATCH_MAX_DIST = false ->
    nth_error (segmentCoverages st) (coverage n) = Some cov ->
    validated cov = false ->
    markCovered cov (snappedLon n) (snappedLat n) = (cov', touched) ->
    (touched = false \/ (coverageRatio cov' <? VALIDATION_THRESHOLD) = true) ->
    let st2 := set_segmentCoverages (set_lastPosition st (Some (lon, lat)))
                 (replace_at (segmentCoverages st) (coverage n) cov') in
    forall st', st' = st2 \/ st' = set_progressData st2 (progressFeatures (segmentCoverages st2)) ->
    fixEffect cityName lon lat st st'
| fe_validated : forall n cov cov' features,
    geojson st = Some features ->
    findNearestSegment lon lat (segmentCoverages st) = Ok (Some n) ->
    xgt (distance n) MAP_MATCH_MAX_DIST = false ->
    nth_error (segmentCoverages st) (coverage n) = Some cov ->
    validated cov = false ->
    markCovered cov (snappedLon n) (snappedLat n) = (cov', true) ->
    (coverageRatio cov' <? VALIDATION_THRESHOLD) = false ->
    let st2 := set_segmentCoverages (set_lastPosition st (Some (lon, lat)))
                 (replace_at (segmentCoverages st) (coverage n) cov') in
    let st3 := set_progressData st2 (progressFeatures (segmentCoverages st2)) in
    fixEffect cityName lon lat st
      (validateSegment cityName features (coverage n) cov' st3).

(** Once the street collection is there the user id is set, and before
    that nothing is validated. *)
Definition sessionInv (st : Engine num) : Prop :=
  match geojson st with
  | Some _ => truthy (userId st) = true
  | None => validatedWayIds st = [] /\ segmentCoverages st = []
  end.

(** A fix is a validation event when it turns some entry from not
    validated to validated. *)
Definition validationEvent (st st' : Engine num) : Prop :=
  exists i c c',
    nth_error (segmentCoverages st) i = Some c /\ validated c = false /\
    nth_error (segmentCoverages st') i = Some c' /\ validated c' = true.

(** The way id belongs to a loaded street. *)
Definition knownWay (streets : list (OverpassWay num)) (id : Z) : bool :=
  existsb (fun w => (w_id w =? id)%Z) streets.

(** What the restore block leaves of a restored coverage. *)
Definition isRestored (c : SegmentCoverage num) : Prop :=
  validated c = true /\ Forall (fun b => b = true) (covered c) /\
  minCoveredT c = of_Z 0 /\ maxCoveredT c = of_Z 1.

(** The distance the search sees for an entry. *)
Definition distanceTo (lon lat : num) (c : SegmentCoverage num) : xnum num :=
  match projectOntoLineString lon lat (coords c) with
  | Ok p => p_distance p
  | TypeError => Infinity
  end.

(** The state of the search once the entries [seen] have been
    projected. *)
Definition leads (lon lat : num) (seen : list (SegmentCoverage num))
    (st : NearState num) : Prop :=
  match nBestCov st with
  | None =>
      nBestDist st = Infinity /\
      forall c, In c seen -> xltx (distanceTo lon lat c) Infinity = false
  | Some k =>
      (exists c p,
         nth_error seen k = Some c /\
         projectOntoLineString lon lat (coords c) = Ok p /\
         nBestDist st = p_distance p /\ nBestT st = p_t p /\
         nBestLon st = p_lon p /\ nBestLat st = p_lat p) /\
      xltx (nBestDist st) Infinity = true /\
      (forall c, In c seen -> xltx (distanceTo lon lat c) (nBestDist st) = false) /\
      (forall j c, j < k -> nth_error seen j = Some c ->
         xltx (nBestDist st) (distanceTo lon lat c) = true \/
         xltx (distanceTo lon lat c) Infinity = false)
  end.

(** The point of a segment at local position [l]. *)
Definition interpAt (seg : Coord num * Coord num) (l : num) : Coord num :=
  let '((ax, ay), (bx, by_)) := seg in
  (ax + (bx - ax) * l, ay + (by_ - ay) * l).


(** The cumulative length before segment [i]. *)
Definition cumDistAt (lens : list num) (i : nat) : num := totalOf (firstn i lens).







End Notions.

(** *** What the statements ask of the numbers *)

(** What step 5 needs of the division and of [<]: on a count [k] out of
    [n], both integers that a number holds exactly, the test
    [k / n < VALIDATION_THRESHOLD] is the test [k / n < 4 / 5] on the
    integers.  An array has fewer than [2^32] elements, and binary64
    values hold the integers up to [2^53]. *)
Class NumRatio {num : Type} (N : Num num) : Prop := {
  ratio_test : forall k n : Z,
    (0 <= k <= n)%Z -> (1 <= n < 2 ^ 53)%Z ->
    num_ltb (num_div (of_Z k) (of_Z n)) VALIDATION_THRESHOLD = (5 * k <? 4 * n)%Z
}.

(** [ceil (0.80 * n)], the least count that is not below four fifths of
    [n]. *)
Definition neededOf (n : nat) : Z := ((4 * Z.of_nat n + 4) / 5)%Z.

(** What the sampler needs of [Math.max], [Math.ceil] and the counting
    loop: [Math.max(1, Math.ceil(x))] is the ceiling where the ceiling is
    at least 1, and 1 where it is below 1; and a counting loop up to that
    bound that ends has made as many turns as the bound says, at least
    one, or none when the bound is not a number. *)
Class NumCount {num : Type} (N : Num num) : Prop := {
  count_steps : forall (x : num) (n : nat),
    let steps := Math_max (of_Z 1) (Math_ceil x) in
    count_below steps = Some n ->
    if num_eqb steps steps
    then (1 <= n)%nat /\ of_Z (Z.of_nat n) = steps
    else n = 0%nat;
  steps_above : forall x : num,
    num_leb (of_Z 1) (Math_ceil x) = true ->
    Math_max (of_Z 1) (Math_ceil x) = Math_ceil x;
  steps_below : forall x : num,
    num_ltb (Math_ceil x) (of_Z 1) = true ->
    Math_max (of_Z 1) (Math_ceil x) = of_Z 1
}.
(** The values [Math.ceil] returns on binary64 values. *)
Inductive ceilShape (c : float) : Prop :=
| cs_nan : c = nan -> ceilShape c
| cs_zero : c = 0%float \/ c = (-0)%float -> ceilShape c
| cs_pinf : c = infinity -> ceilShape c
| cs_ninf : c = neg_infinity -> ceilShape c
| cs_neg : forall m e, Prim2SF c = S754_finite true m e -> ceilShape c
| cs_int : forall r, (1 <= r < 2 ^ 53)%Z -> c = F64.of_int r -> ceilShape c
| cs_big : forall m e, Prim2SF c = S754_finite false m e -> (0 <= e)%Z ->
    Zpos (digits2_pos m) = 53%Z -> ceilShape c.

(** What [subLineString] needs of [<=] and [<]: [<=] is transitive, holds
    where [<] does and excludes the reverse [<], and two numbers that
    compare with themselves (on binary64 values, that are not [NaN])
    compare with each other. *)
Class NumLe {num : Type} (N : Num num) : Prop := {
  leb_trans : forall a b c : num,
    num_leb a b = true -> num_leb b c = true -> num_leb a c = true;
  ltb_leb : forall a b : num, num_ltb a b = true -> num_leb a b = true;
  leb_not_ltb : forall a b : num, num_leb a b = true -> num_ltb b a = false;
  leb_total : forall a b : num,
    num_leb a a = true -> num_leb b b = true -> num_ltb a b = false -> num_leb b a = true;
  leb_refl_l : forall a b : num, num_leb a b = true -> num_leb a a = true;
  leb_refl_r : forall a b : num, num_leb a b = true -> num_leb b b = true
}.

Section SubLineNotions.
Context {num : Type} {N : Num num}.
Local Open Scope num_scope.



Definition dfltSeg : (Coord num * Coord num) * num :=
  (((of_Z 0, of_Z 0), (of_Z 0, of_Z 0)), of_Z 0).



End SubLineNotions.

(** ** Sessions on binary64 values *)

Module Scenario.
Local Open Scope float_scope.

(** A straight street of about 108 m along a meridian, a parallel street
    one block east, a street reduced to one vertex and a way without
    geometry. *)
Definition meridian : OverpassWay float :=
  mkWay 7 [mkOsmPoint 0 0; mkOsmPoint 0.0009765625 0].

Definition parallel : OverpassWay float :=
  mkWay 8 [mkOsmPoint 0 0.0009765625; mkOsmPoint 0.0009765625 0.0009765625].

Definition lonely : OverpassWay float := mkWay 9 [mkOsmPoint 0 0].

Definition hollow : OverpassWay float := mkWay 10 [].

Definition loadedOr (st : option (Engine float)) : Engine float :=
  match st with
  | Some s => s
  | None => initialEngine
  end.

(** The session after the load of three streets with street 7 stored as
    validated. *)
Definition session : Engine float :=
  loadedOr (mapLoad "u1" [meridian; parallel; lonely] [7%Z] [] initialEngine).

(** The session after the load of one street and of a snapshot that names
    a way of no loaded street. *)
Definition sessionUnknown : Engine float :=
  loadedOr (mapLoad "u1" [meridian] [99%Z] [] initialEngine).

(** The session after the load of one street and of an empty snapshot. *)
Definition sessionPlain : Engine float :=
  loadedOr (mapLoad "u1" [meridian] [] [] initialEngine).

(** The session after the load of a way without geometry. *)
Definition sessionHollow : Engine float :=
  loadedOr (mapLoad "u1" [meridian; hollow] [] [] initialEngine).

Definition onlyLonely : list (SegmentCoverage float) :=
  [mkCov 9 0 [(0, 0)] [] [] false 1 0].

(** A walk along the meridian street, a fix about every 13.5 m. *)
Definition walk : list (Fix float) :=
  map (fun k => mkFix true 0 (F64.of_int (Z.of_nat k) * 0.0001220703125)) (seq 0 9).

(** The test of step 5 at the two counts around the threshold, for [n]
    samples. *)
Definition boundaryHolds (n : nat) : bool :=
  let k := ((4 * Z.of_nat n + 4) / 5)%Z in
  negb (num_ltb (num_div (of_Z k) (of_Z (Z.of_nat n))) (@VALIDATION_THRESHOLD float _))
  && num_ltb (num_div (of_Z (k - 1)) (of_Z (Z.of_nat n))) (@VALIDATION_THRESHOLD float _).

End Scenario.

(** ** Sessions on the equator, on binary64 values

    On the equator the latitude is 0, where every cosine, the host's or
    the model's, is 1. *)

Module Equator.
Local Open Scope float_scope.

(** A street of about 108 m along the equator, from longitude 0. *)
Definition avenue : OverpassWay float :=
  mkWay 7 [mkOsmPoint 0 0; mkOsmPoint 0 0.0009765625].

(** The longitude of the sample of rank [j] of [avenue], which has 22
    steps. *)
Definition at_sample (j : Z) : float := F64.of_int j / 22 * 0.0009765625.

Definition fixAt (j : Z) : Fix float := mkFix true (at_sample j) 0.

Definition loaded : Engine float :=
  Scenario.loadedOr (mapLoad "u1" [avenue] [] [] initialEngine).

(** The session after three fixes that cover the first 16 of the 23
    samples of [avenue]. *)
Definition sixteen : Engine float :=
  runFixes "Marly" [fixAt 3; fixAt 9; fixAt 12] loaded.

(** Ten streets of about 13.5 m along the equator, about 108 m apart; a
    fix in the middle of one covers it whole. *)
Definition lane (k : Z) : OverpassWay float :=
  let x := F64.of_int k * 0.0009765625 in
  mkWay k [mkOsmPoint 0 x; mkOsmPoint 0 (x + 0.0001220703125)].

Definition lanes : list (OverpassWay float) := map lane [1; 2; 3; 4; 5; 6; 7; 8; 9; 10]%Z.

Definition fixOn (k : Z) : Fix float :=
  mkFix true (F64.of_int k * 0.0009765625 + 0.00006103515625) 0.

Definition lanesLoaded : Engine float :=
  Scenario.loadedOr (mapLoad "u1" lanes [] [] initialEngine).

(** The session after a fix on each of the first [n] lanes. *)
Definition walked (n : nat) : Engine float :=
  runFixes "Marly" (map (fun k => fixOn (Z.of_nat k)) (seq 1 n)) lanesLoaded.

(** A polyline from the equator: about 5 m to the north, then about
    13.5 m to the east. *)
Definition bend : list (Coord float) :=
  [(0, 0); (0, 0x1.79dd7f667e044p-15); (0.0001220703125, 0x1.79dd7f667e044p-15)].

End Equator.

(** ** The rest of the component

    What the component holds besides the coverage engine: the boundary
    converter [assembleRings] and [boundaryToGeoJSON], the progress bar
    and the badge queue with [handleBadgeDismiss]; the helpers it imports,
    [getUserId] on the storage, [loadExploration] and [saveExploration] on
    the table of explorations; then the notions that the properties of
    sessions, of the projection and of the sampler are stated with. *)

(** *** More of the numbers *)

(** What the boundary converter and the progress bar ask of a [number]
    beyond [Num]: [Math.abs], [Math.round] and the literal [1e-6]. *)
Class NumMore (num : Type) : Type := {
  Math_abs : num -> num;
  Math_round : num -> num;
  lit_1em6 : num
}.

(** [Math.round] on binary64 values: the nearest integer, a tie going up;
    a negative value that rounds to zero gives [-0]. *)
Definition round64 (x : float) : float :=
  match Prim2SF x with
  | S754_finite s m e =>
      if (0 <=? e)%Z then x else
      let d := (2 ^ (- e))%Z in
      let q := (Zpos m / d)%Z in
      let r := (Zpos m mod d)%Z in
      if s then
        let n := if (d <? 2 * r)%Z then (q + 1)%Z else q in
        if (n =? 0)%Z then (-0)%float else (- F64.of_int n)%float
      else F64.of_int (if (d <=? 2 * r)%Z then q + 1 else q)
  | _ => x
  end.

#[global] Instance F64_more : NumMore float := {|
  Math_abs := PrimFloat.abs;
  Math_round := round64;
  lit_1em6 := 0x1.0c6f7a0b5ed8dp-20%float
|}.

#[global] Instance Ideal_more : NumMore R := {|
  Math_abs := Rabs;
  Math_round := fun x => IZR (Zfloor (x + / 2));
  lit_1em6 := (/ 1000000)%R
|}.

(** A binary64 value is [NaN]. *)
Definition isNaN (x : float) : Prop := Prim2SF x = S754_nan.

(** *** The boundary of the city *)

Section Boundary.
Context {num : Type} {N : Num num} {M : NumMore num}.
Local Open Scope num_scope.

(** [Math.abs(a[0] - b[0]) < 1e-6 && Math.abs(a[1] - b[1]) < 1e-6] *)
Definition near (a b : Coord num) : bool :=
  (Math_abs (fst a - fst b) <? lit_1em6) && (Math_abs (snd a - snd b) <? lit_1em6).

(** The [for] loop of [assembleRings]: the first way of [remaining] that
    starts or ends near [tail], the points it adds to the ring, and
    [remaining] without that way.  Reading [seg[0][0]] on a way without
    points throws. *)
Fixpoint matchWay (tail : Coord num) (remaining : list (list (Coord num)))
    : outcome (option (list (Coord num) * list (list (Coord num)))) :=
  match remaining with
  | [] => Ok None
  | seg :: rest =>
      match seg with
      | [] => TypeError
      | first :: _ =>
          let last := List.last seg first in
          if near first tail then Ok (Some (List.tl seg, rest))
          else if near last tail then Ok (Some (List.tl (rev seg), rest))
          else
            match matchWay tail rest with
            | Ok (Some (pts, rest')) => Ok (Some (pts, seg :: rest'))
            | Ok None => Ok None
            | TypeError => TypeError
            end
      end
  end.

(** The loop [while (guard-- > 0)]: the ring grows by one way a turn until
    it closes, no way fits or the guard runs out.  Reading [tail[0]] on a
    ring without points throws. *)
Fixpoint growRing (guard : nat) (ring : list (Coord num))
    (remaining : list (list (Coord num)))
    : outcome (list (Coord num) * list (list (Coord num))) :=
  match guard with
  | O => Ok (ring, remaining)
  | S guard' =>
      match ring with
      | [] => TypeError
      | head :: _ =>
          let tail := List.last ring head in
          if near tail head then Ok (ring, remaining)
          else
            match matchWay tail remaining with
            | TypeError => TypeError
            | Ok None => Ok (ring, remaining)
            | Ok (Some (pts, rest)) => growRing guard' (ring ++ pts) rest
            end
      end
  end.

(** The loop [while (remaining.length > 0)], for at most [turns] turns;
    [None] when the turns do not suffice. *)
Fixpoint ringsLoop (turns : nat) (remaining rings : list (list (Coord num)))
    : option (outcome (list (list (Coord num)))) :=
  match remaining with
  | [] => Some (Ok rings)
  | first :: rest =>
      match turns with
      | O => None
      | S turns' =>
          match growRing (length rest * 2) first rest with
          | TypeError => Some TypeError
          | Ok (ring, rest') => ringsLoop turns' rest' (rings ++ [ring])
          end
      end
  end.

(** The number of points of a list of ways or of rings. *)
Definition pointCount (ws : list (list (Coord num))) : nat := list_sum (map (@length _) ws).

(** [pts.map(({ lon, lat }) => [lon, lat])] *)
Definition toCoords (pts : list (OsmPoint num)) : list (Coord num) :=
  map (fun p => (lon p, lat p)) pts.

(** [assembleRings]; each turn of the outer loop takes a way out of
    [remaining], so the number of ways bounds the turns. *)
Definition assembleRings (ways : list (list (OsmPoint num)))
    : option (outcome (list (list (Coord num)))) :=
  ringsLoop (length ways) (map toCoords ways) [].

(** A member of an [OverpassRelation]. *)
Record Member : Type := mkMember {
  m_type : string;
  m_role : string;
  m_geometry : option (list (OsmPoint num))
}.

(** [m.type === "way" && m.role === "outer" && m.geometry?.length] *)
Definition isOuterWay (m : Member) : bool :=
  String.eqb (m_type m) "way" && String.eqb (m_role m) "outer" &&
  match m_geometry m with
  | Some (_ :: _) => true
  | _ => false
  end.

Definition outerWays (members : list Member) : list (list (OsmPoint num)) :=
  map (fun m => match m_geometry m with Some g => g | None => [] end)
      (filter isOuterWay members).

(** The geometry of the one feature [boundaryToGeoJSON] returns. *)
Inductive BoundaryGeometry : Type :=
| Polygon (coordinates : list (list (Coord num)))
| MultiPolygon (coordinates : list (list (list (Coord num)))).

Definition boundaryToGeoJSON (members : list Member) : option (outcome BoundaryGeometry) :=
  match assembleRings (outerWays members) with
  | None => None
  | Some TypeError => Some TypeError
  | Some (Ok rings) =>
      Some (Ok (match rings with
                | [r] => Polygon [r]
                | _ => MultiPolygon (map (fun r => [r]) rings)
                end))
  end.

End Boundary.

Arguments Member num : clear implicits.
Arguments BoundaryGeometry num : clear implicits.

(** *** The progress bar *)

Section ProgressBar.
Context {num : Type} {N : Num num} {M : NumMore num}.
Local Open Scope num_scope.

(** [streetCount ? Math.round((exploredCount / streetCount) * 100) : 0] *)
Definition progress (streetCount : option nat) (explored : nat) : num :=
  match streetCount with
  | Some (S _ as n) =>
      Math_round ((of_Z (Z.of_nat explored) / of_Z (Z.of_nat n)) * of_Z 100)
  | _ => of_Z 0
  end.

End ProgressBar.

(** *** The badge queue *)

Section BadgeQueue.
Context {num : Type} {N : Num num}.

Definition set_badges (st : Engine num) (current : option Badge) (queue : list Badge)
    : Engine num :=
  mkEngine (geojson st) (segmentCoverages st) (validatedWayIds st) (userId st)
    (savedCount st) (unlockedBadges st) queue current (lastPosition st)
    (exploredCount st) (progressData st) (exploredData st) (saveRequests st).

(** [handleBadgeDismiss], up to the timer it starts. *)
Definition handleBadgeDismiss (st : Engine num) : Engine num :=
  set_badges st None (badgeQueue st).

(** The callback of that timer: [badgeQueueRef.current.shift() ?? null]
    becomes the current badge. *)
Definition badgeTimer (st : Engine num) : Engine num :=
  match badgeQueue st with
  | next :: rest => set_badges st (Some next) rest
  | [] => set_badges st None []
  end.

(** What happens to a mounted component once the streets are loaded. *)
Inductive Event : Type :=
| EvFix (f : Fix num)
| EvDismiss
| EvBadgeTimer.

Definition stepEvent (cityName : string) (st : Engine num) (ev : Event) : Engine num :=
  match ev with
  | EvFix f => processFix cityName st f
  | EvDismiss => handleBadgeDismiss st
  | EvBadgeTimer => badgeTimer st
  end.

Definition runEvents (cityName : string) (evs : list Event) (st : Engine num) : Engine num :=
  fold_left (stepEvent cityName) evs st.

(** The badges on display or waiting for it. *)
Definition announced (st : Engine num) : list Badge :=
  match currentBadge st with
  | Some b => b :: badgeQueue st
  | None => badgeQueue st
  end.

(** The step from [st] to [st'] brings the badge in. *)
Definition newlyAnnounced (st st' : Engine num) (b : Badge) : Prop :=
  In b (announced st') /\ ~ In b (announced st).

End BadgeQueue.

Arguments Event num : clear implicits.

(** *** The stored identifier and the stored explorations *)

(** [localStorage], as the list of its entries. *)
Definition Storage : Type := list (string * string).

Fixpoint getItem (s : Storage) (key : string) : option string :=
  match s with
  | [] => None
  | (k, v) :: rest => if String.eqb k key then Some v else getItem rest key
  end.

Fixpoint setItem (s : Storage) (key value : string) : Storage :=
  match s with
  | [] => [(key, value)]
  | (k, v) :: rest =>
      if String.eqb k key then (k, value) :: rest else (k, v) :: setItem rest key value
  end.

Definition USER_ID_KEY : string := "streetquest_user_id".

(** [getUserId] on the storage: the identifier and the storage it
    leaves; [fresh] is what [crypto.randomUUID()] returns. *)
Definition getUserIdIn (s : Storage) (fresh : string) : string * Storage :=
  match getItem s USER_ID_KEY with
  | Some id =>
      if truthy (Some id) then (id, s) else (fresh, setItem s USER_ID_KEY fresh)
  | None => (fresh, setItem s USER_ID_KEY fresh)
  end.

(** The table [explorations]: a row is the payload and its date. *)
Record Row : Type := mkRow {
  r_exploration : Exploration;
  r_updated_at : string
}.

(** [.eq("user_id", userId).eq("city", city)] *)
Definition rowMatches (userId cityName : string) (r : Row) : bool :=
  String.eqb (user_id (r_exploration r)) userId && String.eqb (city (r_exploration r)) cityName.

(** The answer of [.maybeSingle()]: no row gives [null] data, one row
    gives the row, several rows are an error. *)
Inductive Single (A : Type) : Type :=
| NoRow
| OneRow (a : A)
| SeveralRows.

Arguments NoRow {A}.
Arguments OneRow {A} a.
Arguments SeveralRows {A}.

Definition maybeSingle {A : Type} (rows : list A) : Single A :=
  match rows with
  | [] => NoRow
  | [r] => OneRow r
  | _ => SeveralRows
  end.

(** [loadExploration] on a table that answers: [exploredIds] and
    [badges]. *)
Definition loadExploration (table : list Row) (userId cityName : string)
    : list Z * list string :=
  match maybeSingle (filter (rowMatches userId cityName) table) with
  | OneRow r => (explored_way_ids (r_exploration r), badges (r_exploration r))
  | NoRow => ([], [])
  | SeveralRows => ([], [])
  end.

(** [saveExploration] on a table that answers: the table it leaves;
    [now] is [new Date().toISOString()]. *)
Definition saveExploration (table : list Row) (e : Exploration) (now : string) : list Row :=
  if negb (truthy (Some (user_id e))) then table else
  match maybeSingle (filter (rowMatches (user_id e) (city e)) table) with
  | SeveralRows => table
  | OneRow _ =>
      map (fun r =>
             if rowMatches (user_id e) (city e) r
             then mkRow (mkExploration (user_id (r_exploration r)) (city (r_exploration r))
                           (explored_way_ids e) (total_ways e) (badges e)) now
             else r) table
  | NoRow => table ++ [mkRow e now]
  end.

(** *** The projection, turn by turn *)

Section Projection.
Context {num : Type} {N : Num num}.
Local Open Scope num_scope.

(** The distance of the source from the fix to the point [q]. *)
Definition distTo (px py : num) (q : Coord num) : num :=
  distancePointToPoint px py (fst q) (snd q).

(** The [localT] that [projectOntoLineString] computes on a segment. *)
Definition localTOf (px py cosLat : num) (seg : Coord num * Coord num) (segLen : num) : num :=
  let '((ax, ay), (bx, by_)) := seg in
  let dLon := (bx - ax) * of_Z 111000 * cosLat in
  let dLat := (by_ - ay) * of_Z 111000 in
  if segLen >? of_Z 0 then
    let pLon := (px - ax) * of_Z 111000 * cosLat in
    let pLat := (py - ay) * of_Z 111000 in
    Math_max (of_Z 0) (Math_min (of_Z 1) ((pLon * dLon + pLat * dLat) / (segLen * segLen)))
  else of_Z 0.

(** The state the loop starts from. *)
Definition projectInit (coords : list (Coord num)) : ProjState num :=
  let first := hd (of_Z 0, of_Z 0) coords in
  mkProjState Infinity (of_Z 0) (fst first) (snd first) (of_Z 0).

(** The segments of a polyline with their lengths, as the loop reads
    them. *)
Definition measured (cosLat : num) (coords : list (Coord num))
    : list ((Coord num * Coord num) * num) :=
  combine (segmentsOf coords) (segLengthsOf cosLat coords).

End Projection.

(** *** Sessions with one load *)

Section Sessions.
Context {num : Type} {N : Num num}.

(** The state of a component that mounted, loaded the streets and the
    stored exploration once, and then processed [fixes]. *)
Definition sessionAfter (cityName uid : string) (streets : list (OverpassWay num))
    (savedIds : list Z) (savedBadges : list string) (fixes : list (Fix num))
    : option (Engine num) :=
  match mapLoad uid streets savedIds savedBadges initialEngine with
  | Some st0 => Some (runFixes cityName fixes st0)
  | None => None
  end.

(** The bookkeeping of two states is the same: the sets, the badge
    queue, the saved count, the requests, the explored layer and the
    explored count. *)
Definition sameBooks (a b : Engine num) : Prop :=
  geojson a = geojson b /\ userId a = userId b /\
  validatedWayIds a = validatedWayIds b /\ unlockedBadges a = unlockedBadges b /\
  badgeQueue a = badgeQueue b /\ currentBadge a = currentBadge b /\
  savedCount a = savedCount b /\ saveRequests a = saveRequests b /\
  exploredData a = exploredData b /\ exploredCount a = exploredCount b.

(** The explored layer holds the street of every validated entry. *)
Definition exploredShown (st : Engine num) : Prop :=
  forall features i c f,
    geojson st = Some features ->
    nth_error (segmentCoverages st) i = Some c -> validated c = true ->
    nth_error features i = Some f -> In f (exploredData st).

(** What a request to save must be in the state [st]: a user id that is
    not empty, the city of the session, way ids of the validated set and
    badges of the unlocked set. *)
Definition soundRequest (cityName : string) (st : Engine num) (r : Exploration) : Prop :=
  user_id r <> ""%string /\ city r = cityName /\
  incl (explored_way_ids r) (validatedWayIds st) /\
  incl (badges r) (unlockedBadges st).

(** The fields of a coverage that never change once it is built. *)
Definition skeleton (c : SegmentCoverage num)
    : Z * nat * list (Coord num) * list (Sample num) :=
  (wayId c, featureIndex c, coords c, samples c).

(** The flag of sample [i]. *)
Definition isCovered (c : SegmentCoverage num) (i : nat) : bool := nth i (covered c) false.

(** The test of step 3 on a sample: within [COVERAGE_RADIUS_METERS] of
    the snapped point. *)
Definition nearSnapped (sLon sLat : num) (s : Sample num) : bool :=
  num_leb (distancePointToPoint (s_lon s) (s_lat s) sLon sLat) COVERAGE_RADIUS_METERS.

(** The covered array of an entry has one flag per sample. *)
Definition flagsMatch (c : SegmentCoverage num) : Prop :=
  length (covered c) = length (samples c).

(** From [c] to [c']: a flag that was set stays set, and the count of set
    flags does not decrease. *)
Definition grows (c c' : SegmentCoverage num) : Prop :=
  (forall j, isCovered c j = true -> isCovered c' j = true) /\
  count_true (covered c) <= count_true (covered c').

End Sessions.

(** *** The progress interval and the candidates of the projection *)

Section ProgressInterval.
Context {num : Type} {N : Num num}.
Local Open Scope num_scope.

(** The covered samples of an entry lie within its progress interval: the
    [t] of none is below [minCoveredT] or above [maxCoveredT]. *)
Definition withinProgress (c : SegmentCoverage num) : Prop :=
  forall i s, nth_error (samples c) i = Some s -> isCovered c i = true ->
    (s_t s <? minCoveredT c) = false /\ (maxCoveredT c <? s_t s) = false.

End ProgressInterval.

Section Candidates.
Context {num : Type} {N : Num num}.
Local Open Scope num_scope.

(** The candidate of segment [i] in [projectOntoLineString]: the point of
    the segment that the loop computes as the nearest to the fix, and the
    [t] the loop gives it. *)
Definition candidateAt (px py : num) (segs : list ((Coord num * Coord num) * num)) (i : nat)
    : Coord num :=
  let s := nth i segs dfltSeg in
  interpAt (fst s) (localTOf px py (cosLatOf py) (fst s) (snd s)).

Definition candidateT (px py total : num) (segs : list ((Coord num * Coord num) * num))
    (i : nat) : num :=
  let s := nth i segs dfltSeg in
  if total >? of_Z 0
  then (cumDistAt (map snd segs) i + localTOf px py (cosLatOf py) (fst s) (snd s) * snd s) / total
  else of_Z 0.

(** The state of the loop once the first [k] segments are seen. *)
Definition projLeads (px py total : num) (coords : list (Coord num))
    (segs : list ((Coord num * Coord num) * num)) (k : nat) (st : ProjState num) : Prop :=
  let dist j := distTo px py (candidateAt px py segs j) in
  cumDist st = cumDistAt (map snd segs) k /\
  match bestDist st with
  | Infinity =>
      bestT st = of_Z 0 /\ Some (bestLon st, bestLat st) = hd_error coords /\
      forall j, (j < k)%nat -> lt_Infinity (dist j) = false
  | Fin d =>
      exists i, (i < k)%nat /\ d = dist i /\
        (bestLon st, bestLat st) = candidateAt px py segs i /\
        bestT st = candidateT px py total segs i /\
        (forall j, (j < k)%nat -> (dist j <? d) = false) /\
        (forall j, (j < i)%nat -> (d <? dist j) = true \/ lt_Infinity (dist j) = false)
  end.

End Candidates.

(** * Proofs *)

(** ** Lists, sets and arrays *)

Section ListFacts.
Context {num : Type} {N : Num num}.

Lemma nth_error_replace_at_other (covs : list (SegmentCoverage num)) (i j : nat) c :
  i <> j -> nth_error (replace_at covs i c) j = nth_error covs j.
Proof.
  revert i j; induction covs as [|x tl IH]; intros [|i] [|j] Hij; simpl; try reflexivity.
  - congruence.
  - apply IH; congruence.
Qed.

Lemma nth_error_replace_at_same (covs : list (SegmentCoverage num)) (i : nat) c x :
  nth_error covs i = Some x -> nth_error (replace_at covs i c) i = Some c.
Proof.
  revert i; induction covs as [|y tl IH]; intros [|i] H; simpl in *; try discriminate.
  - reflexivity.
  - now apply IH.
Qed.

Lemma length_replace_at (covs : list (SegmentCoverage num)) (i : nat) c :
  length (replace_at covs i c) = length covs.
Proof.
  revert i; induction covs as [|y tl IH]; intros [|i]; simpl; auto.
Qed.

Lemma replace_at_same (covs : list (SegmentCoverage num)) (i : nat) c :
  nth_error covs i = Some c -> replace_at covs i c = covs.
Proof.
  revert i; induction covs as [|y tl IH]; intros [|i] H; simpl in *; try discriminate.
  - congruence.
  - f_equal; auto.
Qed.

End ListFacts.

Section SetFacts.
Variable K : Type.
Variable K_eqb : K -> K -> bool.

Lemma set_add_size (s : list K) (k : K) :
  set_size s <= set_size (set_add K_eqb s k).
Proof.
  unfold set_add, set_size. destruct (set_has K_eqb s k).
  - lia.
  - rewrite length_app. simpl. lia.
Qed.

Lemma set_add_incl (s : list K) (k x : K) : In x s -> In x (set_add K_eqb s k).
Proof.
  unfold set_add. destruct (set_has K_eqb s k); auto.
  intro; apply in_or_app; now left.
Qed.

Lemma fold_set_add_size (A : Type) (f : A -> K) (l : list A) (s : list K) :
  set_size s <= set_size (fold_left (fun u b => set_add K_eqb u (f b)) l s).
Proof.
  revert s; induction l as [|a l IH]; intro s; simpl.
  - lia.
  - etransitivity; [apply (set_add_size s (f a))|apply IH].
Qed.

Lemma fold_set_add_incl (A : Type) (f : A -> K) (l : list A) (s : list K) (x : K) :
  In x s -> In x (fold_left (fun u b => set_add K_eqb u (f b)) l s).
Proof.
  revert s; induction l as [|a l IH]; intros s H; simpl; auto.
  apply IH. now apply set_add_incl.
Qed.

End SetFacts.

(** ** What one fix can change *)

Ltac break_match :=
  match goal with
  | |- context [match ?x with _ => _ end] => destruct x eqn:?
  | |- context [if ?x then _ else _] => destruct x eqn:?
  end.

Section FixFacts.
Context {num : Type} {N : Num num}.
Local Open Scope num_scope.

Lemma afterFix_effect cityName ready lon lat (st : Engine num) :
  fixEffect cityName lon lat st (afterFix cityName ready lon lat st).
Proof.
  unfold afterFix, updatePosition.
  destruct ready; simpl; [|constructor].
  destruct (geojson st) as [features|] eqn:Hg; [|constructor].
  destruct (length (segmentCoverages st) =? 0)%nat; [constructor|].
  destruct (findNearestSegment lon lat (segmentCoverages st)) as [[n|]|] eqn:Hn; simpl;
    try constructor.
  destruct (xgt (distance n) MAP_MATCH_MAX_DIST) eqn:Hd; [constructor|].
  destruct (nth_error (segmentCoverages st) (coverage n)) as [cov|] eqn:Hc; [|constructor].
  destruct (validated cov) eqn:Hv; [constructor|].
  destruct (markCovered cov (snappedLon n) (snappedLat n)) as [cov' touched] eqn:Hm.
  destruct touched; simpl.
  - destruct (coverageRatio cov' <? VALIDATION_THRESHOLD) eqn:Hr.
    + eapply fe_covered; eauto.
    + eapply fe_validated; eauto.
  - eapply fe_covered; eauto.
Qed.

(** The marking loop writes [covered], [minCoveredT] and [maxCoveredT]
    only. *)
Lemma coverStep_frame sLon sLat acc i s :
  let r := coverStep sLon sLat acc i s in
  wayId (fst r) = wayId (fst acc) /\ featureIndex (fst r) = featureIndex (fst acc) /\
  coords (fst r) = coords (fst acc) /\ samples (fst r) = samples (fst acc) /\
  validated (fst r) = validated (fst acc).
Proof.
  destruct acc as [cov touched]. unfold coverStep.
  repeat break_match; simpl; auto.
Qed.

Lemma coverLoop_frame sLon sLat ss : forall i acc,
  let r := coverLoop sLon sLat ss i acc in
  wayId (fst r) = wayId (fst acc) /\ featureIndex (fst r) = featureIndex (fst acc) /\
  coords (fst r) = coords (fst acc) /\ samples (fst r) = samples (fst acc) /\
  validated (fst r) = validated (fst acc).
Proof.
  induction ss as [|s rest IH]; intros i acc; simpl; auto.
  destruct (IH (S i) (coverStep sLon sLat acc i s)) as (H1 & H2 & H3 & H4 & H5).
  destruct (coverStep_frame sLon sLat acc i s) as (G1 & G2 & G3 & G4 & G5).
  repeat split; congruence.
Qed.

Lemma markCovered_frame cov sLon sLat cov' touched :
  markCovered cov sLon sLat = (cov', touched) ->
  wayId cov' = wayId cov /\ featureIndex cov' = featureIndex cov /\
  coords cov' = coords cov /\ samples cov' = samples cov /\ validated cov' = validated cov.
Proof.
  unfold markCovered. intro H.
  pose proof (coverLoop_frame sLon sLat (samples cov) 0 (cov, false)) as F.
  rewrite H in F. exact F.
Qed.

(** The fields of the state that the validation of a segment leaves alone
    or grows. *)
Lemma validateSegment_coverages cityName features i cov (st : Engine num) :
  segmentCoverages (validateSegment cityName features i cov st)
  = replace_at (segmentCoverages st) i (set_validated cov true).
Proof.
  unfold validateSegment. repeat break_match; reflexivity.
Qed.

Lemma validateSegment_validatedWayIds cityName features i cov (st : Engine num) :
  validatedWayIds (validateSegment cityName features i cov st)
  = set_add Z.eqb (validatedWayIds st) (wayId cov).
Proof.
  unfold validateSegment. repeat break_match; reflexivity.
Qed.

Lemma validateSegment_unlockedBadges cityName features i cov (st : Engine num) :
  unlockedBadges (validateSegment cityName features i cov st)
  = fold_left (fun u b => set_add String.eqb u (b_id (bd_badge b)))
      (newBadgesOf (unlockedBadges st)
         (set_size (set_add Z.eqb (validatedWayIds st) (wayId cov))))
      (unlockedBadges st).
Proof.
  unfold validateSegment. repeat break_match; reflexivity.
Qed.

Lemma replace_at_twice (covs : list (SegmentCoverage num)) i c c' :
  replace_at (replace_at covs i c) i c' = replace_at covs i c'.
Proof.
  revert i; induction covs as [|x tl IH]; intros [|i]; simpl; auto.
  now rewrite IH.
Qed.

(** C10: one fix writes at most one coverage entry, the nearest match when
    its distance is within [MAP_MATCH_MAX_DIST]; every other entry is left
    as it was, and a fix whose nearest match is beyond the ceiling, or
    that arrives before the streets are loaded, writes no entry. *)
Theorem fix_writes_nearest_only cityName ready lon lat (st : Engine num) :
  let st' := afterFix cityName ready lon lat st in
  match findNearestSegment lon lat (segmentCoverages st) with
  | Ok (Some n) =>
      (forall j, j <> coverage n ->
         nth_error (segmentCoverages st') j = nth_error (segmentCoverages st) j) /\
      length (segmentCoverages st') = length (segmentCoverages st) /\
      (xgt (distance n) MAP_MATCH_MAX_DIST = true ->
         segmentCoverages st' = segmentCoverages st)
  | _ => segmentCoverages st' = segmentCoverages st
  end /\
  (geojson st = None \/ segmentCoverages st = [] -> st' = st).
Proof.
  intro st'. split.
  - pose proof (afterFix_effect cityName ready lon lat st) as E. fold st' in E.
    destruct E as [ | | n cov cov' touched Hn Hd Hc Hv Hm Hr st2 st'' Hst
                    | n cov cov' features Hg Hn Hd Hc Hv Hm Hr st2 st3].
    + repeat break_match; auto.
    + repeat break_match; auto.
    + rewrite Hn.
      assert (Hs : segmentCoverages st'' = replace_at (segmentCoverages st) (coverage n) cov')
        by (destruct Hst; subst st''; reflexivity).
      rewrite Hs. repeat split.
      * intros j Hj. apply nth_error_replace_at_other; congruence.
      * apply length_replace_at.
      * congruence.
    + rewrite Hn, validateSegment_coverages. simpl.
      rewrite replace_at_twice. repeat split.
      * intros j Hj. apply nth_error_replace_at_other; congruence.
      * apply length_replace_at.
      * congruence.
  - subst st'. unfold afterFix, updatePosition. intros [Hg | Hc].
    + rewrite Hg. destruct ready; reflexivity.
    + rewrite Hc. destruct ready; simpl; [|reflexivity].
      destruct (geojson st); reflexivity.
Qed.

Lemma afterFix_not_loaded cityName ready lon lat (st : Engine num) :
  geojson st = None \/ segmentCoverages st = [] ->
  afterFix cityName ready lon lat st = st.
Proof.
  unfold afterFix, updatePosition. intros [Hg | Hc].
  - rewrite Hg. destruct ready; reflexivity.
  - rewrite Hc. destruct ready; simpl; [|reflexivity].
    destruct (geojson st); reflexivity.
Qed.

Lemma validateSegment_session cityName features i cov (st : Engine num) :
  geojson (validateSegment cityName features i cov st) = geojson st /\
  userId (validateSegment cityName features i cov st) = userId st.
Proof.
  unfold validateSegment. repeat break_match; auto.
Qed.

(** The handler when the fix is matched within the ceiling to an entry
    in progress and touches a new sample: step 5 decides. *)
Lemma afterFix_step5 cityName lon lat (st : Engine num) features n cov cov' :
  geojson st = Some features ->
  findNearestSegment lon lat (segmentCoverages st) = Ok (Some n) ->
  xgt (distance n) MAP_MATCH_MAX_DIST = false ->
  nth_error (segmentCoverages st) (coverage n) = Some cov ->
  validated cov = false ->
  markCovered cov (snappedLon n) (snappedLat n) = (cov', true) ->
  let st3 := set_progressData
               (set_segmentCoverages (set_lastPosition st (Some (lon, lat)))
                  (replace_at (segmentCoverages st) (coverage n) cov'))
               (progressFeatures (replace_at (segmentCoverages st) (coverage n) cov')) in
  afterFix cityName true lon lat st
  = if coverageRatio cov' <? VALIDATION_THRESHOLD then st3
    else validateSegment cityName features (coverage n) cov' st3.
Proof.
  intros Hg Hn Hd Hc Hv Hm st3. unfold afterFix, updatePosition. simpl negb. cbv iota.
  rewrite Hg.
  assert (Hlen : (length (segmentCoverages st) =? 0)%nat = false).
  { destruct (segmentCoverages st); [rewrite nth_error_nil in Hc; discriminate|reflexivity]. }
  rewrite Hlen, Hn. unfold bind.
  rewrite Hd, Hc, Hv, Hm. simpl negb. cbv iota.
  subst st3. destruct (coverageRatio cov' <? VALIDATION_THRESHOLD); reflexivity.
Qed.

Lemma sameEngineState_position (st : Engine num) p :
  sameEngineState (set_lastPosition st p) st.
Proof. unfold sameEngineState; simpl; repeat split. Qed.

Lemma sameEngineState_refl (st : Engine num) : sameEngineState st st.
Proof. unfold sameEngineState; repeat split. Qed.

(** C3: a validated entry is terminal.  Whatever fix is processed, the
    entry keeps all its fields; and when the fix is matched to that entry,
    the handler stops there: no coverage, set, counter, badge queue, map
    source or save request changes. *)
Theorem validated_entry_is_terminal cityName ready lon lat (st : Engine num) i c :
  nth_error (segmentCoverages st) i = Some c ->
  validated c = true ->
  let st' := afterFix cityName ready lon lat st in
  nth_error (segmentCoverages st') i = Some c /\
  (forall n, findNearestSegment lon lat (segmentCoverages st) = Ok (Some n) ->
             coverage n = i -> sameEngineState st' st).
Proof.
  intros Hi Hv st'.
  pose proof (afterFix_effect cityName ready lon lat st) as E. fold st' in E.
  destruct E as [ | | n cov cov' touched Hn Hd Hc Hvc Hm Hr st2 st'' Hst
                  | n cov cov' features Hg Hn Hd Hc Hvc Hm Hr st2 st3].
  - split; [assumption|]. intros; apply sameEngineState_refl.
  - split; [assumption|]. intros; apply sameEngineState_position.
  - assert (Hne : coverage n <> i) by (intro; subst i; congruence).
    split.
    + assert (Hs : segmentCoverages st'' = replace_at (segmentCoverages st) (coverage n) cov')
        by (destruct Hst; subst st''; reflexivity).
      rewrite Hs, nth_error_replace_at_other; assumption.
    + intros n' Hn' Hcov. congruence.
  - assert (Hne : coverage n <> i) by (intro; subst i; congruence).
    split.
    + rewrite validateSegment_coverages. simpl. rewrite replace_at_twice.
      rewrite nth_error_replace_at_other; assumption.
    + intros n' Hn' Hcov. congruence.
Qed.

(** C4: the set of validated way ids and the set of unlocked badges only
    gain elements.  One fix keeps every element of both sets, so their
    sizes do not decrease, and the same holds along any sequence of
    fixes. *)
Theorem validated_and_badges_only_grow cityName :
  (forall ready lon lat (st : Engine num),
     let st' := afterFix cityName ready lon lat st in
     incl (validatedWayIds st) (validatedWayIds st') /\
     incl (unlockedBadges st) (unlockedBadges st') /\
     set_size (validatedWayIds st) <= set_size (validatedWayIds st') /\
     set_size (unlockedBadges st) <= set_size (unlockedBadges st')) /\
  (forall fixes (st : Engine num),
     set_size (validatedWayIds st) <= set_size (validatedWayIds (runFixes cityName fixes st)) /\
     set_size (unlockedBadges st) <= set_size (unlockedBadges (runFixes cityName fixes st))).
Proof.
  assert (One : forall ready lon lat (st : Engine num),
     let st' := afterFix cityName ready lon lat st in
     incl (validatedWayIds st) (validatedWayIds st') /\
     incl (unlockedBadges st) (unlockedBadges st') /\
     set_size (validatedWayIds st) <= set_size (validatedWayIds st') /\
     set_size (unlockedBadges st) <= set_size (unlockedBadges st')).
  { intros ready lon lat st st'.
    pose proof (afterFix_effect cityName ready lon lat st) as E. fold st' in E.
    destruct E as [ | | n cov cov' touched Hn Hd Hc Hvc Hm Hr st2 st'' Hst
                    | n cov cov' features Hg Hn Hd Hc Hvc Hm Hr st2 st3].
    - repeat split; auto using incl_refl.
    - repeat split; simpl; auto using incl_refl.
    - destruct Hst; subst st''; repeat split; simpl; auto using incl_refl.
    - rewrite validateSegment_validatedWayIds, validateSegment_unlockedBadges. simpl.
      repeat split.
      + intros x Hx. now apply set_add_incl.
      + intros x Hx. now apply fold_set_add_incl.
      + apply set_add_size.
      + apply fold_set_add_size. }
  split; [exact One|].
  induction fixes as [|f fixes IH]; intro st; simpl.
  - split; lia.
  - destruct (IH (processFix cityName st f)) as [I1 I2].
    destruct (One (fix_ready f) (fix_lon f) (fix_lat f) st) as (_ & _ & S1 & S2).
    unfold processFix in *. unfold runFixes in *. split; lia.
Qed.

End FixFacts.

(** ** Saving *)

Section Saving.
Context {num : Type} {N : Num num}.
Local Open Scope num_scope.

Lemma truthy_nonempty uid : uid <> ""%string -> truthy (Some uid) = true.
Proof.
  intro H. simpl. apply negb_true_iff. now apply String.eqb_neq.
Qed.

(** [getUserId] never returns the empty string, a UUID being not empty. *)
Lemma getUserId_nonempty stored fresh :
  fresh <> ""%string -> getUserId stored fresh <> ""%string.
Proof.
  intro H. unfold getUserId. destruct stored as [s|]; [|assumption].
  destruct (truthy (Some s)) eqn:E; [|assumption].
  simpl in E. apply negb_true_iff in E. now apply String.eqb_neq.
Qed.

Lemma afterFix_keeps_session cityName ready lon lat (st : Engine num) :
  let st' := afterFix cityName ready lon lat st in
  geojson st' = geojson st /\ userId st' = userId st.
Proof.
  intro st'.
  pose proof (afterFix_effect cityName ready lon lat st) as E. fold st' in E.
  destruct E as [ | | n cov cov' touched Hn Hd Hc Hvc Hm Hr st2 st'' Hst
                  | n cov cov' features Hg Hn Hd Hc Hvc Hm Hr st2 st3].
  - auto.
  - auto.
  - destruct Hst; subst st''; auto.
  - destruct (validateSegment_session cityName features (coverage n) cov' st3) as [-> ->].
    auto.
Qed.

Lemma reachable_sessionInv cityName (st : Engine num) :
  reachable cityName st -> sessionInv st.
Proof.
  induction 1 as [ | st uid R IH Hu | st uid streets savedIds savedBadges st' R IH Hu Hl
                   | st f R IH ].
  - unfold sessionInv; simpl; auto.
  - unfold sessionInv in *; simpl. destruct (geojson st); auto.
    now apply truthy_nonempty.
  - unfold mapLoad in Hl.
    destruct (buildCoverages (streetsToGeoJSON streets) 0); [|discriminate].
    injection Hl as <-. unfold sessionInv; simpl. now apply truthy_nonempty.
  - unfold processFix.
    destruct (afterFix_keeps_session cityName (fix_ready f) (fix_lon f) (fix_lat f) st)
      as [Hg Hu].
    unfold sessionInv in *. rewrite Hg, Hu.
    destruct (geojson st) eqn:Hgeo; [assumption|].
    rewrite afterFix_not_loaded by auto. assumption.
Qed.

Lemma validateSegment_save cityName features i cov (st : Engine num) :
  truthy (userId st) = true ->
  let st' := validateSegment cityName features i cov st in
  let size := set_size (validatedWayIds st') in
  if (Z.of_nat size - Z.of_nat (savedCount st) >=? 10)%Z
  then saveRequests st' =
         saveRequests st ++
         [mkExploration (match userId st with Some u => u | None => ""%string end) cityName
            (validatedWayIds st') (length features) (unlockedBadges st')] /\
       savedCount st' = size
  else saveRequests st' = saveRequests st /\ savedCount st' = savedCount st.
Proof.
  intros Hu st' size. subst size st'.
  rewrite validateSegment_validatedWayIds, validateSegment_unlockedBadges.
  unfold validateSegment. rewrite Hu. unfold SAVE_EVERY_N. simpl andb.
  destruct (Z.of_nat (set_size (set_add Z.eqb (validatedWayIds st) (wayId cov)))
            - Z.of_nat (savedCount st) >=? 10)%Z; repeat break_match; simpl; auto.
Qed.

(** C9: in a session, a fix that reaches step 5 with a ratio that is not
    below the threshold is a validation event; it adds the way to the
    validated set and a save request is emitted exactly when the size of
    the validated set exceeds the saved count by at least 10, the request
    carries the user, the city, the whole sets and the number of streets,
    and the saved count becomes that size.  The same holds of every
    validation event, and a fix that validates nothing emits nothing.
    The cleanup emits exactly one request when the size of the validated
    set is above the saved count, none otherwise. *)
Theorem save_every_ten_and_final_flush cityName (st : Engine num) :
  reachable cityName st ->
  (forall lon lat features nearest cov cov',
     geojson st = Some features ->
     findNearestSegment lon lat (segmentCoverages st) = Ok (Some nearest) ->
     xgt (distance nearest) MAP_MATCH_MAX_DIST = false ->
     nth_error (segmentCoverages st) (coverage nearest) = Some cov ->
     validated cov = false ->
     markCovered cov (snappedLon nearest) (snappedLat nearest) = (cov', true) ->
     (coverageRatio cov' <? VALIDATION_THRESHOLD) = false ->
     let st' := afterFix cityName true lon lat st in
     let size := set_size (validatedWayIds st') in
     validationEvent st st' /\
     validatedWayIds st' = set_add Z.eqb (validatedWayIds st) (wayId cov) /\
     if (Z.of_nat size - Z.of_nat (savedCount st) >=? 10)%Z
     then saveRequests st' =
            saveRequests st ++
            [mkExploration (match userId st with Some u => u | None => ""%string end)
               cityName (validatedWayIds st') (length features) (unlockedBadges st')] /\
          savedCount st' = size
     else saveRequests st' = saveRequests st /\ savedCount st' = savedCount st) /\
  (forall ready lon lat,
     let st' := afterFix cityName ready lon lat st in
     let size := set_size (validatedWayIds st') in
     (validationEvent st st' ->
        if (Z.of_nat size - Z.of_nat (savedCount st) >=? 10)%Z
        then (exists r, saveRequests st' = saveRequests st ++ [r] /\
                        explored_way_ids r = validatedWayIds st' /\
                        badges r = unlockedBadges st') /\
             savedCount st' = size
        else saveRequests st' = saveRequests st /\ savedCount st' = savedCount st) /\
     (~ validationEvent st st' ->
        saveRequests st' = saveRequests st /\ savedCount st' = savedCount st)) /\
  (let st' := cleanup cityName st in
   if (savedCount st <? set_size (validatedWayIds st))%nat
   then exists features,
          geojson st = Some features /\
          saveRequests st' =
            saveRequests st ++
            [mkExploration (match userId st with Some u => u | None => ""%string end)
               cityName (validatedWayIds st) (length features) (unlockedBadges st)]
   else saveRequests st' = saveRequests st).
Proof.
  intro R. pose proof (reachable_sessionInv _ _ R) as Inv. split; [|split].
  - intros lon lat features n cov cov' Hg Hn Hd Hc Hv Hm Hr st' size.
    pose proof (afterFix_step5 cityName lon lat st features n cov cov' Hg Hn Hd Hc Hv Hm)
      as Hst'. cbv zeta in Hst'. fold st' in Hst'. rewrite Hr in Hst'.
    destruct (markCovered_frame _ _ _ _ _ Hm) as (Hw & _ & _ & _ & Hval).
    unfold sessionInv in Inv. rewrite Hg in Inv.
    match type of Hst' with _ = validateSegment _ _ _ _ ?s => set (st3 := s) in * end.
    assert (Inv3 : truthy (userId st3) = true) by exact Inv.
    pose proof (validateSegment_save cityName features (coverage n) cov' st3 Inv3) as S.
    cbv zeta in S. rewrite <- Hst' in S.
    split; [|split].
    + exists (coverage n), cov, (set_validated cov' true).
      split; [exact Hc|]. split; [exact Hv|]. split; [|reflexivity].
      rewrite Hst', validateSegment_coverages. subst st3. simpl. rewrite replace_at_twice.
      apply (nth_error_replace_at_same _ _ _ _ Hc).
    + rewrite Hst', validateSegment_validatedWayIds. subst st3. simpl. now rewrite Hw.
    + exact S.
  - intros ready lon lat st' size.
    pose proof (afterFix_effect cityName ready lon lat st) as E. fold st' in E.
    destruct E as [ | | n cov cov' touched Hn Hd Hc Hvc Hm Hr st2 st'' Hst
                    | n cov cov' features Hg Hn Hd Hc Hvc Hm Hr st2 st3].
    + split; [|auto]. intros (i & c & c' & H1 & H2 & H3 & H4). congruence.
    + split; [|auto]. intros (i & c & c' & H1 & H2 & H3 & H4). simpl in H3. congruence.
    + split.
      * intros (i & c & c' & H1 & H2 & H3 & H4). exfalso.
        assert (Hs : segmentCoverages st'' = replace_at (segmentCoverages st) (coverage n) cov')
          by (destruct Hst; subst st''; reflexivity).
        rewrite Hs in H3.
        destruct (Nat.eq_dec (coverage n) i) as [<- | Hne].
        -- rewrite (nth_error_replace_at_same _ _ _ _ Hc) in H3.
           destruct (markCovered_frame _ _ _ _ _ Hm) as (_ & _ & _ & _ & Hval). congruence.
        -- rewrite nth_error_replace_at_other in H3 by assumption. congruence.
      * intros _. destruct Hst; subst st''; simpl; auto.
    + unfold sessionInv in Inv. rewrite Hg in Inv.
      split.
      * intros _.
        pose proof (validateSegment_save cityName features (coverage n) cov' st3 Inv) as S.
        cbv zeta in S. destruct (_ >=? 10)%Z.
        -- destruct S as [S1 S2]. split; [|exact S2].
           eexists; split; [exact S1|]. simpl; auto.
        -- exact S.
      * intros Hnot. exfalso. apply Hnot. exists (coverage n), cov, (set_validated cov' true).
        repeat split; auto.
        rewrite validateSegment_coverages. simpl. rewrite replace_at_twice.
        apply (nth_error_replace_at_same _ _ _ _ Hc).
  - unfold cleanup. unfold sessionInv in Inv.
    destruct (geojson st) as [features|].
    + rewrite Inv. simpl andb.
      destruct (savedCount st <? set_size (validatedWayIds st))%nat; simpl; eauto.
    + destruct Inv as [-> _]. simpl. reflexivity.
Qed.

End Saving.

(** ** Restoring a stored exploration *)

Section Restore.
Context {num : Type} {N : Num num}.
Local Open Scope num_scope.

Lemma set_has_In (s : list Z) (k : Z) : set_has Z.eqb s k = true <-> In k s.
Proof.
  unfold set_has. rewrite existsb_exists. split.
  - intros (x & Hx & E). apply Z.eqb_eq in E. now subst.
  - intro H. exists k. split; [assumption|apply Z.eqb_refl].
Qed.

Lemma set_add_In (s : list Z) (k x : Z) : In x (set_add Z.eqb s k) <-> x = k \/ In x s.
Proof.
  unfold set_add. destruct (set_has Z.eqb s k) eqn:H.
  - apply set_has_In in H. split; [auto|]. intros [-> | ?]; auto.
  - rewrite in_app_iff. simpl. intuition.
Qed.

Lemma fold_set_add_In (ids s : list Z) (x : Z) :
  In x (fold_left (set_add Z.eqb) ids s) <-> In x ids \/ In x s.
Proof.
  revert s; induction ids as [|k ids IH]; intro s; simpl.
  - intuition.
  - rewrite IH, set_add_In. intuition.
Qed.

Lemma restoreFirst_wayIds (covs : list (SegmentCoverage num)) id :
  map wayId (restoreFirst covs id) = map wayId covs.
Proof.
  induction covs as [|c rest IH]; simpl; [reflexivity|].
  destruct (wayId c =? id)%Z; simpl; [reflexivity|]. now rewrite IH.
Qed.

Lemma restoreFirst_unknown (covs : list (SegmentCoverage num)) id :
  ~ In id (map wayId covs) -> restoreFirst covs id = covs.
Proof.
  induction covs as [|c rest IH]; simpl; intro H; [reflexivity|].
  destruct (wayId c =? id)%Z eqn:E.
  - apply Z.eqb_eq in E. exfalso; auto.
  - f_equal. apply IH. auto.
Qed.

Lemma restoreFirst_known (covs : list (SegmentCoverage num)) id :
  In id (map wayId covs) ->
  exists c, In c (restoreFirst covs id) /\ wayId c = id /\ isRestored c.
Proof.
  induction covs as [|c rest IH]; simpl; intro H; [contradiction|].
  destruct (wayId c =? id)%Z eqn:E.
  - apply Z.eqb_eq in E. exists (restored c). split; [now left|]. split; [exact E|].
    unfold isRestored, restored; simpl. repeat split.
    apply Forall_forall. intros b Hb. apply in_map_iff in Hb. now destruct Hb as (? & <- & _).
  - destruct H as [H | H]; [apply Z.eqb_neq in E; contradiction|].
    destruct (IH H) as (c' & Hin & Hw & Hr). exists c'. split; [now right|auto].
Qed.

Lemma restored_isRestored (c : SegmentCoverage num) : isRestored c -> isRestored (restored c).
Proof.
  intros (_ & _ & _ & _). unfold isRestored, restored; simpl. repeat split.
  apply Forall_forall. intros b Hb. apply in_map_iff in Hb. now destruct Hb as (? & <- & _).
Qed.

Lemma restoreFirst_keeps (covs : list (SegmentCoverage num)) id' c :
  In c covs -> isRestored c ->
  exists c', In c' (restoreFirst covs id') /\ wayId c' = wayId c /\ isRestored c'.
Proof.
  induction covs as [|x rest IH]; simpl; intros Hin Hr; [contradiction|].
  destruct (wayId x =? id')%Z eqn:E.
  - destruct Hin as [-> | Hin].
    + exists (restored c). split; [now left|]. split; [reflexivity|].
      now apply restored_isRestored.
    + exists c. split; [now right|auto].
  - destruct Hin as [-> | Hin].
    + exists c. split; [now left|auto].
    + destruct (IH Hin Hr) as (c' & H1 & H2 & H3). exists c'. split; [now right|auto].
Qed.

Lemma fold_restoreFirst_wayIds ids : forall covs : list (SegmentCoverage num),
  map wayId (fold_left restoreFirst ids covs) = map wayId covs.
Proof.
  induction ids as [|k ids IH]; intro covs; simpl; [reflexivity|].
  now rewrite IH, restoreFirst_wayIds.
Qed.

Lemma fold_restoreFirst_keeps ids : forall (covs : list (SegmentCoverage num)) c,
  In c covs -> isRestored c ->
  exists c', In c' (fold_left restoreFirst ids covs) /\ wayId c' = wayId c /\ isRestored c'.
Proof.
  induction ids as [|k ids IH]; intros covs c Hin Hr; simpl.
  - exists c; auto.
  - destruct (restoreFirst_keeps covs k c Hin Hr) as (c1 & H1 & H2 & H3).
    destruct (IH _ c1 H1 H3) as (c2 & G1 & G2 & G3).
    exists c2. split; [assumption|]. split; [congruence|assumption].
Qed.

Lemma fold_restoreFirst_known ids : forall (covs : list (SegmentCoverage num)) id,
  In id ids -> In id (map wayId covs) ->
  exists c, In c (fold_left restoreFirst ids covs) /\ wayId c = id /\ isRestored c.
Proof.
  induction ids as [|k ids IH]; intros covs id Hin Hk; simpl; [contradiction|].
  destruct (Z.eq_dec k id) as [-> | Hne].
  - destruct (restoreFirst_known covs id Hk) as (c & H1 & H2 & H3).
    destruct (fold_restoreFirst_keeps ids _ c H1 H3) as (c' & G1 & G2 & G3).
    exists c'. split; [assumption|]. split; [congruence|assumption].
  - destruct Hin as [? | Hin]; [contradiction|].
    apply IH; [assumption|]. now rewrite restoreFirst_wayIds.
Qed.

(** Ids of no loaded street do not touch the coverages. *)
Lemma fold_restoreFirst_filter (known : Z -> bool) ids :
  forall covs : list (SegmentCoverage num),
  (forall id, In id (map wayId covs) -> known id = true) ->
  fold_left restoreFirst ids covs = fold_left restoreFirst (filter known ids) covs.
Proof.
  induction ids as [|k ids IH]; intros covs Hk; simpl; [reflexivity|].
  destruct (known k) eqn:E; simpl.
  - apply IH. intros id Hid. rewrite restoreFirst_wayIds in Hid. auto.
  - rewrite restoreFirst_unknown; [apply IH; assumption|].
    intro Hin. apply Hk in Hin. congruence.
Qed.

Lemma buildCoverages_wayIds (features : list (Feature num)) : forall idx covs,
  buildCoverages features idx = Some covs -> map wayId covs = map f_id features.
Proof.
  induction features as [|f rest IH]; intros idx covs H; simpl in H.
  - injection H as <-. reflexivity.
  - destruct (sampleLineStringWithT (f_coordinates f) SAMPLE_STEP_METERS); [|discriminate].
    destruct (buildCoverages rest (S idx)) eqn:E; [|discriminate].
    injection H as <-. simpl. f_equal. eapply IH; eauto.
Qed.

Lemma streetsToGeoJSON_ids (streets : list (OverpassWay num)) :
  map f_id (streetsToGeoJSON streets) = map w_id streets.
Proof.
  unfold streetsToGeoJSON. rewrite map_map. reflexivity.
Qed.

Lemma knownWay_In (streets : list (OverpassWay num)) id :
  knownWay streets id = true <-> In id (map w_id streets).
Proof.
  unfold knownWay. rewrite existsb_exists, in_map_iff. split.
  - intros (w & Hw & E). apply Z.eqb_eq in E. eauto.
  - intros (w & E & Hw). exists w. split; [assumption|]. now apply Z.eqb_eq.
Qed.

Lemma set_has_ext (s1 s2 : list Z) (k : Z) :
  (In k s1 <-> In k s2) -> set_has Z.eqb s1 k = set_has Z.eqb s2 k.
Proof.
  intro H. destruct (set_has Z.eqb s1 k) eqn:E1, (set_has Z.eqb s2 k) eqn:E2; auto.
  - apply set_has_In, H, set_has_In in E1. congruence.
  - apply set_has_In, H, set_has_In in E2. congruence.
Qed.

Lemma filter_none {A : Type} (p : A -> bool) (l : list A) :
  (forall x, In x l -> p x = false) -> filter p l = [].
Proof.
  induction l as [|a l IH]; simpl; intro H; [reflexivity|].
  rewrite (H a) by auto. apply IH. auto.
Qed.

(** C6, amended: at session start, the ids of the snapshot that belong to
    no loaded street leave the coverage entries and the explored geometry
    as a snapshot without them would, and every id of a loaded street is
    restored to a validated, fully covered entry; but each id of the
    snapshot, known or not, enters the validated set, and the saved count
    and the explored count are the length of the snapshot. *)
Theorem restore_unknown_way_ids uid (streets : list (OverpassWay num))
    savedIds savedBadges st1 :
  mapLoad uid streets savedIds savedBadges initialEngine = Some st1 ->
  let known := filter (knownWay streets) savedIds in
  (exists st2,
     mapLoad uid streets known savedBadges initialEngine = Some st2 /\
     segmentCoverages st1 = segmentCoverages st2 /\
     exploredData st1 = exploredData st2) /\
  (forall id, In id known ->
     exists c, In c (segmentCoverages st1) /\ wayId c = id /\ isRestored c) /\
  validatedWayIds st1 = fold_left (set_add Z.eqb) savedIds [] /\
  (forall id, In id savedIds -> In id (validatedWayIds st1)) /\
  savedCount st1 = length savedIds /\
  exploredCount st1 = length savedIds.
Proof.
  intros Hl known. unfold mapLoad in *.
  destruct (buildCoverages (streetsToGeoJSON streets) 0) as [covs|] eqn:Hb; [|discriminate].
  injection Hl as <-.
  pose proof (buildCoverages_wayIds _ _ _ Hb) as Hids.
  rewrite streetsToGeoJSON_ids in Hids.
  assert (Hknown : forall id, In id (map wayId covs) -> knownWay streets id = true).
  { intros id Hin. apply knownWay_In. now rewrite <- Hids. }
  repeat split.
  - eexists. split; [reflexivity|]. unfold restoreSession; simpl. split.
    + now apply fold_restoreFirst_filter.
    + assert (Hext : forall f, In f (streetsToGeoJSON streets) ->
                set_has Z.eqb (fold_left (set_add Z.eqb) savedIds []) (f_id f)
                = set_has Z.eqb (fold_left (set_add Z.eqb) known []) (f_id f)).
      { intros f Hf. apply set_has_ext. rewrite !fold_set_add_In. subst known.
        rewrite filter_In.
        assert (Hk : knownWay streets (f_id f) = true).
        { apply knownWay_In. rewrite <- streetsToGeoJSON_ids. now apply in_map. }
        intuition. }
      destruct known as [|k known'] eqn:Ek; destruct savedIds as [|s0 ids]; simpl Nat.ltb;
        cbv iota.
      * reflexivity.
      * apply filter_none. intros f Hf. rewrite (Hext f Hf). reflexivity.
      * discriminate.
      * apply filter_ext_in. exact Hext.
  - intros id Hin. simpl. subst known. apply filter_In in Hin. destruct Hin as [Hin Hk].
    apply fold_restoreFirst_known; [assumption|].
    rewrite Hids. now apply knownWay_In.
  - simpl. intros id Hin. apply fold_set_add_In. now left.
  - simpl. destruct savedIds; reflexivity.
Qed.

End Restore.

(** ** The nearest segment *)

Section Nearest.
Context {num : Type} {N : Num num}.
Local Open Scope num_scope.

Lemma projection_single_vertex (px py : num) (a : Coord num) :
  projectOntoLineString px py [a] = Ok (mkProjection (of_Z 0) (fst a) (snd a) Infinity).
Proof. destruct a; reflexivity. Qed.

Lemma projection_no_vertex (px py : num) :
  projectOntoLineString px py [] = TypeError.
Proof. reflexivity. Qed.

Lemma projection_defined (px py : num) (cs : list (Coord num)) :
  cs <> [] -> exists p, projectOntoLineString px py cs = Ok p.
Proof.
  destruct cs as [|[lon0 lat0] rest]; [congruence|]. intros _.
  unfold projectOntoLineString. eauto.
Qed.

Lemma xltx_Infinity_l (b : xnum num) : xltx Infinity b = false.
Proof. reflexivity. Qed.

(** A street of one vertex never takes the lead. *)
Lemma nearestStep_single_vertex lon lat st i (c : SegmentCoverage num) a :
  coords c = [a] -> nearestStep lon lat st i c = Ok st.
Proof.
  intro H. unfold nearestStep. rewrite H, projection_single_vertex. reflexivity.
Qed.

(** A street of no vertex makes the whole search throw, wherever it
    stands. *)
Lemma nearestLoop_no_vertex lon lat (c : SegmentCoverage num) :
  coords c = [] ->
  forall pre post i st, nearestLoop lon lat (pre ++ c :: post) i st = TypeError.
Proof.
  intros H pre. induction pre as [|x pre IH]; intros post i st; simpl.
  - unfold nearestStep. rewrite H. reflexivity.
  - destruct (nearestStep lon lat st i x); simpl; auto.
Qed.

Lemma findNearestSegment_no_vertex lon lat (c : SegmentCoverage num) pre post :
  coords c = [] -> findNearestSegment lon lat (pre ++ c :: post) = TypeError.
Proof.
  intro H. unfold findNearestSegment.
  replace (length (pre ++ c :: post) =? 0)%nat with false.
  - now rewrite nearestLoop_no_vertex.
  - symmetry. apply Nat.eqb_neq. rewrite length_app. simpl. lia.
Qed.

Section Order.
Context {O : NumOrder N}.

Lemma xltx_irrefl (a : xnum num) : xltx a a = false.
Proof. destruct a; simpl; [apply ltb_irrefl|reflexivity]. Qed.

Lemma xltx_below_Infinity (a b : xnum num) : xltx a b = true -> xltx a Infinity = true.
Proof.
  destruct a as [a|], b as [b|]; simpl; try discriminate; auto.
  apply ltb_below_Infinity.
Qed.

Lemma xltx_trans (a b c : xnum num) :
  xltx a b = true -> xltx b c = true -> xltx a c = true.
Proof.
  destruct a as [a|], b as [b|], c as [c|]; simpl; try discriminate; auto.
  - apply ltb_trans.
  - intros H _. now apply ltb_below_Infinity in H.
Qed.

Lemma xltx_cotrans (a b c : xnum num) :
  xltx a b = true -> xltx c b = false -> xltx a c = true \/ xltx c Infinity = false.
Proof.
  destruct a as [a|], b as [b|], c as [c|]; simpl; try discriminate; auto.
  intros Hab Hcb. destruct (lt_Infinity c) eqn:Hc; [|now right].
  destruct (ltb_cotrans a b c Hab Hc); [now left|congruence].
Qed.

End Order.

Section Minimum.
Context {O : NumOrder N}.

Variables lon lat : num.

Lemma leads_not_below seen st :
  leads lon lat seen st -> forall c, In c seen -> xltx (distanceTo lon lat c) (nBestDist st) = false.
Proof.
  unfold leads. destruct (nBestCov st).
  - intros (_ & _ & H & _). exact H.
  - intros [-> H]. exact H.
Qed.

Lemma leads_step seen st c :
  leads lon lat seen st -> coords c <> [] ->
  exists st', nearestStep lon lat st (length seen) c = Ok st' /\ leads lon lat (seen ++ [c]) st'.
Proof.
  intros L Hc. unfold nearestStep.
  destruct (projection_defined lon lat (coords c) Hc) as [p Hp]. rewrite Hp. simpl.
  assert (Hd : distanceTo lon lat c = p_distance p) by (unfold distanceTo; now rewrite Hp).
  pose proof (leads_not_below seen st L) as Hmin.
  destruct (xltx (p_distance p) (nBestDist st)) eqn:Hlt.
  - (* the new entry takes the lead *)
    eexists. split; [reflexivity|]. unfold leads. simpl. repeat split.
    + exists c, p. rewrite nth_error_app2, Nat.sub_diag by lia. simpl. repeat split; auto.
    + eapply xltx_below_Infinity; eauto.
    + intros c' Hin. apply in_app_iff in Hin. destruct Hin as [Hin | [<- | []]].
      * destruct (xltx (distanceTo lon lat c') (p_distance p)) eqn:E; [|reflexivity].
        rewrite <- (Hmin c' Hin). symmetry. eapply xltx_trans; eauto.
      * rewrite Hd. apply xltx_irrefl.
    + intros j c' Hj Hn. rewrite nth_error_app1 in Hn by assumption.
      apply nth_error_In in Hn.
      eapply xltx_cotrans; eauto.
  - (* the lead is kept *)
    exists st. split; [reflexivity|]. unfold leads in *.
    destruct (nBestCov st) as [k|].
    + destruct L as ((c0 & p0 & H0 & H1) & Hinf & Hall & Hfirst). repeat split.
      * exists c0, p0. split; [|exact H1].
        rewrite nth_error_app1; [assumption|]. apply nth_error_Some. congruence.
      * assumption.
      * intros c' Hin. apply in_app_iff in Hin. destruct Hin as [Hin | [<- | []]]; auto.
        now rewrite Hd.
      * intros j c' Hj Hn.
        assert (k < length seen) by (apply nth_error_Some; congruence).
        rewrite nth_error_app1 in Hn by lia. eauto.
    + destruct L as [Hb Hall]. split; [assumption|].
      intros c' Hin. apply in_app_iff in Hin. destruct Hin as [Hin | [<- | []]]; auto.
      rewrite Hd. now rewrite Hb in Hlt.
Qed.

Lemma leads_loop rest : forall seen st,
  leads lon lat seen st -> (forall c, In c rest -> coords c <> []) ->
  exists st', nearestLoop lon lat rest (length seen) st = Ok st' /\
              leads lon lat (seen ++ rest) st'.
Proof.
  induction rest as [|c rest IH]; intros seen st L Hc; simpl.
  - exists st. rewrite app_nil_r. auto.
  - destruct (leads_step seen st c L) as (st1 & H1 & L1); [apply Hc; now left|].
    rewrite H1. simpl.
    destruct (IH (seen ++ [c]) st1 L1) as (st2 & H2 & L2); [intros; apply Hc; now right|].
    rewrite length_app in H2. simpl in H2. rewrite Nat.add_1_r in H2.
    exists st2. rewrite <- app_assoc in L2. auto.
Qed.

(** C1, amended: over coverages that all have a vertex, the search
    returns none when the list is empty or when no entry has a distance
    below [Infinity] (every street of one vertex is such an entry);
    otherwise it returns the projection of an entry, validated or not,
    that no entry beats, and every earlier entry with a distance below
    [Infinity] is strictly farther: the first of the nearest ones. *)
Theorem nearest_is_first_minimum (coverages : list (SegmentCoverage num)) :
  (forall c, In c coverages -> coords c <> []) ->
  findNearestSegment lon lat [] = Ok None /\
  match findNearestSegment lon lat coverages with
  | Ok None =>
      forall c, In c coverages -> xltx (distanceTo lon lat c) Infinity = false
  | Ok (Some n) =>
      (exists c p,
         nth_error coverages (coverage n) = Some c /\
         projectOntoLineString lon lat (coords c) = Ok p /\
         distance n = p_distance p /\ n_t n = p_t p /\
         snappedLon n = p_lon p /\ snappedLat n = p_lat p) /\
      xltx (distance n) Infinity = true /\
      (forall c, In c coverages -> xltx (distanceTo lon lat c) (distance n) = false) /\
      (forall j c, j < coverage n -> nth_error coverages j = Some c ->
         xltx (distance n) (distanceTo lon lat c) = true \/
         xltx (distanceTo lon lat c) Infinity = false)
  | TypeError => False
  end.
Proof.
  intro Hc. split; [reflexivity|].
  unfold findNearestSegment.
  destruct coverages as [|c0 rest] eqn:E; simpl Nat.eqb; cbv iota; [intros c []|].
  rewrite <- E in *. clear E c0 rest.
  destruct (leads_loop coverages [] (mkNearState Infinity None (of_Z 0) lon lat))
    as (st & Hst & L).
  - unfold leads; simpl. split; [reflexivity|]. intros c [].
  - assumption.
  - simpl in Hst. rewrite Hst. simpl. unfold leads in L. simpl in L.
    destruct (nBestCov st) as [k|]; simpl.
    + exact L.
    + destruct L as [_ L]. exact L.
Qed.

End Minimum.

End Nearest.

(** *** The order of binary64 values *)

Ltac sf_cases :=
  repeat match goal with
  | H : context [(?a ?= ?b)%Z] |- _ => destruct (Z.compare_spec a b); simpl in H
  | |- context [(?a ?= ?b)%Z] => destruct (Z.compare_spec a b); simpl
  | H : context [PosDef.Pos.compare_cont Eq ?a ?b] |- _ =>
      change (PosDef.Pos.compare_cont Eq a b) with (Pos.compare a b) in H;
      destruct (Pos.compare_spec a b); simpl in H
  | |- context [PosDef.Pos.compare_cont Eq ?a ?b] =>
      change (PosDef.Pos.compare_cont Eq a b) with (Pos.compare a b);
      destruct (Pos.compare_spec a b); simpl
  end.

Lemma SFltb_irrefl x : SFltb x x = false.
Proof.
  unfold SFltb, SFcompare. destruct x as [[]|[]| |[] m e]; simpl; auto; sf_cases; auto; lia.
Qed.

Lemma SFltb_trans x y z : SFltb x y = true -> SFltb y z = true -> SFltb x z = true.
Proof.
  unfold SFltb, SFcompare.
  destruct x as [[]|[]| |[] m1 e1], y as [[]|[]| |[] m2 e2], z as [[]|[]| |[] m3 e3];
    simpl; intros H1 H2; try discriminate; try reflexivity;
    sf_cases; subst; try discriminate; try reflexivity; try lia.
Qed.

Lemma SFltb_below_infinity x y :
  SFltb x y = true -> SFltb x (S754_infinity false) = true.
Proof.
  unfold SFltb, SFcompare.
  destruct x as [[]|[]| |[] m1 e1], y as [[]|[]| |[] m2 e2];
    simpl; intros H1; try discriminate; try reflexivity.
Qed.

Lemma SFltb_cotrans x y z :
  SFltb x y = true -> SFltb z (S754_infinity false) = true ->
  SFltb x z = true \/ SFltb z y = true.
Proof.
  unfold SFltb, SFcompare.
  destruct x as [[]|[]| |[] m1 e1], y as [[]|[]| |[] m2 e2], z as [[]|[]| |[] m3 e3];
    simpl; intros H1 H2; try discriminate; auto;
    sf_cases; subst; try discriminate; auto; try lia.
Qed.

#[global] Instance F64_order : NumOrder F64.num.
Proof.
  split; simpl; intros.
  - rewrite FloatAxioms.ltb_spec. apply SFltb_irrefl.
  - rewrite FloatAxioms.ltb_spec in *. eapply SFltb_trans; eauto.
  - rewrite FloatAxioms.ltb_spec in *. change (Prim2SF infinity) with (S754_infinity false).
    eapply SFltb_below_infinity; eauto.
  - rewrite !FloatAxioms.ltb_spec in *. change (Prim2SF infinity) with (S754_infinity false) in *.
    now apply SFltb_cotrans.
Qed.

(** *** The order of the real numbers *)

#[global] Instance Ideal_order : NumOrder Ideal.num.
Proof.
  split; simpl; unfold Ideal.ltb; intros.
  - destruct (Rlt_dec a a); [lra|reflexivity].
  - destruct (Rlt_dec a b), (Rlt_dec b c), (Rlt_dec a c); try discriminate; auto; lra.
  - reflexivity.
  - destruct (Rlt_dec a b), (Rlt_dec a c), (Rlt_dec c b); try discriminate; auto; lra.
Qed.

(** ** The sampler *)

Section Sampler.
Context {num : Type} {N : Num num}.
Local Open Scope num_scope.


Lemma totalOf_snoc (lens : list num) (x : num) : totalOf (lens ++ [x]) = totalOf lens + x.
Proof. unfold totalOf. rewrite fold_left_app. reflexivity. Qed.



End Sampler.

(** ** The threshold test on binary64 values *)

Section Binary64Ratio.
Local Open Scope Z_scope.

Lemma digits2_size (p : positive) : digits2_pos p = Pos.size p.
Proof. induction p; simpl; congruence. Qed.

Lemma digits2_bounds (p : positive) :
  2 ^ (Zpos (digits2_pos p) - 1) <= Zpos p < 2 ^ Zpos (digits2_pos p).
Proof.
  rewrite digits2_size.
  pose proof (Pos.size_gt p) as Hg. pose proof (Pos.size_le p) as Hl.
  apply Pos2Z.pos_lt_pos in Hg. apply Pos2Z.pos_le_pos in Hl.
  rewrite Pos2Z.inj_pow in Hg, Hl. change (Zpos p~0) with (2 * Zpos p) in Hl.
  split; [|exact Hg].
  assert (E : 2 ^ Zpos (Pos.size p) = 2 * 2 ^ (Zpos (Pos.size p) - 1)).
  { rewrite <- Z.pow_succ_r by lia. f_equal. lia. }
  lia.
Qed.

Lemma digits2_unique (p : positive) (d : Z) :
  2 ^ (d - 1) <= Zpos p < 2 ^ d -> Zpos (digits2_pos p) = d.
Proof.
  intros [Hl Hu]. destruct (digits2_bounds p) as [Bl Bu].
  assert (0 < d).
  { destruct (Z_lt_le_dec 0 d) as [|Hd]; [assumption|].
    assert (2 ^ d <= 1); [|lia].
    destruct (Z.eq_dec d 0) as [->|]; [simpl; lia|].
    rewrite Z.pow_neg_r by lia. lia. }
  assert (Zpos (digits2_pos p) - 1 < d).
  { apply (Z.pow_lt_mono_r_iff 2); lia. }
  assert (d - 1 < Zpos (digits2_pos p)).
  { apply (Z.pow_lt_mono_r_iff 2); lia. }
  lia.
Qed.

(** Rounding a mantissa of 53 digits that is exact leaves it as it is. *)
Lemma round_exact_53 (a : positive) (e : Z) :
  Zpos (digits2_pos a) = 53 -> -1074 <= e <= 971 ->
  binary_round_aux prec emax false (Zpos a) e loc_Exact = S754_finite false a e.
Proof.
  intros Hd He. unfold binary_round_aux, shr_fexp. cbn [Zdigits2].
  rewrite Hd. unfold fexp, emin, prec, emax.
  replace (Z.max (53 + e - 53) (3 - 1024 - 53) - e) with 0 by lia.
  cbn [shr shr_record_of_loc loc_of_shr_record shr_m round_nearest_even Zdigits2].
  rewrite Hd.
  replace (Z.max (53 + e - 53) (3 - 1024 - 53) - e) with 0 by lia.
  cbn [shr shr_record_of_loc shr_m].
  replace (e <=? 1024 - 53) with true by (symmetry; apply Z.leb_le; lia).
  reflexivity.
Qed.

(** An integer below [2^53] is kept as it is: its mantissa is the
    integer shifted to 53 digits. *)
Lemma of_int_normal (z : Z) :
  1 <= z < 2 ^ 53 ->
  exists a : positive,
    Prim2SF (F64.of_int z) = S754_finite false a (Zdigits2 z - 53) /\
    Zpos a = z * 2 ^ (53 - Zdigits2 z) /\ Zpos (digits2_pos a) = 53.
Proof.
  intros Hz. destruct z as [|p|p]; try lia.
  unfold F64.of_int. rewrite of_uint63_spec, of_Z_spec.
  rewrite Z.mod_small by (change wB with (2 ^ 63); lia).
  cbn [binary_normalize Zdigits2]. unfold binary_round.
  destruct (digits2_bounds p) as [Bl Bu].
  set (d := Zpos (digits2_pos p)) in *.
  assert (Hd : 1 <= d <= 53).
  { split; [subst d; lia|].
    destruct (Z_le_gt_dec d 53) as [|Hgt]; [assumption|].
    assert (2 ^ 53 <= 2 ^ (d - 1)) by (apply Z.pow_le_mono_r; lia). lia. }
  unfold fexp, emin, prec, emax.
  replace (Z.max (d + 0 - 53) (3 - 1024 - 53)) with (d - 53) by lia.
  unfold shl_align.
  destruct (d - 53 - 0) as [|s|s] eqn:Es; try lia.
  - (* 53 digits already *)
    assert (d = 53) by lia.
    exists p. rewrite round_exact_53 by (fold d; lia).
    replace (d - 53) with 0 by lia. split; [reflexivity|].
    split; [|fold d; lia]. replace (53 - d) with 0 by lia. lia.
  - exists (Pos.iter xO p s).
    assert (Hm : Zpos (Pos.iter xO p s) = Zpos p * 2 ^ (53 - d)).
    { change (Pos.iter xO p s) with (shift_pos s p). rewrite shift_pos_correct.
      change (Z.pow_pos 2 s) with (2 ^ Zpos s). replace (53 - d) with (Zpos s) by lia. lia. }
    assert (Hdig : Zpos (digits2_pos (Pos.iter xO p s)) = 53).
    { apply digits2_unique. rewrite Hm.
      assert (E1 : 2 ^ (53 - 1) = 2 ^ (d - 1) * 2 ^ (53 - d))
        by (rewrite <- Z.pow_add_r by lia; f_equal; lia).
      assert (E2 : 2 ^ 53 = 2 ^ d * 2 ^ (53 - d))
        by (rewrite <- Z.pow_add_r by lia; f_equal; lia).
      rewrite E1, E2.
      assert (0 < 2 ^ (53 - d)) by (apply Z.pow_pos_nonneg; lia). nia. }
    rewrite round_exact_53 by (try exact Hdig; lia).
    split; [reflexivity|]. split; [exact Hm|exact Hdig].
Qed.

(** The division of two mantissas of 53 digits: the quotient of the first,
    shifted by 53 digits, by the second, and where the remainder lies. *)
Lemma div_normal (a b : positive) (ea eb : Z) :
  Zpos (digits2_pos a) = 53 -> Zpos (digits2_pos b) = 53 ->
  -1000 <= ea - eb <= 1000 ->
  SFdiv prec emax (S754_finite false a ea) (S754_finite false b eb)
  = binary_round_aux prec emax false (Zpos a * 2 ^ 53 / Zpos b) (ea - eb - 53)
      (new_location (Zpos b) (Zpos a * 2 ^ 53 mod Zpos b)).
Proof.
  intros Ha Hb He. unfold SFdiv, SFdiv_core_binary. cbn [Zdigits2 xorb].
  rewrite Ha, Hb. unfold fexp, emin, prec, emax.
  replace (Z.min (Z.max (53 + ea - (53 + eb) - 53) (3 - 1024 - 53)) (ea - eb))
    with (ea - eb - 53) by lia.
  replace (ea - eb - (ea - eb - 53)) with 53 by lia.
  rewrite Z.shiftl_mul_pow2 by lia.
  unfold Z.div, Z.modulo.
  destruct (Z.div_eucl (Zpos a * 2 ^ 53) (Zpos b)) as [q r]. reflexivity.
Qed.

Lemma new_location_spec (b r : Z) :
  0 < b -> 0 <= r < b ->
  new_location b r = if r =? 0 then loc_Exact else loc_Inexact (2 * r ?= b).
Proof.
  intros Hb Hr. unfold new_location, new_location_even, new_location_odd.
  destruct (Z.even b) eqn:Ev; [reflexivity|].
  destruct (r =? 0); [reflexivity|]. f_equal.
  assert (Hodd : Z.odd b = true) by (rewrite <- Z.negb_even, Ev; reflexivity).
  apply Z.odd_spec in Hodd. destruct Hodd as [c Hc].
  destruct (Z.compare_spec (2 * r + 1) b), (Z.compare_spec (2 * r) b); try reflexivity; lia.
Qed.

(** The mantissa rounded to nearest, ties to even: the mantissa or the
    next one, the next one only from the middle on. *)
Lemma round_nearest_even_spec (m b r : Z) :
  0 < b -> 0 <= r < b ->
  let l := if r =? 0 then loc_Exact else loc_Inexact (2 * r ?= b) in
  (round_nearest_even m l = m /\ 2 * r <= b) \/
  (round_nearest_even m l = m + 1 /\ b <= 2 * r).
Proof.
  intros Hb Hr l. subst l.
  destruct (Z.eqb_spec r 0) as [->|Hne]; [left; cbn [round_nearest_even]; lia|].
  destruct (Z.compare_spec (2 * r) b); cbn [round_nearest_even].
  - destruct (Z.even m); [left|right]; lia.
  - left; lia.
  - right; lia.
Qed.

Lemma loc_of_shr_record_of_loc (m : Z) (l : location) :
  loc_of_shr_record (shr_record_of_loc m l) = l /\ shr_m (shr_record_of_loc m l) = m.
Proof. destruct l as [|[]]; split; reflexivity. Qed.

(** Rounding a quotient of 53 digits. *)
Lemma round_53 (q : positive) (e : Z) (l : location) :
  Zpos (digits2_pos q) = 53 -> -1074 <= e <= 970 ->
  let m := round_nearest_even (Zpos q) l in
  (Zpos q <= m <= Zpos q + 1) ->
  binary_round_aux prec emax false (Zpos q) e l
  = if m <? 2 ^ 53 then S754_finite false (Z.to_pos m) e
    else S754_finite false (2 ^ 52)%positive (e + 1).
Proof.
  intros Hd He m Hm. unfold binary_round_aux, shr_fexp. cbn [Zdigits2].
  rewrite Hd. unfold fexp, emin, prec, emax.
  replace (Z.max (53 + e - 53) (3 - 1024 - 53) - e) with 0 by lia.
  cbn [shr]. destruct (loc_of_shr_record_of_loc (Zpos q) l) as [-> ->]. fold m.
  destruct (digits2_bounds q) as [Bl Bu]. rewrite Hd in Bl, Bu.
  destruct (Z.ltb_spec m (2 ^ 53)) as [Hlt | Hge].
  - assert (Hp : m = Zpos (Z.to_pos m)) by (rewrite Z2Pos.id; lia).
    assert (Hdm : Zdigits2 m = 53).
    { rewrite Hp. cbn [Zdigits2]. apply digits2_unique. rewrite <- Hp. lia. }
    rewrite Hdm.
    replace (Z.max (53 + e - 53) (3 - 1024 - 53) - e) with 0 by lia.
    cbn [shr shr_record_of_loc shr_m]. rewrite Hp at 1.
    replace (e <=? 1024 - 53) with true by (symmetry; apply Z.leb_le; lia).
    reflexivity.
  - assert (Hm53 : m = 2 ^ 53) by lia. rewrite Hm53.
    change (Zdigits2 (2 ^ 53)) with 54.
    replace (Z.max (54 + e - 53) (3 - 1024 - 53) - e) with 1 by lia.
    cbn [shr shr_record_of_loc iter_pos]. change (2 ^ 53) with (Zpos (xO (2 ^ 52)%positive)).
    cbn [shr_1 shr_m].
    replace (e + 1 <=? 1024 - 53) with true by (symmetry; apply Z.leb_le; lia).
    reflexivity.
Qed.

(** The second step of the rounding, on a rounded mantissa of 53 digits
    or on [2^53]. *)
Lemma round_finish (m e : Z) :
  2 ^ 52 <= m <= 2 ^ 53 -> -1074 <= e <= 970 ->
  (let '(mrs, e') := shr_fexp prec emax m e loc_Exact in
   match shr_m mrs with
   | Z0 => S754_zero false
   | Zpos m' => if e' <=? emax - prec then S754_finite false m' e' else S754_infinity false
   | Zneg _ => S754_nan
   end)
  = if m <? 2 ^ 53 then S754_finite false (Z.to_pos m) e
    else S754_finite false (2 ^ 52)%positive (e + 1).
Proof.
  intros Hm He. unfold shr_fexp, fexp, emin, prec, emax.
  destruct (Z.ltb_spec m (2 ^ 53)) as [Hlt | Hge].
  - assert (Hp : m = Zpos (Z.to_pos m)) by (rewrite Z2Pos.id; lia).
    assert (Hdm : Zdigits2 m = 53).
    { rewrite Hp. cbn [Zdigits2]. apply digits2_unique. rewrite <- Hp. lia. }
    rewrite Hdm.
    replace (Z.max (53 + e - 53) (3 - 1024 - 53) - e) with 0 by lia.
    cbn [shr shr_record_of_loc shr_m]. rewrite Hp at 1.
    replace (e <=? 1024 - 53) with true by (symmetry; apply Z.leb_le; lia).
    reflexivity.
  - assert (Hm53 : m = 2 ^ 53) by lia. rewrite Hm53.
    change (Zdigits2 (2 ^ 53)) with 54.
    replace (Z.max (54 + e - 53) (3 - 1024 - 53) - e) with 1 by lia.
    cbn [shr shr_record_of_loc iter_pos]. change (2 ^ 53) with (Zpos (xO (2 ^ 52)%positive)).
    cbn [shr_1 shr_m].
    replace (e + 1 <=? 1024 - 53) with true by (symmetry; apply Z.leb_le; lia).
    reflexivity.
Qed.

(** Rounding a quotient of 54 digits: the last digit is shifted out, it
    and the remainder say where the quotient lies. *)
Lemma round_54 (q : positive) (e : Z) (l : location) :
  Zpos (digits2_pos q) = 54 -> -1074 <= e <= 969 ->
  let m0 := Zpos q / 2 in
  let l' := loc_of_shr_record
              (Build_shr_record m0 (Z.odd (Zpos q))
                 match l with loc_Exact => false | loc_Inexact _ => true end) in
  let m := round_nearest_even m0 l' in
  m0 <= m <= m0 + 1 ->
  binary_round_aux prec emax false (Zpos q) e l
  = if m <? 2 ^ 53 then S754_finite false (Z.to_pos m) (e + 1)
    else S754_finite false (2 ^ 52)%positive (e + 2).
Proof.
  intros Hd He m0 l' m Hm.
  destruct (digits2_bounds q) as [Bl Bu]. rewrite Hd in Bl, Bu.
  assert (Hm0 : 2 ^ 52 <= m0 < 2 ^ 53).
  { subst m0. split.
    - apply Z.div_le_lower_bound; [lia|]. change (2 ^ (54 - 1)) with (2 * 2 ^ 52) in Bl. lia.
    - apply Z.div_lt_upper_bound; [lia|]. change (2 ^ 54) with (2 * 2 ^ 53) in Bu. lia. }
  pose proof (round_finish m (e + 1) ltac:(lia) ltac:(lia)) as F.
  replace (e + 1 + 1) with (e + 2) in F by lia. rewrite <- F. clear F.
  unfold binary_round_aux. unfold shr_fexp at 1. cbn [Zdigits2]. rewrite Hd.
  unfold fexp at 1, emin, prec, emax.
  replace (Z.max (54 + e - 53) (3 - 1024 - 53) - e) with 1 by lia.
  cbn [shr SpecFloat.iter_pos].
  assert (E : shr_1 (shr_record_of_loc (Zpos q) l)
              = Build_shr_record m0 (Z.odd (Zpos q))
                  match l with loc_Exact => false | loc_Inexact _ => true end).
  { subst m0. destruct q as [p|p|].
    - replace (Zpos p~1 / 2) with (Zpos p) by (apply Z.div_unique with 1; lia).
      destruct l as [|[]]; reflexivity.
    - replace (Zpos p~0 / 2) with (Zpos p) by (apply Z.div_unique with 0; lia).
      destruct l as [|[]]; reflexivity.
    - simpl in Hd. discriminate. }
  rewrite E. fold l'. cbn [shr_m]. fold m. reflexivity.
Qed.

Lemma ltb_threshold (M : positive) (E : Z) :
  SFltb (S754_finite false M E) (S754_finite false 7205759403792794 (-53))
  = (E <? -53) || ((E =? -53) && (Zpos M <? 7205759403792794)).
Proof.
  unfold SFltb, SFcompare.
  destruct (Z.compare E (-53)) eqn:Hc.
  - apply Z.compare_eq in Hc. subst E. rewrite Z.ltb_irrefl, Z.eqb_refl.
    cbn [orb andb]. destruct (Pos.compare_cont Eq M 7205759403792794) eqn:Hm.
    + pose proof (proj1 (Pos.compare_eq_iff M 7205759403792794) Hm) as Heq. clear Hm.
      symmetry. apply Z.ltb_ge. rewrite Heq. apply Z.le_refl.
    + pose proof (proj1 (Pos.compare_lt_iff M 7205759403792794) Hm) as Hlt. clear Hm.
      symmetry. apply Z.ltb_lt. apply Pos2Z.pos_lt_pos. exact Hlt.
    + pose proof (proj1 (Pos.compare_gt_iff M 7205759403792794) Hm) as Hgt. clear Hm.
      symmetry. apply Z.ltb_ge. apply Pos2Z.pos_le_pos. apply Pos.lt_le_incl. exact Hgt.
  - rewrite Z.compare_lt_iff in Hc.
    replace (E <? -53) with true by (symmetry; apply Z.ltb_lt; exact Hc). reflexivity.
  - rewrite Z.compare_gt_iff in Hc.
    replace (E <? -53) with false by (symmetry; apply Z.ltb_ge; lia).
    replace (E =? -53) with false by (symmetry; apply Z.eqb_neq; lia). reflexivity.
Qed.

(** The rounded quotient against the mantissa of the threshold, when the
    quotient has 53 digits. *)
Lemma quotient_53 (a b q r : Z) :
  2 ^ 52 <= a -> a < b -> b < 2 ^ 53 ->
  a * 2 ^ 53 = b * q + r -> 0 <= r < b ->
  let m := round_nearest_even q (if r =? 0 then loc_Exact else loc_Inexact (2 * r ?= b)) in
  q <= m <= q + 1 /\ (m <? 7205759403792794) = (5 * a <? 4 * b).
Proof.
  intros Ha Hab Hb Hq Hr m.
  destruct (round_nearest_even_spec q b r ltac:(lia) Hr) as [[Em Hh] | [Em Hh]];
    fold m in Em; (split; [lia|]);
    destruct (Z.ltb_spec m 7205759403792794) as [Hm | Hm];
    destruct (Z.ltb_spec (5 * a) (4 * b)) as [Hk | Hk]; try reflexivity; exfalso.
  - assert (b * q <= b * 7205759403792793) by (apply Z.mul_le_mono_nonneg_l; lia). lia.
  - assert (b * 7205759403792794 <= b * q) by (apply Z.mul_le_mono_nonneg_l; lia). lia.
  - assert (b * q <= b * 7205759403792792) by (apply Z.mul_le_mono_nonneg_l; lia). lia.
  - assert (b * 7205759403792793 <= b * q) by (apply Z.mul_le_mono_nonneg_l; lia). lia.
Qed.

(** The same when the quotient has 54 digits and loses its last one. *)
Lemma quotient_54 (a b q r : Z) :
  2 ^ 52 <= b -> b <= a -> a < 2 ^ 53 ->
  a * 2 ^ 53 = b * q + r -> 0 <= r < b ->
  let m0 := q / 2 in
  let l := if r =? 0 then loc_Exact else loc_Inexact (2 * r ?= b) in
  let l' := loc_of_shr_record
              (Build_shr_record m0 (Z.odd q)
                 match l with loc_Exact => false | loc_Inexact _ => true end) in
  let m := round_nearest_even m0 l' in
  m0 <= m <= m0 + 1 /\ (m <? 7205759403792794) = (5 * a <? 8 * b).
Proof.
  intros Hb Hab Ha Hq Hr m0 l l' m.
  assert (Hdiv : q = 2 * m0 + (if Z.odd q then 1 else 0)).
  { subst m0. rewrite <- Zmod_odd. apply Z.div_mod. lia. }
  assert (Hm : (m = m0 /\ (Z.odd q = false \/ r = 0)) \/
               (m = m0 + 1 /\ Z.odd q = true)).
  { subst m l' l. destruct (Z.odd q); destruct (Z.eqb_spec r 0);
      cbn [loc_of_shr_record round_nearest_even]; try (left; split; [reflexivity|auto]; fail).
    - destruct (Z.even m0); [left|right]; auto.
    - right; auto. }
  assert (Hup : m = m0 -> Z.odd q = true -> r <> 0 -> False).
  { intros E Ho Hne. subst m l' l. rewrite Ho in E.
    destruct (Z.eqb_spec r 0); [contradiction|].
    cbn [loc_of_shr_record round_nearest_even] in E. lia. }
  split; [lia|].
  destruct (Z.ltb_spec m 7205759403792794) as [Hlt | Hge];
    destruct (Z.ltb_spec (5 * a) (8 * b)) as [Hk | Hk]; try reflexivity; exfalso.
  - (* the quotient is below the threshold, the ratio is not *)
    destruct (Z.odd q) eqn:Ho.
    + destruct Hm as [[Em [Hf | Hr0]] | [Em _]]; try discriminate.
      * assert (b * m0 <= b * 7205759403792793) by (apply Z.mul_le_mono_nonneg_l; lia).
        assert (b * q = 2 * (b * m0) + b) by (rewrite Hdiv at 1; ring). lia.
      * assert (b * m0 <= b * 7205759403792792) by (apply Z.mul_le_mono_nonneg_l; lia).
        assert (b * q = 2 * (b * m0) + b) by (rewrite Hdiv at 1; ring). lia.
    + destruct Hm as [[Em _] | [_ Hf]]; try discriminate.
      assert (b * m0 <= b * 7205759403792793) by (apply Z.mul_le_mono_nonneg_l; lia).
      assert (b * q = 2 * (b * m0)) by (rewrite Hdiv at 1; ring). lia.
  - (* the ratio is below the threshold, the quotient is not *)
    destruct (Z.odd q) eqn:Ho.
    + assert (b * 7205759403792793 <= b * m0) by (apply Z.mul_le_mono_nonneg_l; lia).
      assert (b * q = 2 * (b * m0) + b) by (rewrite Hdiv at 1; ring). lia.
    + destruct Hm as [[Em _] | [_ Hf]]; try discriminate.
      assert (b * 7205759403792794 <= b * m0) by (apply Z.mul_le_mono_nonneg_l; lia).
      assert (b * q = 2 * (b * m0)) by (rewrite Hdiv at 1; ring). lia.
Qed.

Lemma threshold_binary64 :
  Prim2SF (@VALIDATION_THRESHOLD float F64.num) = S754_finite false 7205759403792794 (-53).
Proof. vm_compute. reflexivity. Qed.

(** The test of step 5 on binary64 values is the test on the integers:
    the quotient of two integers below [2^53], rounded to nearest, is
    below the rounded [0.80] exactly when [k / n < 4 / 5]. *)
Lemma ratio_test_binary64 (k n : Z) :
  0 <= k <= n -> 1 <= n < 2 ^ 53 ->
  PrimFloat.ltb (PrimFloat.div (F64.of_int k) (F64.of_int n)) (@VALIDATION_THRESHOLD float F64.num)
  = (5 * k <? 4 * n).
Proof.
  intros Hk Hn.
  rewrite FloatAxioms.ltb_spec, FloatAxioms.div_spec, threshold_binary64.
  destruct (of_int_normal n Hn) as (b & Eb & Hb & Db). rewrite Eb.
  destruct (Z.eq_dec k 0) as [-> | Hk0].
  { change (Prim2SF (F64.of_int 0)) with (S754_zero false).
    replace (5 * 0 <? 4 * n) with true by (symmetry; apply Z.ltb_lt; lia). reflexivity. }
  destruct (of_int_normal k ltac:(lia)) as (a & Ea & Ha & Da). rewrite Ea.
  destruct n as [|pn|pn]; try lia. destruct k as [|pk|pk]; try lia.
  cbn [Zdigits2] in *.
  destruct (digits2_bounds pn) as [Bnl Bnu]. destruct (digits2_bounds pk) as [Bkl Bku].
  set (dn := Zpos (digits2_pos pn)) in *. set (dk := Zpos (digits2_pos pk)) in *.
  assert (Hdn : 1 <= dn <= 53).
  { split; [subst dn; lia|]. destruct (Z_le_gt_dec dn 53) as [|Hgt]; [assumption|].
    assert (2 ^ 53 <= 2 ^ (dn - 1)) by (apply Z.pow_le_mono_r; lia). lia. }
  assert (Hdk : 1 <= dk <= dn).
  { split; [subst dk; lia|].
    assert (dk - 1 < dn); [|lia]. apply (Z.pow_lt_mono_r_iff 2); lia. }
  destruct (digits2_bounds a) as [Bal Bau]. destruct (digits2_bounds b) as [Bbl Bbu].
  rewrite Da in Bal, Bau. rewrite Db in Bbl, Bbu.
  change (2 ^ (53 - 1)) with (2 ^ 52) in Bal, Bbl.
  rewrite div_normal by (try assumption; lia).
  pose proof (Z.div_mod (Zpos a * 2 ^ 53) (Zpos b) ltac:(lia)) as Hdm.
  pose proof (Z.mod_pos_bound (Zpos a * 2 ^ 53) (Zpos b) ltac:(lia)) as Hr.
  set (q := Zpos a * 2 ^ 53 / Zpos b) in *. set (r := Zpos a * 2 ^ 53 mod Zpos b) in *.
  rewrite new_location_spec by lia.
  set (P := 2 ^ (53 - dn)) in *.
  assert (HP : 0 < P) by (apply Z.pow_pos_nonneg; lia).
  set (D := 2 ^ (dn - dk)).
  assert (HD : 1 <= D) by (subst D; change 1 with (2 ^ 0); apply Z.pow_le_mono_r; lia).
  assert (Ha' : Zpos a = Zpos pk * D * P).
  { rewrite Ha. subst D P. rewrite <- Z.mul_assoc, <- Z.pow_add_r by lia. do 2 f_equal. lia. }
  assert (Hlt : forall u v : Z, (u * Zpos a < v * Zpos b) <-> (u * (Zpos pk * D) < v * Zpos pn)).
  { intros u v. rewrite Ha', Hb, !Z.mul_assoc. symmetry. apply Z.mul_lt_mono_pos_r. exact HP. }
  assert (HD2 : dn - dk = 1 -> D = 2) by (intro E; subst D; rewrite E; reflexivity).
  assert (HD4 : 2 <= dn - dk -> 4 <= D).
  { intro E. subst D. change 4 with (2 ^ 2). apply Z.pow_le_mono_r; lia. }
  assert (HD1 : dn - dk = 0 -> D = 1) by (intro E; subst D; rewrite E; reflexivity).
  replace (dk - 53 - (dn - 53) - 53) with (dk - dn - 53) by lia.
  destruct (Z_lt_le_dec (Zpos a) (Zpos b)) as [Hab | Hab].
  - (* a quotient of 53 digits *)
    assert (Hq : 2 ^ 52 <= q < 2 ^ 53).
    { split.
      - destruct (Z_le_gt_dec (2 ^ 52) q) as [|Hgt]; [assumption|].
        assert (Zpos b * (q + 1) <= Zpos b * 2 ^ 52) by (apply Z.mul_le_mono_nonneg_l; lia).
        lia.
      - destruct (Z_lt_le_dec q (2 ^ 53)) as [|Hge]; [assumption|].
        assert (Zpos b * 2 ^ 53 <= Zpos b * q) by (apply Z.mul_le_mono_nonneg_l; lia).
        lia. }
    destruct (quotient_53 (Zpos a) (Zpos b) q r ltac:(lia) Hab ltac:(lia) Hdm Hr) as [Hm Ht].
    cbv zeta in Hm, Ht.
    destruct q as [|qp|qp]; try lia.
    assert (Dq : Zpos (digits2_pos qp) = 53) by (apply digits2_unique; lia).
    rewrite (round_53 qp (dk - dn - 53) _ Dq ltac:(lia) Hm).
    set (m := round_nearest_even (Zpos qp)
                (if r =? 0 then loc_Exact else loc_Inexact (2 * r ?= Zpos b))) in *.
    assert (H1 : (1 * Zpos a < 1 * Zpos b) <-> _) by apply Hlt.
    assert (H5 : (5 * Zpos a < 4 * Zpos b) <-> _) by apply Hlt.
    destruct (Z.ltb_spec m (2 ^ 53)) as [Hm53 | Hm53]; rewrite ltb_threshold.
    + rewrite Z2Pos.id by lia.
      destruct (Z.eq_dec (dn - dk) 0) as [E0 | E0].
      * replace (dk - dn - 53) with (-53) by lia. cbn [Z.ltb Z.eqb Z.compare orb andb Pos.eqb].
        rewrite Ht. rewrite (HD1 E0) in H5.
        destruct (Z.ltb_spec (5 * Zpos a) (4 * Zpos b)), (Z.ltb_spec (5 * Zpos pk) (4 * Zpos pn));
          try reflexivity; lia.
      * replace (dk - dn - 53 <? -53) with true by (symmetry; apply Z.ltb_lt; lia).
        cbn [orb]. symmetry. apply Z.ltb_lt.
        assert (2 <= D).
        { destruct (Z.eq_dec (dn - dk) 1) as [E1 | E1]; [rewrite (HD2 E1); lia|].
          assert (4 <= D) by (apply HD4; lia). lia. }
        nia.
    + destruct (Z.eq_dec (dn - dk) 0) as [E0 | E0].
      * replace (dk - dn - 53 + 1) with (-52) by lia. cbn [Z.ltb Z.eqb Z.compare orb andb].
        replace (m <? 7205759403792794) with false in Ht by (symmetry; apply Z.ltb_ge; lia).
        rewrite (HD1 E0) in H5.
        destruct (Z.ltb_spec (5 * Zpos a) (4 * Zpos b)), (Z.ltb_spec (5 * Zpos pk) (4 * Zpos pn));
          try reflexivity; try discriminate; lia.
      * assert (Hc : (Zpos (2 ^ 52) <? 7205759403792794) = true) by reflexivity.
        rewrite Hc, andb_true_r.
        replace ((dk - dn - 53 + 1 <? -53) || (dk - dn - 53 + 1 =? -53)) with true.
        2:{ symmetry. apply orb_true_iff.
            destruct (Z.eq_dec (dn - dk) 1); [right; apply Z.eqb_eq|left; apply Z.ltb_lt]; lia. }
        symmetry. apply Z.ltb_lt.
        assert (2 <= D).
        { destruct (Z.eq_dec (dn - dk) 1) as [E1 | E1]; [rewrite (HD2 E1); lia|].
          assert (4 <= D) by (apply HD4; lia). lia. }
        nia.
  - (* a quotient of 54 digits *)
    assert (Hq : 2 ^ 53 <= q < 2 ^ 54).
    { split.
      - destruct (Z_le_gt_dec (2 ^ 53) q) as [|Hgt]; [assumption|].
        assert (Zpos b * (q + 1) <= Zpos b * 2 ^ 53) by (apply Z.mul_le_mono_nonneg_l; lia).
        lia.
      - destruct (Z_lt_le_dec q (2 ^ 54)) as [|Hge]; [assumption|].
        assert (Zpos b * 2 ^ 54 <= Zpos b * q) by (apply Z.mul_le_mono_nonneg_l; lia).
        lia. }
    destruct (quotient_54 (Zpos a) (Zpos b) q r ltac:(lia) Hab ltac:(lia) Hdm Hr) as [Hm Ht].
    cbv zeta in Hm, Ht.
    destruct q as [|qp|qp]; try lia.
    assert (Dq : Zpos (digits2_pos qp) = 54) by (apply digits2_unique; lia).
    rewrite (round_54 qp (dk - dn - 53) _ Dq ltac:(lia) Hm).
    set (m := round_nearest_even (Zpos qp / 2) _) in *.
    assert (Hm0 : 2 ^ 52 <= Zpos qp / 2).
    { apply Z.div_le_lower_bound; [lia|]. change (2 * 2 ^ 52) with (2 ^ 53). lia. }
    assert (H1 : (1 * Zpos b <= 1 * Zpos a) <-> (1 * Zpos pn <= 1 * (Zpos pk * D))).
    { pose proof (Hlt 1 1). lia. }
    assert (H2 : (1 * Zpos a < 2 * Zpos b) <-> _) by apply Hlt.
    assert (H8 : (5 * Zpos a < 8 * Zpos b) <-> _) by apply Hlt.
    assert (Ha2 : Zpos a < 2 * Zpos b) by lia.
    destruct (Z.ltb_spec m (2 ^ 53)) as [Hm53 | Hm53]; rewrite ltb_threshold.
    + rewrite Z2Pos.id by lia.
      destruct (Z.eq_dec (dn - dk) 0) as [E0 | E0]; [|destruct (Z.eq_dec (dn - dk) 1) as [E1 | E1]].
      * replace (dk - dn - 53 + 1) with (-52) by lia. cbn [Z.ltb Z.eqb Z.compare orb andb].
        symmetry. apply Z.ltb_ge. rewrite (HD1 E0) in H1. lia.
      * replace (dk - dn - 53 + 1) with (-53) by lia. cbn [Z.ltb Z.eqb Z.compare orb andb Pos.eqb].
        rewrite Ht. rewrite (HD2 E1) in H8.
        destruct (Z.ltb_spec (5 * Zpos a) (8 * Zpos b)), (Z.ltb_spec (5 * Zpos pk) (4 * Zpos pn));
          try reflexivity; lia.
      * replace (dk - dn - 53 + 1 <? -53) with true by (symmetry; apply Z.ltb_lt; lia).
        cbn [orb]. symmetry. apply Z.ltb_lt.
        assert (4 <= D) by (apply HD4; lia). nia.
    + destruct (Z.eq_dec (dn - dk) 0) as [E0 | E0]; [|destruct (Z.eq_dec (dn - dk) 1) as [E1 | E1]].
      * replace (dk - dn - 53 + 2 <? -53) with false by (symmetry; apply Z.ltb_ge; lia).
        replace (dk - dn - 53 + 2 =? -53) with false by (symmetry; apply Z.eqb_neq; lia).
        cbn [orb andb]. symmetry. apply Z.ltb_ge. rewrite (HD1 E0) in H1. lia.
      * replace (dk - dn - 53 + 2 <? -53) with false by (symmetry; apply Z.ltb_ge; lia).
        replace (dk - dn - 53 + 2 =? -53) with false by (symmetry; apply Z.eqb_neq; lia).
        cbn [orb andb].
        replace (m <? 7205759403792794) with false in Ht by (symmetry; apply Z.ltb_ge; lia).
        rewrite (HD2 E1) in H8.
        destruct (Z.ltb_spec (5 * Zpos a) (8 * Zpos b)), (Z.ltb_spec (5 * Zpos pk) (4 * Zpos pn));
          try reflexivity; try discriminate; lia.
      * assert (Hc : (Zpos (2 ^ 52) <? 7205759403792794) = true) by reflexivity.
        rewrite Hc, andb_true_r.
        replace ((dk - dn - 53 + 2 <? -53) || (dk - dn - 53 + 2 =? -53)) with true.
        2:{ symmetry. apply orb_true_iff.
            destruct (Z.eq_dec (dn - dk) 2); [right; apply Z.eqb_eq|left; apply Z.ltb_lt]; lia. }
        symmetry. apply Z.ltb_lt.
        assert (4 <= D) by (apply HD4; lia). nia.
Qed.

End Binary64Ratio.

(** ** The counting loop on binary64 values *)

Section Binary64Count.
Local Open Scope Z_scope.

Lemma finite_valid (x : float) (s : bool) (m : positive) (e : Z) :
  Prim2SF x = S754_finite s m e ->
  Zpos (digits2_pos m) <= 53 /\ (0 <= e -> Zpos (digits2_pos m) = 53 /\ e <= 971).
Proof.
  intro E. pose proof (Prim2SF_valid x) as V. rewrite E in V.
  cbn [SpecFloat.valid_binary] in V. unfold bounded, canonical_mantissa in V.
  apply andb_prop in V. destruct V as [V1 V2].
  apply Z.eqb_eq in V1. apply Z.leb_le in V2.
  unfold fexp, emin, prec, emax in *. lia.
Qed.

Lemma ceil_shape (x : float) : ceilShape (F64.ceil x).
Proof.
  unfold F64.ceil. destruct (Prim2SF x) as [s|s| |s m e] eqn:E.
  - apply cs_zero. destruct s; [right|left]; apply Prim2SF_inj; rewrite E; reflexivity.
  - destruct s; [apply cs_ninf|apply cs_pinf]; apply Prim2SF_inj; rewrite E; reflexivity.
  - apply cs_nan. apply Prim2SF_inj. rewrite E. reflexivity.
  - destruct (finite_valid x s m e E) as [Hd Hbig].
    destruct (digits2_bounds m) as [_ Hm].
    assert (Hm53 : Zpos m < 2 ^ 53).
    { eapply Z.lt_le_trans; [exact Hm|]. apply Z.pow_le_mono_r; lia. }
    destruct (Z.leb_spec 0 e) as [He | He].
    + destruct s; [eapply cs_neg; exact E|].
      eapply cs_big; [exact E|exact He|]. now apply Hbig.
    + assert (Hp : 2 <= 2 ^ (- e)).
      { change 2 with (2 ^ 1) at 1. apply Z.pow_le_mono_r; lia. }
      pose proof (Z.div_mod (Zpos m) (2 ^ (- e)) ltac:(lia)) as Hdm.
      pose proof (Z.mod_pos_bound (Zpos m) (2 ^ (- e)) ltac:(lia)) as Hmod.
      assert (Hq0 : 0 <= Zpos m / 2 ^ (- e)) by (apply Z.div_pos; lia).
      assert (Hq : Zpos m / 2 ^ (- e) < 2 ^ 52).
      { apply Z.div_lt_upper_bound; [lia|].
        change (2 ^ 53) with (2 * 2 ^ 52) in Hm53. nia. }
      destruct s.
      * destruct (Z.eqb_spec (Zpos m / 2 ^ (- e)) 0) as [Hz | Hz].
        -- apply cs_zero. now right.
        -- destruct (of_int_normal (Zpos m / 2 ^ (- e))) as (a & Ha & _);
             [change (2 ^ 53) with (2 * 2 ^ 52); lia|].
           eapply cs_neg. rewrite FloatAxioms.opp_spec, Ha. reflexivity.
      * eapply cs_int; [|reflexivity].
        destruct (Z.eqb_spec (Zpos m mod 2 ^ (- e)) 0) as [Hz | Hz];
          change (2 ^ 53) with (2 * 2 ^ 52); nia.
Qed.

Lemma one_binary64 : Prim2SF 1%float = S754_finite false 4503599627370496 (-52).
Proof. reflexivity. Qed.

Lemma Zdigits2_bounds (r : Z) : 1 <= r -> 2 ^ (Zdigits2 r - 1) <= r < 2 ^ Zdigits2 r.
Proof.
  intro H. destruct r as [|p|p]; try lia. exact (digits2_bounds p).
Qed.

(** An integer from 2 on is above 1, as binary64 values. *)
Lemma one_below_int (r : Z) : 2 <= r < 2 ^ 53 -> PrimFloat.ltb 1 (F64.of_int r) = true.
Proof.
  intro Hr. destruct (of_int_normal r ltac:(lia)) as (a & Ha & _ & _).
  rewrite FloatAxioms.ltb_spec, Ha, one_binary64. unfold SFltb, SFcompare.
  destruct (Zdigits2_bounds r ltac:(lia)) as [_ Hu].
  assert (2 <= Zdigits2 r).
  { destruct (Z_lt_le_dec (Zdigits2 r) 2) as [Hlt|]; [|assumption].
    assert (2 ^ Zdigits2 r <= 2 ^ 1); [|simpl in *; lia].
    destruct (Z_lt_le_dec (Zdigits2 r) 0) as [Hneg|].
    - rewrite Z.pow_neg_r by assumption. simpl. lia.
    - apply Z.pow_le_mono_r; lia. }
  replace (-52 ?= Zdigits2 r - 53) with Lt by (symmetry; apply Z.compare_lt_iff; lia).
  reflexivity.
Qed.

(** [Math.max(1, c)] on an integer [c >= 1]. *)
Lemma max_one_int (r : Z) : 1 <= r < 2 ^ 53 -> F64.max 1 (F64.of_int r) = F64.of_int r.
Proof.
  intro Hr. destruct (Z.eq_dec r 1) as [-> | Hne]; [reflexivity|].
  unfold F64.max. rewrite one_below_int by lia.
  destruct (of_int_normal r Hr) as (a & Ha & _ & _).
  assert (Hnan : is_nan (F64.of_int r) = false).
  { unfold is_nan. rewrite FloatAxioms.eqb_spec, Ha. unfold SFeqb, SFcompare.
    rewrite Z.compare_refl, Pos.compare_cont_refl. reflexivity. }
  rewrite Hnan. reflexivity.
Qed.

(** [Math.ceil] on an integer, and the turns of the loop up to it. *)
Lemma turns_int (r : Z) : 1 <= r < 2 ^ 53 -> F64.loop_turns (F64.of_int r) = Some (Z.to_nat r).
Proof.
  intro Hr. destruct (of_int_normal r Hr) as (a & Ha & Hv & Hd).
  destruct (Zdigits2_bounds r ltac:(lia)) as [Hl Hu].
  assert (Hdig : 1 <= Zdigits2 r <= 53).
  { split.
    - destruct r as [|p|p]; try lia. simpl. lia.
    - destruct (Z_le_gt_dec (Zdigits2 r) 53) as [|Hgt]; [assumption|].
      assert (2 ^ 53 <= 2 ^ (Zdigits2 r - 1)) by (apply Z.pow_le_mono_r; lia). lia. }
  assert (Hc : F64.ceil (F64.of_int r) = F64.of_int r).
  { unfold F64.ceil. rewrite Ha.
    destruct (Z.leb_spec 0 (Zdigits2 r - 53)); [reflexivity|].
    replace (- (Zdigits2 r - 53)) with (53 - Zdigits2 r) by lia.
    rewrite Hv, Z.div_mul, Z.mod_mul by (apply Z.pow_nonzero; lia).
    reflexivity. }
  unfold F64.loop_turns. rewrite Hc, Ha.
  assert (Hz : (if 0 <=? Zdigits2 r - 53 then Zpos a * 2 ^ (Zdigits2 r - 53)
                else Zpos a / 2 ^ (- (Zdigits2 r - 53))) = r).
  { destruct (Z.leb_spec 0 (Zdigits2 r - 53)).
    - assert (E0 : Zdigits2 r = 53) by lia. rewrite Hv, E0. simpl. lia.
    - replace (- (Zdigits2 r - 53)) with (53 - Zdigits2 r) by lia.
      rewrite Hv. apply Z.div_mul. apply Z.pow_nonzero; lia. }
  rewrite Hz. replace (r <=? 2 ^ 53) with true by (symmetry; apply Z.leb_le; lia).
  reflexivity.
Qed.

Lemma eqb_int (r : Z) : 1 <= r < 2 ^ 53 -> PrimFloat.eqb (F64.of_int r) (F64.of_int r) = true.
Proof.
  intro Hr. destruct (of_int_normal r Hr) as (a & Ha & _ & _).
  rewrite FloatAxioms.eqb_spec, Ha. unfold SFeqb, SFcompare.
  rewrite Z.compare_refl, Pos.compare_cont_refl. reflexivity.
Qed.

(** A value with a mantissa of 53 digits and an exponent that is not
    negative is above 1 and is its own ceiling. *)
Lemma max_one_big (c : float) (m : positive) (e : Z) :
  Prim2SF c = S754_finite false m e -> 0 <= e -> F64.max 1 c = c.
Proof.
  intros E He. unfold F64.max.
  assert (H1 : PrimFloat.ltb 1 c = true).
  { rewrite FloatAxioms.ltb_spec, E, one_binary64. unfold SFltb, SFcompare.
    replace (-52 ?= e) with Lt by (symmetry; apply Z.compare_lt_iff; lia). reflexivity. }
  assert (Hnan : is_nan c = false).
  { unfold is_nan. rewrite FloatAxioms.eqb_spec, E. unfold SFeqb, SFcompare.
    rewrite Z.compare_refl, Pos.compare_cont_refl. reflexivity. }
  rewrite Hnan, H1. reflexivity.
Qed.

Lemma turns_big (c : float) (m : positive) (e : Z) (n : nat) :
  Prim2SF c = S754_finite false m e -> 0 <= e -> Zpos (digits2_pos m) = 53 ->
  F64.loop_turns c = Some n ->
  PrimFloat.eqb c c = true /\ (1 <= n)%nat /\ F64.of_int (Z.of_nat n) = c.
Proof.
  intros E He Hd Ht.
  assert (Heq : PrimFloat.eqb c c = true).
  { rewrite FloatAxioms.eqb_spec, E. unfold SFeqb, SFcompare.
    rewrite Z.compare_refl, Pos.compare_cont_refl. reflexivity. }
  split; [exact Heq|].
  assert (Hc : F64.ceil c = c).
  { unfold F64.ceil. rewrite E.
    replace (0 <=? e) with true by (symmetry; apply Z.leb_le; lia). reflexivity. }
  unfold F64.loop_turns in Ht. rewrite Hc, E in Ht.
  replace (0 <=? e) with true in Ht by (symmetry; apply Z.leb_le; lia).
  destruct (digits2_bounds m) as [Bl Bu]. rewrite Hd in Bl, Bu.
  change (2 ^ (53 - 1)) with 4503599627370496 in Bl.
  change (2 ^ 53) with 9007199254740992 in Bu.
  set (z := Zpos m * 2 ^ e) in *.
  destruct (Z.leb_spec z (2 ^ 53)) as [Hz | Hz]; [|discriminate].
  injection Ht as <-.
  change (2 ^ 53) with 9007199254740992 in Hz.
  assert (Hpow : 1 <= 2 ^ e) by (pose proof (Z.pow_pos_nonneg 2 e ltac:(lia) He); lia).
  assert (He01 : e = 0 \/ e = 1).
  { destruct (Z_le_gt_dec e 1) as [|Hgt]; [lia|].
    assert (2 ^ 2 <= 2 ^ e) by (apply Z.pow_le_mono_r; lia).
    change (2 ^ 2) with 4 in *. subst z. nia. }
  destruct He01 as [-> | ->].
  - assert (Ez : z = Zpos m) by (subst z; change (2 ^ 0) with 1; lia).
    rewrite Ez. split; [lia|]. rewrite Z2Nat.id by lia.
    destruct (of_int_normal (Zpos m)) as (a & Ha & Hv & _);
      [change (2 ^ 53) with 9007199254740992; lia|].
    apply Prim2SF_inj. rewrite Ha, E.
    cbn [Zdigits2] in *. rewrite Hd in *.
    change (53 - 53) with 0 in *. change (2 ^ 0) with 1 in Hv.
    rewrite Z.mul_1_r in Hv. injection Hv as ->. reflexivity.
  - assert (Hm : m = 4503599627370496%positive)
      by (subst z; change (2 ^ 1) with 2 in *; lia).
    subst m. assert (Ez : z = 9007199254740992) by reflexivity.
    rewrite Ez. split; [lia|]. rewrite Z2Nat.id by lia.
    apply Prim2SF_inj. rewrite E. vm_compute. reflexivity.
Qed.

Lemma max_one_neg (c : float) (m : positive) (e : Z) :
  Prim2SF c = S754_finite true m e -> F64.max 1 c = 1%float.
Proof.
  intro E. unfold F64.max.
  assert (Hnan : is_nan c = false).
  { unfold is_nan. rewrite FloatAxioms.eqb_spec, E. unfold SFeqb, SFcompare.
    rewrite Z.compare_refl, Pos.compare_cont_refl. reflexivity. }
  assert (H1 : PrimFloat.ltb 1 c = false) by (rewrite FloatAxioms.ltb_spec, E; reflexivity).
  assert (H2 : PrimFloat.ltb c 1 = true) by (rewrite FloatAxioms.ltb_spec, E; reflexivity).
  rewrite Hnan, H1, H2. reflexivity.
Qed.

Lemma binary64_count (x : float) (n : nat) :
  let steps := F64.max 1 (F64.ceil x) in
  F64.loop_turns steps = Some n ->
  if PrimFloat.eqb steps steps
  then (1 <= n)%nat /\ F64.of_int (Z.of_nat n) = steps
  else n = 0%nat.
Proof.
  intros steps. subst steps.
  destruct (ceil_shape x) as [-> | [-> | ->] | -> | -> | m e E | r Hr -> | m e E He Hd].
  - vm_compute. congruence.
  - vm_compute. intro H. injection H as <-. split; [apply le_n|reflexivity].
  - vm_compute. intro H. injection H as <-. split; [apply le_n|reflexivity].
  - vm_compute. discriminate.
  - vm_compute. intro H. injection H as <-. split; [apply le_n|reflexivity].
  - rewrite (max_one_neg _ m e E). vm_compute. intro H. injection H as <-.
    split; [apply le_n|reflexivity].
  - rewrite max_one_int by assumption. rewrite turns_int, eqb_int by assumption.
    intro H. injection H as <-. split; [lia|]. rewrite Z2Nat.id by lia. reflexivity.
  - rewrite (max_one_big _ m e E He). intro Ht.
    destruct (turns_big _ m e n E He Hd Ht) as (-> & H1 & H2). split; assumption.
Qed.

Lemma binary64_steps_above (x : float) :
  PrimFloat.leb 1 (F64.ceil x) = true -> F64.max 1 (F64.ceil x) = F64.ceil x.
Proof.
  destruct (ceil_shape x) as [-> | [-> | ->] | -> | -> | m e E | r Hr -> | m e E He Hd].
  - vm_compute. discriminate.
  - vm_compute. discriminate.
  - vm_compute. discriminate.
  - reflexivity.
  - vm_compute. discriminate.
  - rewrite FloatAxioms.leb_spec, E. vm_compute. discriminate.
  - intros _. now apply max_one_int.
  - intros _. exact (max_one_big _ m e E He).
Qed.

Lemma binary64_steps_below (x : float) :
  PrimFloat.ltb (F64.ceil x) 1 = true -> F64.max 1 (F64.ceil x) = 1%float.
Proof.
  destruct (ceil_shape x) as [-> | [-> | ->] | -> | -> | m e E | r Hr -> | m e E He Hd].
  - vm_compute. discriminate.
  - reflexivity.
  - reflexivity.
  - vm_compute. discriminate.
  - reflexivity.
  - intros _. exact (max_one_neg _ m e E).
  - destruct (Z.eq_dec r 1) as [-> | Hne]; [reflexivity|].
    intro H. exfalso.
    pose proof (one_below_int r ltac:(lia)) as H1.
    pose proof (@ltb_trans float F64.num F64_order _ _ _ H1 H) as H2.
    vm_compute in H2. discriminate.
  - intro H. exfalso. rewrite FloatAxioms.ltb_spec, E, one_binary64 in H. unfold SFltb, SFcompare in H.
    replace (e ?= -52) with Gt in H by (symmetry; apply Z.compare_gt_iff; lia).
    discriminate.
Qed.

End Binary64Count.

(** The two instances keep the counting of the sampler. *)
#[global] Instance F64_count : NumCount F64.num.
Proof.
  constructor.
  - exact binary64_count.
  - exact binary64_steps_above.
  - exact binary64_steps_below.
Qed.

(** *** The blocks of the sampler *)

Section SamplerBlocks.
Context {num : Type} {N : Num num} {C : NumCount N}.
Local Open Scope num_scope.




End SamplerBlocks.

#[global] Instance Ideal_count : NumCount Ideal.num.
Proof.
  constructor.
  - intros x n steps H. subst steps. simpl in *.
    assert (E : Rmax 1 (IZR (Zceil x)) = IZR (Z.max 1 (Zceil x))).
    { destruct (Z.max_spec 1 (Zceil x)) as [[H1 ->] | [H1 ->]].
      - apply Rmax_right. apply IZR_le. lia.
      - apply Rmax_left. apply IZR_le. lia. }
    rewrite E in *.
    assert (Hc : Zceil (IZR (Z.max 1 (Zceil x))) = Z.max 1 (Zceil x))
      by (apply Zceil_eq; lra).
    rewrite Hc in H. injection H as <-.
    unfold Ideal.eqb. destruct (Req_dec_T _ _) as [_ | Hne]; [|now elim Hne].
    split; [lia|]. rewrite Z2Nat.id by lia. reflexivity.
  - intros x H. simpl in *. unfold Ideal.leb in H.
    destruct (Rle_dec _ _) as [Hle|]; [|discriminate]. now apply Rmax_right.
  - intros x H. simpl in *. unfold Ideal.ltb in H.
    destruct (Rlt_dec _ _) as [Hlt|]; [|discriminate]. apply Rmax_left. lra.
Qed.

(** ** The validation threshold *)

Section Threshold.
Context {num : Type} {N : Num num} {Q : NumRatio N}.
Local Open Scope num_scope.

Lemma neededOf_bounds (n : nat) :
  (1 <= n)%nat ->
  (1 <= neededOf n <= Z.of_nat n)%Z /\
  (4 * Z.of_nat n <= 5 * neededOf n)%Z /\ (5 * (neededOf n - 1) < 4 * Z.of_nat n)%Z.
Proof.
  intro Hn. unfold neededOf.
  pose proof (Z.div_mod (4 * Z.of_nat n + 4) 5 ltac:(lia)) as E.
  pose proof (Z.mod_pos_bound (4 * Z.of_nat n + 4) 5 ltac:(lia)) as B.
  lia.
Qed.

(** [neededOf n] is the ceiling of [0.80 * n]. *)
Lemma neededOf_ceiling (n : nat) : (1 <= n)%nat -> neededOf n = Zceil (0.80 * IZR (Z.of_nat n)).
Proof.
  intro Hn. destruct (neededOf_bounds n Hn) as (_ & H1 & H2).
  symmetry. apply Zceil_eq.
  apply IZR_le in H1. apply IZR_lt in H2.
  rewrite !mult_IZR in H1, H2. rewrite minus_IZR in *. lra.
Qed.

(** The test of step 5 on the coverage after the marking. *)
Lemma coverageRatio_test (cov' : SegmentCoverage num) :
  let n := length (samples cov') in
  let k := count_true (covered cov') in
  (1 <= n)%nat -> (Z.of_nat n < 2 ^ 32)%Z -> (k <= n)%nat ->
  (coverageRatio cov' <? VALIDATION_THRESHOLD) = (5 * Z.of_nat k <? 4 * Z.of_nat n)%Z.
Proof.
  intros n k Hn Hn32 Hk. unfold coverageRatio. fold n k.
  apply ratio_test; [lia|]. split; [lia|].
  eapply Z.lt_trans; [exact Hn32|]. reflexivity.
Qed.

(** C2: when step 5 is reached for an entry of [n >= 1] samples that was
    not validated, after the fix the entry is validated, and its way in
    the validated set, if exactly [ceil (0.80 * n)] of its samples are
    covered, and it is not validated, the set being as it was, if exactly
    [ceil (0.80 * n) - 1] are; the covered array is that of the marking
    in both cases.  [neededOf n] is [ceil (0.80 * n)], and an array has
    fewer than [2^32] elements. *)
Theorem validation_threshold_boundary cityName (lon lat : num) (st : Engine num)
    features nearest cov cov' :
  geojson st = Some features ->
  findNearestSegment lon lat (segmentCoverages st) = Ok (Some nearest) ->
  xgt (distance nearest) MAP_MATCH_MAX_DIST = false ->
  nth_error (segmentCoverages st) (coverage nearest) = Some cov ->
  validated cov = false ->
  markCovered cov (snappedLon nearest) (snappedLat nearest) = (cov', true) ->
  let n := length (samples cov) in
  let k := count_true (covered cov') in
  (1 <= n)%nat -> (Z.of_nat n < 2 ^ 32)%Z ->
  let st' := afterFix cityName true lon lat st in
  neededOf n = Zceil (0.80 * IZR (Z.of_nat n)) /\
  (Z.of_nat k = neededOf n ->
     exists c,
       nth_error (segmentCoverages st') (coverage nearest) = Some c /\
       validated c = true /\ covered c = covered cov' /\
       In (wayId cov) (validatedWayIds st')) /\
  (Z.of_nat k = (neededOf n - 1)%Z ->
     exists c,
       nth_error (segmentCoverages st') (coverage nearest) = Some c /\
       validated c = false /\ covered c = covered cov' /\
       validatedWayIds st' = validatedWayIds st).
Proof.
  intros Hg Hn Hd Hc Hv Hm n k Hn1 Hn32 st'.
  destruct (markCovered_frame _ _ _ _ _ Hm) as (Hw & _ & _ & Hs & Hval).
  destruct (neededOf_bounds n Hn1) as (Hb & Hlo & Hhi).
  pose proof (afterFix_step5 cityName lon lat st features nearest cov cov' Hg Hn Hd Hc Hv Hm)
    as Hst'. cbv zeta in Hst'. fold st' in Hst'.
  split; [now apply neededOf_ceiling|].
  split; intro Hk.
  - assert (E : (coverageRatio cov' <? VALIDATION_THRESHOLD) = false).
    { rewrite coverageRatio_test by (rewrite ?Hs; fold n k; lia).
      rewrite Hs. fold n k. apply Z.ltb_ge. lia. }
    rewrite E in Hst'.
    exists (set_validated cov' true). rewrite Hst'.
    rewrite validateSegment_coverages, validateSegment_validatedWayIds. simpl.
    rewrite replace_at_twice. split; [apply (nth_error_replace_at_same _ _ _ _ Hc)|].
    split; [reflexivity|]. split; [reflexivity|].
    rewrite Hw. apply set_add_In. left. reflexivity.
  - assert (E : (coverageRatio cov' <? VALIDATION_THRESHOLD) = true).
    { rewrite coverageRatio_test by (rewrite ?Hs; fold n k; lia).
      rewrite Hs. fold n k. apply Z.ltb_lt. lia. }
    rewrite E in Hst'.
    exists cov'. rewrite Hst'. simpl.
    split; [apply (nth_error_replace_at_same _ _ _ _ Hc)|].
    split; [congruence|]. split; reflexivity.
Qed.

End Threshold.

(** The two instances keep the test of step 5. *)
#[global] Instance F64_ratio : NumRatio F64.num.
Proof. constructor. intros k n Hk Hn. exact (ratio_test_binary64 k n Hk Hn). Qed.

#[global] Instance Ideal_ratio : NumRatio Ideal.num.
Proof.
  constructor. intros k n Hk Hn.
  change (Ideal.ltb (IZR k / IZR n) (IZR 80 / IZR 100) = (5 * k <? 4 * n)%Z).
  assert (Hpos : (0 < IZR n)%R) by (apply IZR_lt; lia).
  assert (Hdiv : (IZR k / IZR n * IZR n = IZR k)%R) by (field; lra).
  destruct (Z.ltb_spec (5 * k) (4 * n)) as [H | H].
  - apply IZR_lt in H. rewrite !mult_IZR in H.
    unfold Ideal.ltb. destruct (Rlt_dec _ _) as [|Hnot]; [reflexivity|]. exfalso. apply Hnot. nra.
  - apply IZR_le in H. rewrite !mult_IZR in H.
    unfold Ideal.ltb. destruct (Rlt_dec _ _) as [Hlt|]; [|reflexivity]. exfalso. nra.
Qed.

(** ** The sub-LineString *)

Section SubLine.
Context {num : Type} {N : Num num}.
Local Open Scope num_scope.


End SubLine.

(** *** The loop of [subLineString] *)

Section SubLineLoop.
Context {num : Type} {N : Num num} {L : NumLe N}.
Local Open Scope num_scope.

Variables startDist endDist : num.
Hypothesis Hse : (startDist <=? endDist) = true.

Lemma cum_prefix (pre rest : list ((Coord num * Coord num) * num)) :
  cumDistAt (map snd (pre ++ rest)) (length pre) = totalOf (map snd pre).
Proof.
  unfold cumDistAt. rewrite map_app, <- (length_map snd pre).
  rewrite firstn_app, Nat.sub_diag, firstn_all. simpl. now rewrite app_nil_r.
Qed.

Lemma cum_after_prefix (pre : list ((Coord num * Coord num) * num)) seg l rest :
  cumDistAt (map snd (pre ++ (seg, l) :: rest)) (S (length pre))
  = totalOf (map snd pre) + l.
Proof.
  replace (pre ++ (seg, l) :: rest) with ((pre ++ [(seg, l)]) ++ rest)
    by (now rewrite <- app_assoc).
  replace (S (length pre)) with (length (pre ++ [(seg, l)]))
    by (rewrite length_app; simpl; lia).
  rewrite cum_prefix, map_app. apply totalOf_snoc.
Qed.





End SubLineLoop.

Section SubLineString.
Context {num : Type} {N : Num num} {L : NumLe N}.
Local Open Scope num_scope.




End SubLineString.

(** The two instances keep the order that [subLineString] needs. *)

Lemma SFleb_trans x y z : SFleb x y = true -> SFleb y z = true -> SFleb x z = true.
Proof.
  unfold SFleb, SFcompare.
  destruct x as [[]|[]| |[] m1 e1], y as [[]|[]| |[] m2 e2], z as [[]|[]| |[] m3 e3];
    simpl; intros H1 H2; try discriminate; try reflexivity;
    sf_cases; subst; try discriminate; try reflexivity; try lia.
Qed.

Lemma SFltb_SFleb x y : SFltb x y = true -> SFleb x y = true.
Proof.
  unfold SFleb, SFltb. destruct (SFcompare x y) as [[]|]; auto.
Qed.

Lemma SFleb_not_SFltb x y : SFleb x y = true -> SFltb y x = false.
Proof.
  unfold SFleb, SFltb, SFcompare.
  destruct x as [[]|[]| |[] m1 e1], y as [[]|[]| |[] m2 e2];
    simpl; intros H1; try discriminate; try reflexivity;
    sf_cases; subst; try discriminate; try reflexivity; try lia.
Qed.

Lemma SFleb_total x y :
  SFleb x x = true -> SFleb y y = true -> SFltb x y = false -> SFleb y x = true.
Proof.
  unfold SFleb, SFltb, SFcompare.
  destruct x as [[]|[]| |[] m1 e1], y as [[]|[]| |[] m2 e2];
    simpl; intros H1 H2 H3; try discriminate; try reflexivity;
    sf_cases; subst; try discriminate; try reflexivity; try lia.
Qed.

Lemma SFleb_refl_both x y : SFleb x y = true -> SFleb x x = true /\ SFleb y y = true.
Proof.
  unfold SFleb, SFcompare.
  destruct x as [[]|[]| |[] m1 e1], y as [[]|[]| |[] m2 e2];
    simpl; intros H1; try discriminate; split; try reflexivity;
    rewrite ?Z.compare_refl, ?Pos.compare_cont_refl; reflexivity.
Qed.

#[global] Instance F64_le : NumLe F64.num.
Proof.
  split; simpl; intros.
  - rewrite FloatAxioms.leb_spec in *. eapply SFleb_trans; eauto.
  - rewrite FloatAxioms.leb_spec. rewrite FloatAxioms.ltb_spec in *. now apply SFltb_SFleb.
  - rewrite FloatAxioms.ltb_spec. rewrite FloatAxioms.leb_spec in *. now apply SFleb_not_SFltb.
  - rewrite FloatAxioms.leb_spec in *. rewrite FloatAxioms.ltb_spec in *.
    now apply SFleb_total.
  - rewrite FloatAxioms.leb_spec in *. exact (proj1 (SFleb_refl_both _ _ H)).
  - rewrite FloatAxioms.leb_spec in *. exact (proj2 (SFleb_refl_both _ _ H)).
Qed.

#[global] Instance Ideal_le : NumLe Ideal.num.
Proof.
  split; simpl; unfold Ideal.leb, Ideal.ltb; intros.
  - destruct (Rle_dec a b), (Rle_dec b c), (Rle_dec a c); try discriminate; auto; lra.
  - destruct (Rlt_dec a b), (Rle_dec a b); try discriminate; auto; lra.
  - destruct (Rle_dec a b), (Rlt_dec b a); try discriminate; auto; lra.
  - destruct (Rlt_dec a b), (Rle_dec b a); try discriminate; auto; lra.
  - destruct (Rle_dec a a); auto; lra.
  - destruct (Rle_dec b b); auto; lra.
Qed.

(** ** Streets of fewer than two vertices *)

Section Degenerate.
Context {num : Type} {N : Num num}.
Local Open Scope num_scope.

(** The entry that takes the lead has a projection at a distance other
    than the literal [Infinity], so it has a segment. *)
Lemma nearestLoop_winner lon lat covs : forall k st st',
  nearestLoop lon lat covs k st = Ok st' ->
  nBestCov st' = nBestCov st \/
  exists j c p,
    nBestCov st' = Some (k + j)%nat /\ nth_error covs j = Some c /\
    projectOntoLineString lon lat (coords c) = Ok p /\ p_distance p <> Infinity.
Proof.
  induction covs as [|c rest IH]; intros k st st' H; simpl in H.
  - injection H as <-. now left.
  - unfold nearestStep in H.
    destruct (projectOntoLineString lon lat (coords c)) as [p|] eqn:Hp; [|discriminate].
    simpl in H.
    destruct (xltx (p_distance p) (nBestDist st)) eqn:Hlt; simpl in H.
    + destruct (IH _ _ _ H) as [E | (j & c' & p' & E & Hn & Hp' & Hd)].
      * right. exists 0%nat, c, p. rewrite E, Nat.add_0_r. simpl.
        repeat split; auto; intro Hinf; rewrite Hinf in Hlt; discriminate.
      * right. exists (S j), c', p'. rewrite E. simpl.
        repeat split; auto; f_equal; lia.
    + destruct (IH _ _ _ H) as [E | (j & c' & p' & E & Hn & Hp' & Hd)].
      * now left.
      * right. exists (S j), c', p'. rewrite E. simpl.
        repeat split; auto; f_equal; lia.
Qed.

Lemma findNearestSegment_winner lon lat covs n :
  findNearestSegment lon lat covs = Ok (Some n) ->
  exists c, nth_error covs (coverage n) = Some c /\ (2 <= length (coords c))%nat.
Proof.
  unfold findNearestSegment. destruct (length covs =? 0)%nat; [discriminate|].
  destruct (nearestLoop lon lat covs 0 (mkNearState Infinity None (of_Z 0) lon lat))
    as [st|] eqn:Hl; [|discriminate].
  simpl. destruct (nBestCov st) as [i|] eqn:Hb; [|discriminate].
  intro H. injection H as <-. simpl.
  destruct (nearestLoop_winner _ _ _ _ _ _ Hl) as [E | (j & c & p & E & Hn & Hp & Hd)].
  - simpl in E. congruence.
  - rewrite Hb in E. injection E as ->. exists c. split; [assumption|].
    destruct (coords c) as [|a [|b rest]] eqn:Hc; simpl; try lia.
    + rewrite projection_no_vertex in Hp. discriminate.
    + rewrite projection_single_vertex in Hp. injection Hp as <-. now elim Hd.
Qed.

(** An entry of fewer than two vertices is never the winner, so no fix
    changes it: it is never validated by a fix. *)
Lemma degenerate_entry_never_changes cityName ready lon lat (st : Engine num) i c :
  nth_error (segmentCoverages st) i = Some c ->
  (length (coords c) < 2)%nat ->
  nth_error (segmentCoverages (afterFix cityName ready lon lat st)) i = Some c.
Proof.
  intros Hi Hlen.
  pose proof (afterFix_effect cityName ready lon lat st) as E.
  destruct E as [ | | n cov cov' touched Hn Hd Hc Hvc Hm Hr st2 st'' Hst
                  | n cov cov' features Hg Hn Hd Hc Hvc Hm Hr st2 st3].
  - assumption.
  - assumption.
  - destruct (findNearestSegment_winner _ _ _ _ Hn) as (c0 & Hc0 & Hl0).
    assert (Hne : coverage n <> i) by (intro; subst i; rewrite Hc0 in Hi; injection Hi as ->; lia).
    assert (Hs : segmentCoverages st'' = replace_at (segmentCoverages st) (coverage n) cov')
      by (destruct Hst; subst st''; reflexivity).
    rewrite Hs, nth_error_replace_at_other; assumption.
  - destruct (findNearestSegment_winner _ _ _ _ Hn) as (c0 & Hc0 & Hl0).
    assert (Hne : coverage n <> i) by (intro; subst i; rewrite Hc0 in Hi; injection Hi as ->; lia).
    rewrite validateSegment_coverages. simpl. rewrite replace_at_twice.
    rewrite nth_error_replace_at_other; assumption.
Qed.

(** With a street of no vertex among the coverages, the handler throws
    on every fix it tries to match. *)
Lemma updatePosition_no_vertex cityName lon lat (st : Engine num) features pre c post :
  geojson st = Some features ->
  segmentCoverages st = pre ++ c :: post ->
  coords c = [] ->
  updatePosition cityName true lon lat st = TypeError.
Proof.
  intros Hg Hs Hc. unfold updatePosition. simpl negb. cbv iota. rewrite Hg, Hs.
  replace (length (pre ++ c :: post) =? 0)%nat with false
    by (symmetry; apply Nat.eqb_neq; rewrite length_app; simpl; lia).
  now rewrite findNearestSegment_no_vertex.
Qed.

End Degenerate.

(** ** Runs on binary64 values *)

(** The literal [0.80] is the value the model takes as threshold. *)
Example threshold_literal : @VALIDATION_THRESHOLD float _ = 0x1.999999999999ap-1%float.
Proof. reflexivity. Qed.

(** The walk validates the street at the seventh fix, with 20 of its 23
    samples covered, unlocks the first badge once, and the cleanup then
    saves. *)
Example walk_validates_street :
  let st := runFixes "Marly" Scenario.walk Scenario.sessionPlain in
  map (fun n => map (fun c => (count_true (covered c), validated c))
                    (segmentCoverages
                       (runFixes "Marly" (firstn n Scenario.walk) Scenario.sessionPlain)))
      [6; 7]
  = [[(17, false)]; [(20, true)]] /\
  map (fun c => length (samples c)) (segmentCoverages st) = [23] /\
  validatedWayIds st = [7%Z] /\
  unlockedBadges st = ["first_step"%string] /\
  badgeQueue st = [] /\
  saveRequests st = [] /\
  map explored_way_ids (saveRequests (cleanup "Marly" st)) = [[7%Z]].
Proof. vm_compute. repeat split. Qed.

(** On binary64 values the test of step 5 passes at [ceil (0.80 n)] covered
    samples and fails at one fewer, for every [n] from 1 to 4096. *)
Example threshold_boundary_binary64 :
  forallb Scenario.boundaryHolds (seq 1 4096) = true.
Proof. vm_compute. reflexivity. Qed.

(** C1, as stated, fails: a list that is not empty, whose only street has a
    single vertex, gives no match. *)
Lemma nearest_of_single_vertex_is_none :
  Scenario.onlyLonely <> [] /\
  findNearestSegment 0%float 0%float Scenario.onlyLonely = Ok None.
Proof. split; [discriminate|reflexivity]. Qed.


(** C6, as stated, fails: restoring the id 99, which belongs to no loaded
    street, changes the validated set, the saved count and the explored
    count from what the snapshot without it gives. *)
Lemma restore_keeps_unknown_id :
  let st1 := Scenario.sessionUnknown in
  let st0 := Scenario.sessionPlain in
  mapLoad "u1" [Scenario.meridian] [99%Z] [] initialEngine = Some st1 /\
  mapLoad "u1" [Scenario.meridian] [] [] initialEngine = Some st0 /\
  knownWay [Scenario.meridian] 99 = false /\
  validatedWayIds st1 <> validatedWayIds st0 /\
  savedCount st1 <> savedCount st0 /\
  exploredCount st1 <> exploredCount st0.
Proof. vm_compute. repeat split; discriminate. Qed.


(** C7: a way without geometry is loaded as an entry without samples, and
    then every fix makes the handler throw. *)
Theorem hollow_way_makes_fix_throw :
  mapLoad "u1" [Scenario.meridian; Scenario.hollow] [] [] initialEngine
  = Some Scenario.sessionHollow /\
  map (fun c => length (coords c)) (segmentCoverages Scenario.sessionHollow) = [2; 0] /\
  updatePosition "Marly" true 0%float 0%float Scenario.sessionHollow = TypeError.
Proof. vm_compute. repeat split. Qed.

(** *** The theorems at work on a session *)

Lemma nearest_is_first_minimum_witness :
  let covs := segmentCoverages Scenario.session in
  let lon := 0.0001220703125%float in
  let lat := 0.00048828125%float in
  (forall c, In c covs -> coords c <> []) /\
  exists n,
    findNearestSegment lon lat covs = Ok (Some n) /\
    coverage n = 0%nat /\
    forall c, In c covs -> xltx (distanceTo lon lat c) (distance n) = false.
Proof.
  intros covs lon lat.
  assert (H : forall c, In c covs -> coords c <> []).
  { intros c Hc. vm_compute in Hc. destruct Hc as [<- | [<- | [<- | []]]]; discriminate. }
  split; [exact H|].
  pose proof (nearest_is_first_minimum lon lat covs H) as [_ T].
  destruct (findNearestSegment lon lat covs) as [[n|]|] eqn:E.
  - exists n. split; [reflexivity|]. split.
    + vm_compute in E. injection E as <-. reflexivity.
    + destruct T as (_ & _ & T & _). exact T.
  - vm_compute in E. discriminate.
  - contradiction.
Defined.

Lemma validated_entry_is_terminal_witness :
  let st := Scenario.session in
  let c := hd (mkCov 0 0 [] [] [] false 0%float 0%float) (segmentCoverages st) in
  nth_error (segmentCoverages st) 0 = Some c /\
  validated c = true /\
  nth_error (segmentCoverages
               (afterFix "Marly" true 0.0001220703125%float 0.00048828125%float st)) 0
  = Some c.
Proof.
  intros st c.
  assert (H1 : nth_error (segmentCoverages st) 0 = Some c) by reflexivity.
  assert (H2 : validated c = true) by reflexivity.
  split; [exact H1|]. split; [exact H2|].
  exact (proj1 (validated_entry_is_terminal "Marly" true 0.0001220703125%float
                  0.00048828125%float st 0 c H1 H2)).
Defined.

Lemma restore_unknown_way_ids_witness :
  mapLoad "u1" [Scenario.meridian] [99%Z] [] initialEngine = Some Scenario.sessionUnknown /\
  exists st2,
    mapLoad "u1" [Scenario.meridian] (filter (knownWay [Scenario.meridian]) [99%Z]) []
      initialEngine = Some st2 /\
    segmentCoverages Scenario.sessionUnknown = segmentCoverages st2 /\
    exploredData Scenario.sessionUnknown = exploredData st2.
Proof.
  assert (H : mapLoad "u1" [Scenario.meridian] [99%Z] [] initialEngine
              = Some Scenario.sessionUnknown) by (vm_compute; reflexivity).
  split; [exact H|].
  exact (proj1 (restore_unknown_way_ids "u1" [Scenario.meridian] [99%Z] []
                  Scenario.sessionUnknown H)).
Defined.

(** * The rest of the component: proofs *)

(** ** What a session keeps *)

Section Coverage.
Context {num : Type} {N : Num num}.
Local Open Scope num_scope.

Lemma In_replace_at (covs : list (SegmentCoverage num)) i x c :
  In c (replace_at covs i x) -> c = x \/ In c covs.
Proof.
  revert i; induction covs as [|y tl IH]; intros [|i] H; simpl in *; try contradiction.
  - destruct H; auto.
  - destruct H as [H | H]; auto. destruct (IH _ H); auto.
Qed.

Lemma Forall_replace_at (P : SegmentCoverage num -> Prop) covs i x :
  Forall P covs -> P x -> Forall P (replace_at covs i x).
Proof.
  intros F Hx. apply Forall_forall. intros c Hc.
  destruct (In_replace_at _ _ _ _ Hc) as [-> | Hin]; [assumption|].
  rewrite Forall_forall in F. auto.
Qed.

Lemma map_replace_at {B : Type} (f : SegmentCoverage num -> B) covs i x c :
  nth_error covs i = Some c -> f x = f c -> map f (replace_at covs i x) = map f covs.
Proof.
  revert i; induction covs as [|y tl IH]; intros [|i] H E; simpl in *; try discriminate.
  - injection H as ->. now rewrite E.
  - f_equal. eauto.
Qed.

(** *** The marking loop *)

Lemma array_set_length (arr : list bool) i v :
  i < length arr -> length (array_set arr i v) = length arr.
Proof.
  revert i; induction arr as [|x tl IH]; intros [|i] H; simpl in *; try lia.
  rewrite IH; lia.
Qed.

Lemma array_set_keeps (arr : list bool) i j :
  nth j arr false = true -> nth j (array_set arr i true) false = true.
Proof.
  revert i j; induction arr as [|x tl IH]; intros i j H.
  - destruct j; discriminate.
  - destruct i as [|i], j as [|j]; simpl in *; auto.
Qed.

Lemma array_set_other (arr : list bool) (i j : nat) (v : bool) :
  i <> j -> nth j (array_set arr i v) false = nth j arr false.
Proof.
  revert i j; induction arr as [|x tl IH]; intros i j Hij.
  - revert j Hij; induction i as [|i IHi]; intros [|j] Hij; simpl; try congruence.
    + now destruct j.
    + rewrite IHi by congruence. now destruct j.
  - destruct i as [|i], j as [|j]; simpl; try congruence. apply IH. congruence.
Qed.

Lemma array_set_same (arr : list bool) (i : nat) (v : bool) :
  nth i (array_set arr i v) false = v.
Proof.
  revert arr; induction i as [|i IH]; intros [|x tl]; simpl; auto.
Qed.

Lemma count_true_cons (b : bool) (arr : list bool) :
  count_true (b :: arr) = (if b then S (count_true arr) else count_true arr).
Proof. unfold count_true. destruct b; reflexivity. Qed.

Lemma array_set_count (arr : list bool) i :
  count_true arr <= count_true (array_set arr i true).
Proof.
  revert i; induction arr as [|x tl IH]; intros [|i]; simpl.
  - unfold count_true; simpl; lia.
  - unfold count_true at 1; simpl; lia.
  - rewrite !count_true_cons. destruct x; lia.
  - rewrite !count_true_cons. specialize (IH i). destruct x; lia.
Qed.

Lemma grows_refl (c : SegmentCoverage num) : grows c c.
Proof. split; auto. Qed.

Lemma grows_trans (c1 c2 c3 : SegmentCoverage num) : grows c1 c2 -> grows c2 c3 -> grows c1 c3.
Proof. intros [A1 B1] [A2 B2]. split; [auto|lia]. Qed.

Lemma coverStep_grows sLon sLat acc i s :
  grows (fst acc) (fst (coverStep sLon sLat acc i s)).
Proof.
  destruct acc as [cov touched]. unfold coverStep.
  destruct (nth i (covered cov) false); [apply grows_refl|].
  destruct (_ <=? _); [|apply grows_refl].
  assert (G : grows cov (set_covered cov (array_set (covered cov) i true))).
  { split; simpl.
    - intros j. unfold isCovered. simpl. apply array_set_keeps.
    - apply array_set_count. }
  repeat break_match; simpl; exact G.
Qed.

Lemma coverLoop_grows sLon sLat ss : forall i acc,
  grows (fst acc) (fst (coverLoop sLon sLat ss i acc)).
Proof.
  induction ss as [|s rest IH]; intros i acc; simpl; [apply grows_refl|].
  eapply grows_trans; [apply coverStep_grows|apply IH].
Qed.

Lemma markCovered_grows cov sLon sLat cov' touched :
  markCovered cov sLon sLat = (cov', touched) -> grows cov cov'.
Proof.
  unfold markCovered. intro H.
  pose proof (coverLoop_grows sLon sLat (samples cov) 0 (cov, false)) as G.
  now rewrite H in G.
Qed.

Lemma coverStep_length sLon sLat acc i s :
  i < length (covered (fst acc)) ->
  length (covered (fst (coverStep sLon sLat acc i s))) = length (covered (fst acc)).
Proof.
  destruct acc as [cov touched]. unfold coverStep. simpl. intro Hi.
  repeat break_match; simpl; auto using array_set_length.
Qed.

Lemma coverLoop_length sLon sLat ss : forall i acc,
  i + length ss <= length (covered (fst acc)) ->
  length (covered (fst (coverLoop sLon sLat ss i acc))) = length (covered (fst acc)).
Proof.
  induction ss as [|s rest IH]; intros i acc H; simpl in *; [reflexivity|].
  rewrite IH; rewrite coverStep_length; lia.
Qed.

Lemma markCovered_length cov sLon sLat cov' touched :
  markCovered cov sLon sLat = (cov', touched) ->
  length (covered cov) = length (samples cov) ->
  length (covered cov') = length (samples cov').
Proof.
  intros H L. destruct (markCovered_frame _ _ _ _ _ H) as (_ & _ & _ & Hs & _).
  unfold markCovered in H.
  pose proof (coverLoop_length sLon sLat (samples cov) 0 (cov, false)) as G.
  rewrite H in G. simpl in G. rewrite G, Hs by lia. exact L.
Qed.

(** *** The coverages after a fix *)

(** What a fix does to the list of coverages: nothing, or one entry that
    was not validated is replaced by its marked version, validated or
    not. *)
Lemma afterFix_coverages cityName ready lon lat (st : Engine num) :
  let st' := afterFix cityName ready lon lat st in
  segmentCoverages st' = segmentCoverages st /\ validatedWayIds st' = validatedWayIds st \/
  exists i cov cov' touched sLon sLat,
    nth_error (segmentCoverages st) i = Some cov /\ validated cov = false /\
    markCovered cov sLon sLat = (cov', touched) /\
    (segmentCoverages st' = replace_at (segmentCoverages st) i cov' /\
     validatedWayIds st' = validatedWayIds st
     \/
     segmentCoverages st' = replace_at (segmentCoverages st) i (set_validated cov' true) /\
     validatedWayIds st' = set_add Z.eqb (validatedWayIds st) (wayId cov)).
Proof.
  intro st'.
  pose proof (afterFix_effect cityName ready lon lat st) as E. fold st' in E.
  destruct E as [ | | n cov cov' touched Hn Hd Hc Hvc Hm Hr st2 st'' Hst
                  | n cov cov' features Hg Hn Hd Hc Hvc Hm Hr st2 st3].
  - left; auto.
  - left; auto.
  - right. exists (coverage n), cov, cov', touched, (snappedLon n), (snappedLat n).
    repeat split; auto. left. destruct Hst; subst st''; auto.
  - right. exists (coverage n), cov, cov', true, (snappedLon n), (snappedLat n).
    repeat split; auto. right.
    rewrite validateSegment_coverages, validateSegment_validatedWayIds. simpl.
    rewrite replace_at_twice.
    destruct (markCovered_frame _ _ _ _ _ Hm) as (-> & _). auto.
Qed.

End Coverage.

Section Kept.
Context {num : Type} {N : Num num}.
Local Open Scope num_scope.

(** One fix, seen from the entry at position [i]. *)
Lemma afterFix_entry cityName ready lon lat (st : Engine num) i c :
  nth_error (segmentCoverages st) i = Some c ->
  exists c', nth_error (segmentCoverages (afterFix cityName ready lon lat st)) i = Some c' /\
    skeleton c' = skeleton c /\ grows c c' /\ (validated c = true -> validated c' = true).
Proof.
  intro Hi.
  destruct (afterFix_coverages cityName ready lon lat st)
    as [[E _] | (i0 & cov & cov' & touched & sLon & sLat & Hc & Hv & Hm & Hcase)].
  - exists c. rewrite E. repeat split; auto.
  - destruct (markCovered_frame _ _ _ _ _ Hm) as (F1 & F2 & F3 & F4 & F5).
    pose proof (markCovered_grows _ _ _ _ _ Hm) as G.
    destruct (Nat.eq_dec i0 i) as [-> | Hne].
    + assert (c = cov) by congruence. subst c.
      destruct Hcase as [[E _] | [E _]]; rewrite E;
        rewrite (nth_error_replace_at_same _ _ _ _ Hc); eexists; (split; [reflexivity|]).
      * unfold skeleton. rewrite F1, F2, F3, F4. repeat split; try apply G. congruence.
      * unfold skeleton. simpl. rewrite F1, F2, F3, F4. repeat split; try apply G.
    + exists c. destruct Hcase as [[E _] | [E _]]; rewrite E;
        rewrite nth_error_replace_at_other by assumption; repeat split; auto.
Qed.

(** X1: fixes never take coverage back: along any sequence of fixes an entry
    keeps its place, its way, its geometry and its samples, every sample
    that was covered stays covered, the number of covered samples does not
    decrease, and a validated entry stays validated. *)
Theorem fixes_never_uncover cityName (fixes : list (Fix num)) (st : Engine num) i c :
  nth_error (segmentCoverages st) i = Some c ->
  exists c', nth_error (segmentCoverages (runFixes cityName fixes st)) i = Some c' /\
    skeleton c' = skeleton c /\ grows c c' /\ (validated c = true -> validated c' = true).
Proof.
  revert st c. induction fixes as [|f fixes IH]; intros st c Hi; simpl.
  - exists c. repeat split; auto.
  - destruct (afterFix_entry cityName (fix_ready f) (fix_lon f) (fix_lat f) st i c Hi)
      as (c1 & H1 & S1 & G1 & V1).
    destruct (IH (processFix cityName st f) c1 H1) as (c2 & H2 & S2 & G2 & V2).
    exists c2. split; [exact H2|]. split; [congruence|].
    split; [eapply grows_trans; eauto|auto].
Qed.

(** *** The coverages after the load *)

Lemma buildCoverages_fresh (features : list (Feature num)) : forall idx covs,
  buildCoverages features idx = Some covs ->
  Forall (fun c => length (covered c) = length (samples c) /\ validated c = false) covs.
Proof.
  induction features as [|f rest IH]; intros idx covs H; simpl in H.
  - injection H as <-. constructor.
  - destruct (sampleLineStringWithT (f_coordinates f) SAMPLE_STEP_METERS); [|discriminate].
    destruct (buildCoverages rest (S idx)) eqn:E; [|discriminate].
    injection H as <-. constructor; [|eapply IH; eauto].
    simpl. split; [apply repeat_length|reflexivity].
Qed.

Lemma buildCoverages_nth (features : list (Feature num)) : forall idx covs,
  buildCoverages features idx = Some covs ->
  length covs = length features /\
  forall i c, nth_error covs i = Some c ->
    exists f, nth_error features i = Some f /\
      wayId c = f_id f /\ featureIndex c = (idx + i)%nat /\ coords c = f_coordinates f /\
      sampleLineStringWithT (f_coordinates f) SAMPLE_STEP_METERS = Some (samples c).
Proof.
  induction features as [|f rest IH]; intros idx covs H; simpl in H.
  - injection H as <-. split; [reflexivity|]. intros [|i] c Hc; discriminate.
  - destruct (sampleLineStringWithT (f_coordinates f) SAMPLE_STEP_METERS) as [ss|] eqn:Es;
      [|discriminate].
    destruct (buildCoverages rest (S idx)) as [covs'|] eqn:E; [|discriminate].
    injection H as <-. destruct (IH _ _ E) as [L Hn]. split; [simpl; congruence|].
    intros [|i] c Hc; simpl in Hc.
    + injection Hc as <-. exists f. simpl. rewrite Nat.add_0_r. auto.
    + destruct (Hn i c Hc) as (f' & H1 & H2 & H3 & H4 & H5).
      exists f'. simpl. repeat split; auto. lia.
Qed.

Lemma In_restoreFirst (covs : list (SegmentCoverage num)) id c :
  In c (restoreFirst covs id) ->
  In c covs \/ exists c0, In c0 covs /\ wayId c0 = id /\ c = restored c0.
Proof.
  induction covs as [|x rest IH]; simpl; [contradiction|].
  destruct (wayId x =? id)%Z eqn:E.
  - apply Z.eqb_eq in E. intros [<- | H]; [|auto].
    right. exists x. auto.
  - intros [<- | H]; [auto|].
    destruct (IH H) as [? | (c0 & ? & ? & ?)]; [auto|]. right. exists c0. auto.
Qed.

Lemma restoreFirst_skeleton (covs : list (SegmentCoverage num)) id :
  map skeleton (restoreFirst covs id) = map skeleton covs.
Proof.
  induction covs as [|x rest IH]; simpl; [reflexivity|].
  destruct (wayId x =? id)%Z; simpl; [reflexivity|]. now rewrite IH.
Qed.

Lemma fold_restoreFirst_skeleton ids : forall covs : list (SegmentCoverage num),
  map skeleton (fold_left restoreFirst ids covs) = map skeleton covs.
Proof.
  induction ids as [|k ids IH]; intro covs; simpl; [reflexivity|].
  now rewrite IH, restoreFirst_skeleton.
Qed.

(** A property of the entries that [restored] keeps or brings, for the
    ids of the snapshot. *)
Lemma fold_restoreFirst_Forall (P : SegmentCoverage num -> Prop) ids :
  forall covs : list (SegmentCoverage num),
  Forall P covs ->
  (forall c, P c -> In (wayId c) ids -> P (restored c)) ->
  Forall P (fold_left restoreFirst ids covs).
Proof.
  induction ids as [|k ids IH]; intros covs F R; simpl; [assumption|].
  apply IH.
  - apply Forall_forall. intros c Hc. rewrite Forall_forall in F.
    destruct (In_restoreFirst _ _ _ Hc) as [Hin | (c0 & Hin & Hw & ->)]; [auto|].
    apply R; [auto|]. left. congruence.
  - intros c Hp Hc. apply R; [assumption|]. now right.
Qed.

(** *** The invariants *)

Lemma reachable_flagsMatch cityName (st : Engine num) :
  reachable cityName st -> Forall flagsMatch (segmentCoverages st).
Proof.
  induction 1 as [ | st uid R IH Hu | st uid streets savedIds savedBadges st' R IH Hu Hl
                   | st f R IH ].
  - constructor.
  - exact IH.
  - unfold mapLoad in Hl.
    destruct (buildCoverages (streetsToGeoJSON streets) 0) as [covs|] eqn:Hb; [|discriminate].
    injection Hl as <-. simpl.
    apply fold_restoreFirst_Forall.
    + eapply Forall_impl; [|exact (buildCoverages_fresh _ _ _ Hb)].
      intros c [H _]. exact H.
    + intros c Hc _. unfold flagsMatch, restored in *. simpl. now rewrite length_map.
  - unfold processFix.
    destruct (afterFix_coverages cityName (fix_ready f) (fix_lon f) (fix_lat f) st)
      as [[E _] | (i0 & cov & cov' & touched & sLon & sLat & Hc & Hv & Hm & Hcase)].
    + now rewrite E.
    + assert (Hcov : flagsMatch cov).
      { rewrite Forall_forall in IH. apply IH. eapply nth_error_In; eauto. }
      pose proof (markCovered_length _ _ _ _ _ Hm Hcov) as L.
      destruct Hcase as [[E _] | [E _]]; rewrite E; apply Forall_replace_at; auto.
Qed.

Lemma reachable_validated_in_set cityName (st : Engine num) :
  reachable cityName st ->
  Forall (fun c => validated c = true -> In (wayId c) (validatedWayIds st))
         (segmentCoverages st).
Proof.
  induction 1 as [ | st uid R IH Hu | st uid streets savedIds savedBadges st' R IH Hu Hl
                   | st f R IH ].
  - constructor.
  - exact IH.
  - unfold mapLoad in Hl.
    destruct (buildCoverages (streetsToGeoJSON streets) 0) as [covs|] eqn:Hb; [|discriminate].
    injection Hl as <-. simpl.
    apply fold_restoreFirst_Forall.
    + eapply Forall_impl; [|exact (buildCoverages_fresh _ _ _ Hb)].
      intros c [_ H] Hv. congruence.
    + intros c _ Hin _. simpl. apply fold_set_add_In. now left.
  - unfold processFix.
    destruct (afterFix_coverages cityName (fix_ready f) (fix_lon f) (fix_lat f) st)
      as [[E1 E2] | (i0 & cov & cov' & touched & sLon & sLat & Hc & Hv & Hm & Hcase)].
    + now rewrite E1, E2.
    + destruct (markCovered_frame _ _ _ _ _ Hm) as (F1 & _ & _ & _ & F5).
      destruct Hcase as [[E1 E2] | [E1 E2]]; rewrite E1, E2.
      * apply Forall_replace_at; [assumption|]. congruence.
      * apply Forall_replace_at.
        -- eapply Forall_impl; [|exact IH]. intros c H Hvc. apply set_add_In. right. auto.
        -- intros _. simpl. apply set_add_In. left. exact F1.
Qed.

Lemma reachable_skeleton cityName (st : Engine num) :
  reachable cityName st ->
  forall features, geojson st = Some features ->
  exists covs0, buildCoverages features 0 = Some covs0 /\
                map skeleton (segmentCoverages st) = map skeleton covs0.
Proof.
  induction 1 as [ | st uid R IH Hu | st uid streets savedIds savedBadges st' R IH Hu Hl
                   | st f R IH ]; intros features Hg.
  - discriminate.
  - simpl in Hg. auto.
  - unfold mapLoad in Hl.
    destruct (buildCoverages (streetsToGeoJSON streets) 0) as [covs|] eqn:Hb; [|discriminate].
    injection Hl as <-. simpl in *. injection Hg as <-.
    exists covs. split; [assumption|]. apply fold_restoreFirst_skeleton.
  - unfold processFix in *.
    destruct (afterFix_keeps_session cityName (fix_ready f) (fix_lon f) (fix_lat f) st)
      as [Hgeo _].
    rewrite Hgeo in Hg. destruct (IH _ Hg) as (covs0 & Hb & Hs).
    exists covs0. split; [assumption|]. rewrite <- Hs.
    destruct (afterFix_coverages cityName (fix_ready f) (fix_lon f) (fix_lat f) st)
      as [[E _] | (i0 & cov & cov' & touched & sLon & sLat & Hc & Hv & Hm & Hcase)].
    + now rewrite E.
    + destruct (markCovered_frame _ _ _ _ _ Hm) as (F1 & F2 & F3 & F4 & _).
      destruct Hcase as [[E _] | [E _]]; rewrite E; apply (map_replace_at _ _ _ _ _ Hc);
        unfold skeleton; simpl; congruence.
Qed.

(** X3: in every state of a session, the covered array of every entry has
    exactly one flag per sample. *)
Theorem covered_flags_match_samples cityName (st : Engine num) c :
  reachable cityName st -> In c (segmentCoverages st) ->
  length (covered c) = length (samples c).
Proof.
  intros R Hin. pose proof (reachable_flagsMatch _ _ R) as F.
  rewrite Forall_forall in F. exact (F c Hin).
Qed.

(** X4: in every state of a session, the way id of every validated entry is
    in the set of validated way ids. *)
Theorem validated_entries_are_in_the_set cityName (st : Engine num) c :
  reachable cityName st -> In c (segmentCoverages st) -> validated c = true ->
  In (wayId c) (validatedWayIds st).
Proof.
  intros R Hin. pose proof (reachable_validated_in_set _ _ R) as F.
  rewrite Forall_forall in F. exact (F c Hin).
Qed.

Lemma reachable_bound cityName (st : Engine num) features :
  reachable cityName st -> geojson st = Some features ->
  length (segmentCoverages st) = length features /\
  forall i c, nth_error (segmentCoverages st) i = Some c ->
    exists f, nth_error features i = Some f /\
      wayId c = f_id f /\ featureIndex c = i /\ coords c = f_coordinates f /\
      sampleLineStringWithT (coords c) SAMPLE_STEP_METERS = Some (samples c).
Proof.
  intros R Hg. destruct (reachable_skeleton _ _ R _ Hg) as (covs0 & Hb & Hs).
  destruct (buildCoverages_nth _ _ _ Hb) as [L Hn]. split.
  - rewrite <- L, <- (length_map skeleton), Hs. apply length_map.
  - intros i c Hc.
    assert (H0 : nth_error (map skeleton covs0) i = Some (skeleton c))
      by (rewrite <- Hs; now apply map_nth_error).
    rewrite nth_error_map in H0.
    destruct (nth_error covs0 i) as [c0|] eqn:E0; [|discriminate].
    simpl in H0. injection H0 as H1 H2 H3 H4.
    destruct (Hn i c0 E0) as (f & G1 & G2 & G3 & G4 & G5).
    exists f. simpl in G3. repeat split; congruence.
Qed.

(** X5: in every state of a session with loaded streets, the entries stand
    for the streets of the collection, one for one and in order: the entry
    at position [i] has the id and the geometry of the street at position
    [i], its [featureIndex] is [i], and its samples are those of that
    geometry at [SAMPLE_STEP_METERS]. *)
Theorem coverage_bound_to_street cityName (st : Engine num) features :
  reachable cityName st -> geojson st = Some features ->
  length (segmentCoverages st) = length features /\
  forall i c, nth_error (segmentCoverages st) i = Some c ->
    exists f, nth_error features i = Some f /\
      wayId c = f_id f /\ featureIndex c = i /\ coords c = f_coordinates f /\
      sampleLineStringWithT (coords c) SAMPLE_STEP_METERS = Some (samples c).
Proof. exact (reachable_bound cityName st features). Qed.

End Kept.

(** ** Badges and saves along a session *)

Section Books.
Context {num : Type} {N : Num num}.
Local Open Scope num_scope.

Lemma has_In_string (s : list string) (k : string) :
  set_has String.eqb s k = true <-> In k s.
Proof.
  unfold set_has. rewrite existsb_exists. split.
  - intros (x & Hx & E). apply String.eqb_eq in E. now subst.
  - intro H. exists k. split; [assumption|apply String.eqb_refl].
Qed.

Lemma set_add_size_le {K : Type} (eqb : K -> K -> bool) (s : list K) (k : K) :
  set_size (set_add eqb s k) <= S (set_size s).
Proof.
  unfold set_add, set_size. destruct (set_has eqb s k); [lia|].
  rewrite length_app. simpl. lia.
Qed.

Lemma fold_set_add_size_le {K : Type} (eqb : K -> K -> bool) (ids s : list K) :
  set_size (fold_left (set_add eqb) ids s) <= set_size s + length ids.
Proof.
  revert s; induction ids as [|k ids IH]; intro s; simpl; [lia|].
  specialize (IH (set_add eqb s k)). pose proof (set_add_size_le eqb s k). lia.
Qed.

Lemma fold_set_add_plain_incl {K : Type} (eqb : K -> K -> bool) (ids s : list K) :
  incl s (fold_left (set_add eqb) ids s).
Proof.
  revert s; induction ids as [|k ids IH]; intro s; simpl; [apply incl_refl|].
  intros x Hx. apply IH. now apply set_add_incl.
Qed.

(** The ids that a fold of [add] puts in. *)
Lemma fold_set_add_brings {A : Type} (f : A -> string) (l : list A) : forall s a,
  In a l -> In (f a) (fold_left (fun u b => set_add String.eqb u (f b)) l s).
Proof.
  induction l as [|x l IH]; intros s a H; simpl; [contradiction|].
  destruct H as [-> | H]; [|now apply IH].
  apply fold_set_add_incl. unfold set_add.
  destruct (set_has String.eqb s (f a)) eqn:E.
  - now apply has_In_string.
  - apply in_or_app. right. now left.
Qed.

Lemma sameBooks_refl (st : Engine num) : sameBooks st st.
Proof. unfold sameBooks. repeat split. Qed.

(** A fix either leaves the bookkeeping alone and validates nothing, or
    it runs the validation of one entry on that bookkeeping. *)
Lemma afterFix_books cityName ready lon lat (st : Engine num) :
  let st' := afterFix cityName ready lon lat st in
  (sameBooks st' st /\ ~ validationEvent st st') \/
  (exists features i cov st3,
     geojson st = Some features /\ sameBooks st3 st /\
     st' = validateSegment cityName features i cov st3 /\ validationEvent st st').
Proof.
  intro st'.
  pose proof (afterFix_effect cityName ready lon lat st) as E. fold st' in E.
  destruct E as [ | | n cov cov' touched Hn Hd Hc Hvc Hm Hr st2 st'' Hst
                  | n cov cov' features Hg Hn Hd Hc Hvc Hm Hr st2 st3].
  - left. split; [apply sameBooks_refl|].
    intros (i & c & c' & H1 & H2 & H3 & H4). congruence.
  - left. split; [unfold sameBooks; simpl; repeat split|].
    intros (i & c & c' & H1 & H2 & H3 & H4). simpl in H3. congruence.
  - left. split; [destruct Hst; subst st'' st2; unfold sameBooks; simpl; repeat split|].
    intros (i & c & c' & H1 & H2 & H3 & H4).
    assert (Hs : segmentCoverages st'' = replace_at (segmentCoverages st) (coverage n) cov')
      by (destruct Hst; subst st''; reflexivity).
    rewrite Hs in H3.
    destruct (Nat.eq_dec (coverage n) i) as [<- | Hne].
    + rewrite (nth_error_replace_at_same _ _ _ _ Hc) in H3.
      destruct (markCovered_frame _ _ _ _ _ Hm) as (_ & _ & _ & _ & Hval). congruence.
    + rewrite nth_error_replace_at_other in H3 by assumption. congruence.
  - right. exists features, (coverage n), cov', st3. repeat split; auto.
    exists (coverage n), cov, (set_validated cov' true). repeat split; auto.
    rewrite validateSegment_coverages. simpl. rewrite replace_at_twice.
    apply (nth_error_replace_at_same _ _ _ _ Hc).
Qed.

Lemma validateSegment_books cityName features i cov (st : Engine num) :
  let st' := validateSegment cityName features i cov st in
  let new := newBadgesOf (unlockedBadges st) (set_size (validatedWayIds st')) in
  validatedWayIds st' = set_add Z.eqb (validatedWayIds st) (wayId cov) /\
  unlockedBadges st' =
    fold_left (fun u b => set_add String.eqb u (b_id (bd_badge b))) new (unlockedBadges st) /\
  announced st' = announced st ++ map bd_badge new.
Proof.
  intros st' new. subst new st'.
  rewrite validateSegment_validatedWayIds, validateSegment_unlockedBadges.
  split; [reflexivity|]. split; [reflexivity|].
  unfold validateSegment, announced.
  set (new := newBadgesOf _ _).
  destruct new as [|b0 new'], (currentBadge st) as [cur|], (badgeQueue st) as [|q0 q]; simpl;
    rewrite ?app_nil_r; reflexivity.
Qed.

(** X9: after a fix that validates a street, every badge whose threshold the
    number of validated streets has reached is unlocked. *)
Theorem reached_badges_are_unlocked cityName ready lon lat (st : Engine num) bd :
  let st' := afterFix cityName ready lon lat st in
  validationEvent st st' -> In bd BADGE_DEFS ->
  threshold bd <= set_size (validatedWayIds st') ->
  In (b_id (bd_badge bd)) (unlockedBadges st').
Proof.
  intros st' Hev Hbd Hth.
  destruct (afterFix_books cityName ready lon lat st)
    as [[_ Hno] | (features & i & cov & st3 & Hg & Hb & E & _)]; [contradiction|].
  fold st' in E.
  destruct (validateSegment_books cityName features i cov st3) as (_ & Hu & _).
  rewrite <- E in Hu. rewrite Hu.
  destruct (set_has String.eqb (unlockedBadges st3) (b_id (bd_badge bd))) eqn:Hhas.
  - apply fold_set_add_incl. now apply has_In_string.
  - apply (fold_set_add_brings (fun b => b_id (bd_badge b))).
    unfold newBadgesOf. apply filter_In. split; [assumption|].
    rewrite Hhas. simpl. now apply Nat.leb_le.
Qed.

(** *** The badge queue *)

Lemma stepEvent_unlocked cityName (st : Engine num) ev :
  incl (unlockedBadges st) (unlockedBadges (stepEvent cityName st ev)).
Proof.
  destruct ev as [f| |]; simpl.
  - unfold processFix.
    destruct (afterFix_books cityName (fix_ready f) (fix_lon f) (fix_lat f) st)
      as [[Hb _] | (features & i & cov & st3 & Hg & Hb & E & _)].
    + destruct Hb as (_ & _ & _ & -> & _). apply incl_refl.
    + rewrite E. destruct (validateSegment_books cityName features i cov st3) as (_ & -> & _).
      destruct Hb as (_ & _ & _ & -> & _).
      intros x Hx. now apply fold_set_add_incl.
  - apply incl_refl.
  - unfold badgeTimer. destruct (badgeQueue st); apply incl_refl.
Qed.

Lemma runEvents_unlocked cityName evs : forall st : Engine num,
  incl (unlockedBadges st) (unlockedBadges (runEvents cityName evs st)).
Proof.
  induction evs as [|ev evs IH]; intro st; simpl; [apply incl_refl|].
  eapply incl_tran; [apply stepEvent_unlocked|apply IH].
Qed.

(** An event brings a badge in only when its id was not unlocked, and
    then unlocks it. *)
Lemma stepEvent_newly cityName (st : Engine num) ev b :
  newlyAnnounced st (stepEvent cityName st ev) b ->
  ~ In (b_id b) (unlockedBadges st) /\
  In (b_id b) (unlockedBadges (stepEvent cityName st ev)).
Proof.
  intros [Hin Hnot]. destruct ev as [f| |]; simpl in *.
  - unfold processFix in *.
    destruct (afterFix_books cityName (fix_ready f) (fix_lon f) (fix_lat f) st)
      as [[Hb _] | (features & i & cov & st3 & Hg & Hb & E & _)].
    + exfalso. apply Hnot. unfold announced in *.
      destruct Hb as (_ & _ & _ & _ & Hq & Hc & _). now rewrite <- Hq, <- Hc.
    + rewrite E in *.
      destruct (validateSegment_books cityName features i cov st3) as (_ & Hu & Ha).
      cbv zeta in Hu, Ha.
      assert (Hann : announced st3 = announced st).
      { unfold announced. destruct Hb as (_ & _ & _ & _ & -> & -> & _). reflexivity. }
      assert (Hunl : unlockedBadges st3 = unlockedBadges st) by apply Hb.
      rewrite Ha, Hann in Hin. apply in_app_iff in Hin.
      destruct Hin as [Hin | Hin]; [contradiction|].
      apply in_map_iff in Hin. destruct Hin as (bd & <- & Hbd).
      split.
      * unfold newBadgesOf in Hbd. apply filter_In in Hbd. destruct Hbd as [_ Hc].
        apply andb_true_iff in Hc. destruct Hc as [Hc _]. apply negb_true_iff in Hc.
        rewrite Hunl in Hc. intro Habs. apply has_In_string in Habs. congruence.
      * rewrite Hu. now apply (fold_set_add_brings (fun b => b_id (bd_badge b))).
  - exfalso. apply Hnot. unfold announced in *. simpl in Hin.
    destruct (currentBadge st); [now right|assumption].
  - exfalso. apply Hnot. unfold announced, badgeTimer in *.
    destruct (badgeQueue st) as [|q0 q] eqn:Hq; simpl in Hin; [contradiction|].
    destruct (currentBadge st); [now right|assumption].
Qed.

(** X10: a badge is announced at most once: whatever fixes, dismissals and
    timer callbacks follow the event that brought a badge to the display
    or to the queue, no later event brings it again. *)
Theorem badge_announced_once cityName (st : Engine num) evs1 ev1 evs2 ev2 b :
  let s1 := runEvents cityName evs1 st in
  let s1' := stepEvent cityName s1 ev1 in
  let s2 := runEvents cityName evs2 s1' in
  let s2' := stepEvent cityName s2 ev2 in
  newlyAnnounced s1 s1' b -> ~ newlyAnnounced s2 s2' b.
Proof.
  intros s1 s1' s2 s2' H1 H2.
  destruct (stepEvent_newly _ _ _ _ H1) as [_ Hin].
  destruct (stepEvent_newly _ _ _ _ H2) as [Hnot _].
  apply Hnot. subst s2. now apply runEvents_unlocked.
Qed.

(** *** The saves *)

Lemma runFixes_reachable cityName fixes : forall st : Engine num,
  reachable cityName st -> reachable cityName (runFixes cityName fixes st).
Proof.
  induction fixes as [|f fixes IH]; intros st R; simpl; [assumption|].
  apply IH. now apply reach_fix.
Qed.

Lemma sessionAfter_reachable cityName uid streets savedIds savedBadges fixes (st : Engine num) :
  uid <> ""%string ->
  sessionAfter cityName uid streets savedIds savedBadges fixes = Some st ->
  reachable cityName st.
Proof.
  unfold sessionAfter. intros Hu H.
  destruct (mapLoad uid streets savedIds savedBadges initialEngine) as [st0|] eqn:Hl;
    [|discriminate].
  injection H as <-. apply runFixes_reachable.
  eapply reach_load; [apply reach_init|exact Hu|exact Hl].
Qed.

Lemma afterFix_unsaved cityName ready lon lat (st : Engine num) :
  sessionInv st ->
  set_size (validatedWayIds st) < savedCount st + 10 ->
  let st' := afterFix cityName ready lon lat st in
  set_size (validatedWayIds st') < savedCount st' + 10.
Proof.
  intros Inv H st'.
  destruct (afterFix_books cityName ready lon lat st)
    as [[Hb _] | (features & i & cov & st3 & Hg & Hb & E & _)]; fold st' in Hb || fold st' in E.
  - destruct Hb as (_ & _ & -> & _ & _ & _ & -> & _). exact H.
  - unfold sessionInv in Inv. rewrite Hg in Inv.
    destruct Hb as (_ & Hu & Hids & _ & _ & _ & Hsaved & _).
    rewrite <- Hu in Inv.
    pose proof (validateSegment_save cityName features i cov st3 Inv) as Sv.
    cbv zeta in Sv. rewrite <- E in Sv.
    assert (Hsz : set_size (validatedWayIds st') <= S (set_size (validatedWayIds st))).
    { rewrite E, validateSegment_validatedWayIds, Hids. apply set_add_size_le. }
    destruct (Z.of_nat (set_size (validatedWayIds st')) - Z.of_nat (savedCount st3) >=? 10)%Z
      eqn:Ht.
    + destruct Sv as [_ ->]. lia.
    + destruct Sv as [_ ->]. rewrite Hsaved in *. rewrite Z.geb_leb in Ht.
      apply Z.leb_gt in Ht. lia.
Qed.

(** X11: in a session that loaded once, fewer than ten validated streets are
    ever unsaved: the size of the validated set stays below the saved
    count plus [SAVE_EVERY_N]. *)
Theorem fewer_than_ten_unsaved cityName uid (streets : list (OverpassWay num))
    savedIds savedBadges fixes (st : Engine num) :
  uid <> ""%string ->
  sessionAfter cityName uid streets savedIds savedBadges fixes = Some st ->
  (Z.of_nat (set_size (validatedWayIds st)) < Z.of_nat (savedCount st) + SAVE_EVERY_N)%Z.
Proof.
  unfold sessionAfter, SAVE_EVERY_N. intros Hu H.
  destruct (mapLoad uid streets savedIds savedBadges initialEngine) as [st0|] eqn:Hl;
    [|discriminate].
  injection H as <-.
  assert (R0 : reachable cityName st0)
    by (eapply reach_load; [apply reach_init|exact Hu|exact Hl]).
  assert (H0 : set_size (validatedWayIds st0) < savedCount st0 + 10).
  { unfold mapLoad in Hl.
    destruct (buildCoverages (streetsToGeoJSON streets) 0); [|discriminate].
    injection Hl as <-. simpl.
    pose proof (fold_set_add_size_le Z.eqb savedIds []) as L. simpl in L. lia. }
  cut (set_size (validatedWayIds (runFixes cityName fixes st0))
       < savedCount (runFixes cityName fixes st0) + 10); [lia|].
  clear Hl. revert st0 R0 H0.
  induction fixes as [|f fixes IH]; intros st0 R0 H0; simpl; [assumption|].
  apply IH.
  - now apply reach_fix.
  - apply afterFix_unsaved; [now apply reachable_sessionInv with (cityName := cityName)|assumption].
Qed.

Lemma soundRequest_mono cityName (st st' : Engine num) r :
  incl (validatedWayIds st) (validatedWayIds st') ->
  incl (unlockedBadges st) (unlockedBadges st') ->
  soundRequest cityName st r -> soundRequest cityName st' r.
Proof.
  intros I1 I2 (H1 & H2 & H3 & H4). repeat split; auto; eapply incl_tran; eauto.
Qed.

Lemma truthy_Some (u : option string) :
  truthy u = true -> exists s, u = Some s /\ s <> ""%string.
Proof.
  destruct u as [s|]; [|discriminate]. simpl. intro H. exists s. split; [reflexivity|].
  apply negb_true_iff in H. now apply String.eqb_neq.
Qed.

Lemma reachable_soundRequests cityName (st : Engine num) :
  reachable cityName st -> Forall (soundRequest cityName st) (saveRequests st).
Proof.
  induction 1 as [ | st uid R IH Hu | st uid streets savedIds savedBadges st' R IH Hu Hl
                   | st f R IH ].
  - constructor.
  - eapply Forall_impl; [|exact IH]. intros r (H1 & H2 & H3 & H4). repeat split; auto.
  - unfold mapLoad in Hl.
    destruct (buildCoverages (streetsToGeoJSON streets) 0) as [covs|] eqn:Hb; [|discriminate].
    injection Hl as <-. simpl.
    eapply Forall_impl; [|exact IH]. intros r.
    apply soundRequest_mono; simpl; apply fold_set_add_plain_incl.
  - unfold processFix. pose proof (reachable_sessionInv _ _ R) as Inv.
    destruct (afterFix_books cityName (fix_ready f) (fix_lon f) (fix_lat f) st)
      as [[Hb _] | (features & i & cov & st3 & Hg & Hb & E & _)].
    + destruct Hb as (_ & _ & Hids & Hunl & _ & _ & _ & Hreq & _). rewrite Hreq.
      eapply Forall_impl; [|exact IH]. intros r.
      apply soundRequest_mono; [rewrite Hids|rewrite Hunl]; apply incl_refl.
    + rewrite E. unfold sessionInv in Inv. rewrite Hg in Inv.
      destruct Hb as (_ & Hu & Hids & Hunl & _ & _ & _ & Hreq & _).
      rewrite <- Hu in Inv.
      pose proof (validateSegment_save cityName features i cov st3 Inv) as Sv.
      destruct (validateSegment_books cityName features i cov st3) as (Ei & Eu & _).
      cbv zeta in Sv, Eu.
      assert (Old : Forall (soundRequest cityName (validateSegment cityName features i cov st3))
                           (saveRequests st)).
      { eapply Forall_impl; [|exact IH]. intros r. apply soundRequest_mono.
        - rewrite Ei, Hids. intros x Hx. now apply set_add_incl.
        - rewrite Eu, Hunl. intros x Hx. now apply fold_set_add_incl. }
      destruct (_ >=? 10)%Z.
      * destruct Sv as [-> _]. rewrite Hreq. apply Forall_app. split; [exact Old|].
        constructor; [|constructor].
        destruct (truthy_Some _ Inv) as (u & -> & Hne).
        repeat split; simpl; auto using incl_refl.
      * destruct Sv as [-> _]. rewrite Hreq. exact Old.
Qed.

(** X12: every request to save, the final one of the cleanup included, names a
    user id that is not empty and the city of the session, and carries
    only way ids of the validated set and badges of the unlocked set. *)
Theorem save_requests_are_sound cityName (st : Engine num) r :
  reachable cityName st -> In r (saveRequests (cleanup cityName st)) ->
  soundRequest cityName st r.
Proof.
  intros R Hin. pose proof (reachable_soundRequests _ _ R) as F.
  rewrite Forall_forall in F. unfold cleanup in Hin.
  destruct (geojson st) as [features|]; [|auto].
  destruct (truthy (userId st)) eqn:Hu; simpl in Hin; [|auto].
  destruct (savedCount st <? set_size (validatedWayIds st))%nat; simpl in Hin; [|auto].
  apply in_app_iff in Hin. destruct Hin as [Hin | [<- | []]]; [auto|].
  destruct (truthy_Some _ Hu) as (u & -> & Hne).
  repeat split; simpl; auto using incl_refl.
Qed.

End Books.

(** ** The rings of the boundary *)

Section Rings.
Context {num : Type} {N : Num num} {M : NumMore num}.

Lemma length_tl_rev {A : Type} (l : list A) : length (List.tl (rev l)) = length (List.tl l).
Proof.
  destruct l as [|a l]; [reflexivity|]. simpl.
  destruct (rev l ++ [a]) as [|b k] eqn:E.
  - apply (f_equal (@length A)) in E. rewrite length_app in E. simpl in E. lia.
  - apply (f_equal (@length A)) in E. rewrite length_app, length_rev in E. simpl in *. lia.
Qed.

Lemma In_tl {A : Type} (l : list A) (x : A) : In x (List.tl l) -> In x l.
Proof. destruct l; simpl; auto. Qed.

(** The search for a way that fits: no throw on ways that have points;
    the way found leaves [remaining], and all its points but one go to the
    ring. *)
Lemma matchWay_spec (tail : Coord num) (remaining : list (list (Coord num))) :
  Forall (fun w => w <> []) remaining ->
  matchWay tail remaining = Ok None \/
  exists pts rest seg,
    matchWay tail remaining = Ok (Some (pts, rest)) /\
    In seg remaining /\ S (length pts) = length seg /\ incl pts seg /\
    length remaining = S (length rest) /\
    pointCount remaining = pointCount rest + length seg /\
    Forall (fun w => w <> []) rest /\ incl rest remaining.
Proof.
  induction 1 as [|seg remaining Hseg Hrest IH]; simpl; [now left|].
  destruct seg as [|first seg']; [congruence|].
  destruct (near first tail) eqn:E1.
  - right. exists seg', remaining, (first :: seg').
    split; [reflexivity|]. split; [now left|]. split; [reflexivity|].
    split; [intros x Hx; now right|]. split; [reflexivity|].
    split; [unfold pointCount; simpl; lia|]. split; [assumption|].
    intros x Hx; now right.
  - destruct (near (List.last (first :: seg') first) tail) eqn:E2.
    + right. exists (List.tl (rev (first :: seg'))), remaining, (first :: seg').
      split; [reflexivity|]. split; [now left|].
      split; [rewrite length_tl_rev; reflexivity|].
      split; [intros x Hx; apply In_tl in Hx; now apply in_rev in Hx|].
      split; [reflexivity|].
      split; [unfold pointCount; simpl; lia|]. split; [assumption|].
      intros x Hx; now right.
    + destruct IH as [-> | (pts & rest & s & -> & H1 & H2 & H3 & H4 & H5 & H6 & H7)];
        [now left|].
      right. exists pts, ((first :: seg') :: rest), s.
      split; [reflexivity|]. split; [now right|]. split; [assumption|].
      split; [assumption|]. split; [simpl; lia|].
      split; [unfold pointCount in *; simpl in *; lia|].
      split; [constructor; [discriminate|assumption]|].
      intros x [<- | Hx]; [now left|right; auto].
Qed.

(** The growth of one ring. *)
Lemma growRing_spec (guard : nat) : forall (ring : list (Coord num)) remaining,
  ring <> [] -> Forall (fun w => w <> []) remaining ->
  exists more rest,
    growRing guard ring remaining = Ok (ring ++ more, rest) /\
    Forall (fun w => w <> []) rest /\ incl rest remaining /\
    length rest <= length remaining /\
    pointCount rest + length more + (length remaining - length rest) = pointCount remaining /\
    (forall p, In p more -> exists w, In w remaining /\ In p w).
Proof.
  induction guard as [|guard IH]; intros ring remaining Hring Hrem; simpl.
  - exists [], remaining. rewrite app_nil_r.
    split; [reflexivity|]. split; [assumption|]. split; [apply incl_refl|].
    split; [lia|]. split; [simpl; lia|]. intros p [].
  - destruct ring as [|head ring']; [congruence|].
    destruct (near (List.last (head :: ring') head) head).
    + exists [], remaining. rewrite app_nil_r.
      split; [reflexivity|]. split; [assumption|]. split; [apply incl_refl|].
      split; [lia|]. split; [simpl; lia|]. intros p [].
    + destruct (matchWay_spec (List.last (head :: ring') head) remaining Hrem)
        as [-> | (pts & rest & seg & -> & H1 & H2 & H3 & H4 & H5 & H6 & H7)].
      * exists [], remaining. rewrite app_nil_r.
        split; [reflexivity|]. split; [assumption|]. split; [apply incl_refl|].
        split; [lia|]. split; [simpl; lia|]. intros p [].
      * destruct (IH ((head :: ring') ++ pts) rest) as (more & rest' & E & G1 & G2 & G3 & G4 & G5);
          [discriminate|assumption|].
        exists (pts ++ more), rest'. rewrite app_assoc. split; [exact E|].
        split; [assumption|]. split; [eapply incl_tran; eauto|].
        split; [lia|]. split; [rewrite length_app; lia|].
        intros p Hp. apply in_app_iff in Hp. destruct Hp as [Hp | Hp].
        -- exists seg. auto.
        -- destruct (G5 p Hp) as (w & Hw & Hpw). exists w. auto.
Qed.

(** The outer loop, with turns enough for the ways that remain. *)
Lemma ringsLoop_spec (turns : nat) : forall (remaining rings : list (list (Coord num))),
  length remaining <= turns -> Forall (fun w => w <> []) remaining ->
  exists rings',
    ringsLoop turns remaining rings = Some (Ok (rings ++ rings')) /\
    Forall (fun r => r <> []) rings' /\
    length rings' <= length remaining /\
    (remaining <> [] -> rings' <> []) /\
    pointCount rings' + (length remaining - length rings') = pointCount remaining /\
    (forall r p, In r rings' -> In p r -> exists w, In w remaining /\ In p w) /\
    match remaining, rings' with
    | w :: _, r :: _ => exists more, r = w ++ more
    | [], [] => True
    | _, _ => False
    end.
Proof.
  induction turns as [|turns IH]; intros remaining rings Hlen Hrem.
  - destruct remaining; [|simpl in Hlen; lia]. exists []. simpl. rewrite app_nil_r.
    repeat split; auto. intros r p [].
  - destruct remaining as [|first rest].
    + exists []. simpl. rewrite app_nil_r. repeat split; auto. intros r p [].
    + inversion Hrem as [|? ? Hfirst Hrest]; subst.
      cbn [ringsLoop].
      destruct (growRing_spec (length rest * 2) first rest Hfirst Hrest)
        as (more & rest' & -> & G1 & G2 & G3 & G4 & G5).
      destruct (IH rest' (rings ++ [first ++ more])) as (rings' & E & R1 & R2 & R3 & R4 & R5 & _);
        [simpl in Hlen; lia|assumption|].
      exists ((first ++ more) :: rings'). rewrite E, <- app_assoc. simpl.
      split; [reflexivity|].
      split; [constructor; [destruct first; [congruence|discriminate]|assumption]|].
      split; [lia|]. split; [discriminate|].
      split; [unfold pointCount in *; simpl; rewrite length_app; lia|].
      split; [|now exists more].
      intros r p [<- | Hr] Hp.
      * apply in_app_iff in Hp. destruct Hp as [Hp | Hp].
        -- exists first. split; [now left|assumption].
        -- destruct (G5 p Hp) as (w & Hw & Hpw). exists w. split; [now right|assumption].
      * destruct (R5 r p Hr Hp) as (w & Hw & Hpw). exists w. split; [right; auto|assumption].
Qed.

Lemma toCoords_nonempty (ways : list (list (OsmPoint num))) :
  Forall (fun w => w <> []) ways -> Forall (fun w => w <> []) (map toCoords ways).
Proof.
  intro F. apply Forall_forall. intros w Hw. apply in_map_iff in Hw.
  destruct Hw as (w0 & <- & Hin). rewrite Forall_forall in F. specialize (F w0 Hin).
  destruct w0; [congruence|discriminate].
Qed.

(** X20: on ways that all have points, [assembleRings] ends without a throw;
    every way is used in exactly one ring, and a way joined to a ring
    gives all its points but the one it shares: the rings hold as many
    points as the ways, less one for each join. *)
Theorem assembleRings_counts (ways : list (list (OsmPoint num))) :
  Forall (fun w => w <> []) ways ->
  exists rings,
    assembleRings ways = Some (Ok rings) /\
    Forall (fun r => r <> []) rings /\
    length rings <= length ways /\
    (ways <> [] -> rings <> []) /\
    pointCount rings + (length ways - length rings) = pointCount (map toCoords ways).
Proof.
  intro F. unfold assembleRings.
  destruct (ringsLoop_spec (length ways) (map toCoords ways) [])
    as (rings & E & R1 & R2 & R3 & R4 & _).
  - rewrite length_map. lia.
  - now apply toCoords_nonempty.
  - exists rings. rewrite length_map in *. repeat split; auto.
    intro H. apply R3. destruct ways; [congruence|discriminate].
Qed.

(** X21: the rings hold points of the ways only, and the first ring starts
    with the first way, point for point. *)
Theorem assembleRings_points (ways : list (list (OsmPoint num))) rings :
  Forall (fun w => w <> []) ways ->
  assembleRings ways = Some (Ok rings) ->
  (forall r p, In r rings -> In p r -> exists w, In w ways /\ In p (toCoords w)) /\
  match ways, rings with
  | w :: _, r :: _ => exists more, r = toCoords w ++ more
  | [], [] => True
  | _, _ => False
  end.
Proof.
  intros F E. unfold assembleRings in E.
  destruct (ringsLoop_spec (length ways) (map toCoords ways) [])
    as (rings' & E' & _ & _ & _ & _ & R5 & R6).
  - rewrite length_map. lia.
  - now apply toCoords_nonempty.
  - rewrite E in E'. injection E' as ->. split.
    + intros r p Hr Hp. destruct (R5 r p Hr Hp) as (w & Hw & Hpw).
      apply in_map_iff in Hw. destruct Hw as (w0 & <- & Hin). exists w0. auto.
    + destruct ways, rings'; simpl in *; auto.
Qed.

Lemma last_nonempty_indep {A : Type} (a : A) (l : list A) (d1 d2 : A) :
  List.last (a :: l) d1 = List.last (a :: l) d2.
Proof.
  revert a; induction l as [|b l IH]; intro a; [reflexivity|].
  change (List.last (a :: b :: l) d1) with (List.last (b :: l) d1).
  change (List.last (a :: b :: l) d2) with (List.last (b :: l) d2). apply IH.
Qed.

Lemma growRing_stops (guard : nat) : forall (ring : list (Coord num)) remaining ring' rest d,
  (length remaining < guard \/ remaining = []) ->
  Forall (fun w => w <> []) remaining ->
  growRing guard ring remaining = Ok (ring', rest) ->
  near (List.last ring' d) (List.hd d ring') = true \/
  matchWay (List.last ring' d) rest = Ok None.
Proof.
  induction guard as [|guard IH]; intros ring remaining ring' rest d Hg Hrem E; simpl in E.
  - injection E as <- <-. destruct Hg as [Hg | ->]; [lia|]. now right.
  - destruct ring as [|head tl0]; [discriminate|].
    destruct (near (List.last (head :: tl0) head) head) eqn:Hclosed.
    + injection E as <- <-. left.
      rewrite (last_nonempty_indep head tl0 d head). exact Hclosed.
    + destruct (matchWay_spec (List.last (head :: tl0) head) remaining Hrem)
        as [Hn | (pts & rest0 & seg & Hs & H1 & H2 & H3 & H4 & H5 & H6 & H7)].
      * rewrite Hn in E. injection E as <- <-. right.
        rewrite (last_nonempty_indep head tl0 d head). exact Hn.
      * rewrite Hs in E. eapply IH; [|exact H6|exact E].
        destruct Hg as [Hg | ->]; [|simpl in H4; lia]. left. lia.
Qed.

(** X22: the guard never cuts the growth of a ring short: with the guard the
    source sets, twice the number of ways that remain, the loop stops on
    a ring that is closed or that no remaining way fits. *)
Theorem ring_growth_is_not_cut_short (ring : list (Coord num)) remaining ring' rest d :
  Forall (fun w => w <> []) remaining ->
  growRing (length remaining * 2) ring remaining = Ok (ring', rest) ->
  near (List.last ring' d) (List.hd d ring') = true \/
  matchWay (List.last ring' d) rest = Ok None.
Proof.
  intros Hrem E. eapply growRing_stops; [|exact Hrem|exact E].
  destruct remaining; [now right|left; simpl; lia].
Qed.

(** X23: [boundaryToGeoJSON] ends without a throw on every relation, the filter
    keeping only ways that have points; the geometry is a [Polygon] of
    one ring when the outer ways make exactly one ring, and a
    [MultiPolygon] with one polygon per ring otherwise: none at all when
    the relation has no outer way with points. *)
Theorem boundaryToGeoJSON_shape (members : list (Member num)) :
  exists rings,
    assembleRings (outerWays members) = Some (Ok rings) /\
    Forall (fun r => r <> []) rings /\
    boundaryToGeoJSON members
    = Some (Ok (match rings with
                | [r] => Polygon [r]
                | _ => MultiPolygon (map (fun r => [r]) rings)
                end)) /\
    (filter isOuterWay members = [] -> boundaryToGeoJSON members = Some (Ok (MultiPolygon []))).
Proof.
  assert (F : Forall (fun w => w <> []) (outerWays members)).
  { unfold outerWays. apply Forall_forall. intros w Hw. apply in_map_iff in Hw.
    destruct Hw as (m & <- & Hm). apply filter_In in Hm. destruct Hm as [_ Hm].
    unfold isOuterWay in Hm. apply andb_true_iff in Hm. destruct Hm as [_ Hm].
    destruct (m_geometry m) as [[|p g]|]; discriminate. }
  destruct (ringsLoop_spec (length (outerWays members)) (map toCoords (outerWays members)) [])
    as (rings & E & R1 & _).
  - rewrite length_map. lia.
  - now apply toCoords_nonempty.
  - exists rings. simpl in E. unfold boundaryToGeoJSON. unfold assembleRings at 1 2.
    rewrite E. split; [reflexivity|]. split; [assumption|]. split; [reflexivity|].
    intro Hnone. unfold assembleRings, outerWays. rewrite Hnone. reflexivity.
Qed.

End Rings.

(** ** The stored identifier and the stored explorations *)

Section Stored.

Lemma getItem_setItem_same (s : Storage) (k v : string) : getItem (setItem s k v) k = Some v.
Proof.
  induction s as [|[k0 v0] s IH]; simpl.
  - now rewrite String.eqb_refl.
  - destruct (String.eqb k0 k) eqn:E; simpl; rewrite E; [reflexivity|exact IH].
Qed.

Lemma getItem_setItem_other (s : Storage) (k v k' : string) :
  k' <> k -> getItem (setItem s k v) k' = getItem s k'.
Proof.
  intro Hne. induction s as [|[k0 v0] s IH]; simpl.
  - destruct (String.eqb k k') eqn:E; [|reflexivity].
    apply String.eqb_eq in E. congruence.
  - destruct (String.eqb k0 k) eqn:E; simpl.
    + apply String.eqb_eq in E. subst k0.
      destruct (String.eqb k k') eqn:E'; [|reflexivity].
      apply String.eqb_eq in E'. congruence.
    + destruct (String.eqb k0 k'); [reflexivity|exact IH].
Qed.

(** X24: the identifier of the user is stable: [getUserId] returns an
    identifier that is not empty and leaves it in the storage, every later
    call returns the same identifier and leaves the storage as it is, and
    no other key of the storage is touched. *)
Theorem getUserId_is_stable (s : Storage) (fresh fresh' : string) :
  fresh <> ""%string ->
  let id := fst (getUserIdIn s fresh) in
  let s1 := snd (getUserIdIn s fresh) in
  id <> ""%string /\
  id = getUserId (getItem s USER_ID_KEY) fresh /\
  getItem s1 USER_ID_KEY = Some id /\
  getUserIdIn s1 fresh' = (id, s1) /\
  (forall k, k <> USER_ID_KEY -> getItem s1 k = getItem s k).
Proof.
  intros Hf id s1. subst id s1.
  assert (Hset : forall s0, getUserIdIn (setItem s0 USER_ID_KEY fresh) fresh'
                            = (fresh, setItem s0 USER_ID_KEY fresh)).
  { intro s0. unfold getUserIdIn. rewrite getItem_setItem_same.
    now rewrite (truthy_nonempty _ Hf). }
  destruct (getItem s USER_ID_KEY) as [v|] eqn:Hget.
  - destruct (truthy (Some v)) eqn:Ht.
    + assert (E : getUserIdIn s fresh = (v, s)) by (unfold getUserIdIn; now rewrite Hget, Ht).
      rewrite E. cbn [fst snd]. unfold getUserId. rewrite Ht.
      split; [|split; [reflexivity|split; [assumption|split; [|reflexivity]]]].
      * simpl in Ht. apply negb_true_iff in Ht. now apply String.eqb_neq.
      * unfold getUserIdIn. now rewrite Hget, Ht.
    + assert (E : getUserIdIn s fresh = (fresh, setItem s USER_ID_KEY fresh))
        by (unfold getUserIdIn; now rewrite Hget, Ht).
      rewrite E. cbn [fst snd]. unfold getUserId. rewrite Ht.
      split; [assumption|]. split; [reflexivity|].
      split; [apply getItem_setItem_same|].
      split; [apply Hset|intros k Hk; now apply getItem_setItem_other].
  - assert (E : getUserIdIn s fresh = (fresh, setItem s USER_ID_KEY fresh))
      by (unfold getUserIdIn; now rewrite Hget).
    rewrite E. cbn [fst snd]. unfold getUserId.
    split; [assumption|]. split; [reflexivity|].
    split; [apply getItem_setItem_same|].
    split; [apply Hset|intros k Hk; now apply getItem_setItem_other].
Qed.

Lemma rowMatches_key (u c : string) (r : Row) :
  rowMatches u c r = true <-> user_id (r_exploration r) = u /\ city (r_exploration r) = c.
Proof.
  unfold rowMatches. rewrite andb_true_iff, !String.eqb_eq. reflexivity.
Qed.

Lemma filter_map_updated (p : Row -> bool) (f : Row -> Row) (t : list Row) :
  (forall r, p (f r) = p r) ->
  filter p (map f t) = map f (filter p t).
Proof.
  intro H. induction t as [|r t IH]; simpl; [reflexivity|].
  rewrite H. destruct (p r); simpl; now rewrite IH.
Qed.

Lemma saved_is_loaded (table : list Row) (e : Exploration) (now : string) :
  user_id e <> ""%string ->
  length (filter (rowMatches (user_id e) (city e)) table) <= 1 ->
  let table' := saveExploration table e now in
  loadExploration table' (user_id e) (city e) = (explored_way_ids e, badges e) /\
  length (filter (rowMatches (user_id e) (city e)) table') = 1 /\
  (forall u c, (u, c) <> (user_id e, city e) ->
     filter (rowMatches u c) table' = filter (rowMatches u c) table).
Proof.
  intros Hu Hone table'. subst table'. unfold saveExploration.
  rewrite (truthy_nonempty _ Hu). simpl negb. cbv iota.
  set (key := rowMatches (user_id e) (city e)) in *.
  set (upd := fun r : Row =>
         if key r
         then mkRow (mkExploration (user_id (r_exploration r)) (city (r_exploration r))
                       (explored_way_ids e) (total_ways e) (badges e)) now
         else r).
  assert (Hkey : forall u c r, rowMatches u c (upd r) = rowMatches u c r).
  { intros u c r. unfold upd. destruct (key r); reflexivity. }
  destruct (filter key table) as [|r0 [|r1 rest]] eqn:Hf; simpl in Hone; try lia; simpl maybeSingle;
    cbv iota.
  - (* no row: insert *)
    assert (Hnew : key (mkRow e now) = true).
    { unfold key. apply rowMatches_key. simpl. auto. }
    unfold loadExploration. fold key. rewrite filter_app, Hf. simpl. rewrite Hnew. simpl.
    split; [reflexivity|]. split; [reflexivity|].
    intros u c Hne. rewrite filter_app. simpl.
    destruct (rowMatches u c (mkRow e now)) eqn:E; [|now rewrite app_nil_r].
    apply rowMatches_key in E. simpl in E. destruct E as [<- <-]. congruence.
  - (* one row: update *)
    change (map _ table) with (map upd table).
    assert (Hr0 : key r0 = true).
    { assert (Hin : In r0 (filter key table)) by (rewrite Hf; now left).
      apply filter_In in Hin. apply Hin. }
    unfold loadExploration. fold key.
    rewrite (filter_map_updated key upd table) by (intro r; apply Hkey).
    rewrite Hf. simpl. unfold upd at 1 2. rewrite Hr0. simpl.
    split; [reflexivity|]. split; [reflexivity|].
    intros u c Hne. rewrite (filter_map_updated (rowMatches u c) upd table) by (intro r; apply Hkey).
    rewrite <- (map_id (filter (rowMatches u c) table)) at 2.
    apply map_ext_in. intros r Hr. apply filter_In in Hr. destruct Hr as [_ Hr].
    unfold upd. destruct (key r) eqn:Ek; [|reflexivity].
    apply rowMatches_key in Hr. unfold key in Ek. apply rowMatches_key in Ek.
    destruct Hr as [<- <-], Ek as [E1 E2]. congruence.
Qed.

(** X25: what is saved is what is loaded: on a table with at most one row for
    the user and the city, [saveExploration] leaves exactly one such row,
    [loadExploration] then returns the way ids and the badges that were
    saved, and the rows of every other user or city are as they were. *)
Theorem save_then_load (table : list Row) (e : Exploration) (now : string) :
  user_id e <> ""%string ->
  length (filter (rowMatches (user_id e) (city e)) table) <= 1 ->
  let table' := saveExploration table e now in
  loadExploration table' (user_id e) (city e) = (explored_way_ids e, badges e) /\
  length (filter (rowMatches (user_id e) (city e)) table') = 1 /\
  (forall u c, (u, c) <> (user_id e, city e) ->
     filter (rowMatches u c) table' = filter (rowMatches u c) table).
Proof. exact (saved_is_loaded table e now). Qed.

End Stored.

(** ** The projection on a street *)

Section ProjectionFacts.
Context {num : Type} {N : Num num}.
Local Open Scope num_scope.

(** One turn of the loop, read as: the nearest position on the segment,
    the point there, its distance to the fix, and the test. *)
Lemma projectStep_turn (px py total : num) (st : ProjState num) seg segLen :
  let l := localTOf px py (cosLatOf py) seg segLen in
  let q := interpAt seg l in
  let dist := distTo px py q in
  projectStep px py (cosLatOf py) total st (seg, segLen)
  = if xlt dist (bestDist st)
    then mkProjState (Fin dist)
           (if total >? of_Z 0 then (cumDist st + l * segLen) / total else of_Z 0)
           (fst q) (snd q) (cumDist st + segLen)
    else mkProjState (bestDist st) (bestT st) (bestLon st) (bestLat st) (cumDist st + segLen).
Proof.
  destruct seg as [[ax ay] [bx by_]]. cbv zeta.
  unfold projectStep, localTOf, interpAt, distTo, distancePointToPoint. cbn [fst snd].
  destruct (segLen >? of_Z 0); destruct (xlt _ (bestDist st)); reflexivity.
Qed.

Lemma projectOntoLineString_fold (px py : num) (coords : list (Coord num)) p :
  projectOntoLineString px py coords = Ok p ->
  coords <> [] /\
  let total := totalOf (segLengthsOf (cosLatOf py) coords) in
  let final := fold_left (projectStep px py (cosLatOf py) total)
                 (measured (cosLatOf py) coords) (projectInit coords) in
  p = mkProjection (bestT final) (bestLon final) (bestLat final) (bestDist final).
Proof.
  unfold projectOntoLineString. destruct coords as [|[lon0 lat0] rest]; [discriminate|].
  intro H. injection H as <-. split; [discriminate|reflexivity].
Qed.

(** What the loop keeps whatever the numbers are: the distance it holds
    is the distance from the fix to the point it holds, and as long as it
    holds no distance it holds the start values. *)
Lemma project_fold_distance (px py total : num) segs : forall st st0,
  (match bestDist st with
   | Fin d => d = distTo px py (bestLon st, bestLat st)
   | Infinity => bestT st = bestT st0 /\ bestLon st = bestLon st0 /\ bestLat st = bestLat st0
   end) ->
  let final := fold_left (projectStep px py (cosLatOf py) total) segs st in
  match bestDist final with
  | Fin d => d = distTo px py (bestLon final, bestLat final)
  | Infinity =>
      bestT final = bestT st0 /\ bestLon final = bestLon st0 /\ bestLat final = bestLat st0
  end.
Proof.
  induction segs as [|[seg segLen] segs IH]; intros st st0 H; cbn [fold_left]; [exact H|].
  apply IH. rewrite projectStep_turn. cbv zeta.
  destruct (xlt _ (bestDist st)); simpl; [|exact H].
  destruct (interpAt _ _); reflexivity.
Qed.

(** X15: the distance that [projectOntoLineString] reports is the distance of
    the source from the fix to the snapped point it reports; when it
    reports [Infinity], the snapped point is the first vertex and [t] is
    0. *)
Theorem projection_distance_is_to_snapped (px py : num) (coords : list (Coord num)) p :
  projectOntoLineString px py coords = Ok p ->
  match p_distance p with
  | Fin d => d = distancePointToPoint px py (p_lon p) (p_lat p)
  | Infinity => p_t p = of_Z 0 /\ Some (p_lon p, p_lat p) = hd_error coords
  end.
Proof.
  intro H. destruct (projectOntoLineString_fold _ _ _ _ H) as [Hne E]. cbv zeta in E.
  pose proof (project_fold_distance px py (totalOf (segLengthsOf (cosLatOf py) coords))
                (measured (cosLatOf py) coords) (projectInit coords) (projectInit coords)) as F.
  cbv zeta in F. rewrite E. cbn [p_distance p_lon p_lat p_t].
  destruct (bestDist (fold_left _ _ _)).
  - apply F. simpl. auto.
  - destruct F as (F1 & F2 & F3); [simpl; auto|]. rewrite F1, F2, F3.
    destruct coords as [|[lon0 lat0] rest]; [congruence|]. split; reflexivity.
Qed.

End ProjectionFacts.

(** *** The nearest candidate *)

Section NearestCandidate.
Context {num : Type} {N : Num num} {O : NumOrder N}.
Local Open Scope num_scope.

Variables px py total : num.
Variable coords : list (Coord num).

Lemma projectStep_leads pre seg len rest st :
  let all := pre ++ (seg, len) :: rest in
  projLeads px py total coords all (length pre) st ->
  projLeads px py total coords all (S (length pre))
    (projectStep px py (cosLatOf py) total st (seg, len)).
Proof.
  intros all H. unfold projLeads in H. cbv zeta in H. destruct H as [Hcum Hbest].
  assert (Hnth : nth (length pre) all dfltSeg = (seg, len))
    by (subst all; rewrite app_nth2, Nat.sub_diag by lia; reflexivity).
  assert (Hcand : candidateAt px py all (length pre)
                  = interpAt seg (localTOf px py (cosLatOf py) seg len))
    by (unfold candidateAt; now rewrite Hnth).
  assert (HT : candidateT px py total all (length pre)
               = if total >? of_Z 0
                 then (cumDist st + localTOf px py (cosLatOf py) seg len * len) / total
                 else of_Z 0)
    by (unfold candidateT; now rewrite Hnth, Hcum).
  assert (Hnext : cumDist st + len = cumDistAt (map snd all) (S (length pre)))
    by (rewrite Hcum; unfold all; now rewrite cum_after_prefix, cum_prefix).
  rewrite projectStep_turn. cbv zeta. rewrite <- Hcand.
  unfold projLeads in *. cbv zeta in *.
  destruct (bestDist st) as [d|] eqn:Hb; cbn [xlt].
  - destruct Hbest as (i & Hi & Hd & Hq & Ht & Hmin & Hfirst).
    destruct (distTo px py (candidateAt px py all (length pre)) <? d) eqn:Hlt;
      cbn [cumDist bestDist bestT bestLon bestLat].
    + split; [exact Hnext|]. exists (length pre). split; [lia|]. split; [reflexivity|].
      split; [now destruct (candidateAt px py all (length pre))|].
      split; [now rewrite HT|]. split.
      * intros j Hj. destruct (Nat.eq_dec j (length pre)) as [-> | Hne]; [apply ltb_irrefl|].
        destruct (distTo px py (candidateAt px py all j)
                  <? distTo px py (candidateAt px py all (length pre))) eqn:E; [|reflexivity].
        pose proof (ltb_trans _ _ _ E Hlt) as C.
        rewrite (Hmin j ltac:(lia)) in C. discriminate.
      * intros j Hj.
        destruct (lt_Infinity (distTo px py (candidateAt px py all j))) eqn:Hinf; [|now right].
        destruct (ltb_cotrans _ _ _ Hlt Hinf) as [H | H]; [now left|].
        rewrite (Hmin j ltac:(lia)) in H. discriminate.
    + split; [exact Hnext|]. exists i. split; [lia|]. split; [exact Hd|].
      split; [exact Hq|]. split; [exact Ht|]. split; [|exact Hfirst].
      intros j Hj. destruct (Nat.eq_dec j (length pre)) as [-> | Hne]; [exact Hlt|].
      apply Hmin. lia.
  - destruct Hbest as (Ht & Hq & Hnone).
    destruct (lt_Infinity (distTo px py (candidateAt px py all (length pre)))) eqn:Hlt;
      cbn [cumDist bestDist bestT bestLon bestLat].
    + split; [exact Hnext|]. exists (length pre). split; [lia|]. split; [reflexivity|].
      split; [now destruct (candidateAt px py all (length pre))|].
      split; [now rewrite HT|]. split.
      * intros j Hj. destruct (Nat.eq_dec j (length pre)) as [-> | Hne]; [apply ltb_irrefl|].
        destruct (distTo px py (candidateAt px py all j)
                  <? distTo px py (candidateAt px py all (length pre))) eqn:E; [|reflexivity].
        apply ltb_below_Infinity in E. rewrite (Hnone j ltac:(lia)) in E. discriminate.
      * intros j Hj. right. apply Hnone. exact Hj.
    + split; [exact Hnext|]. split; [exact Ht|]. split; [exact Hq|].
      intros j Hj. destruct (Nat.eq_dec j (length pre)) as [-> | Hne]; [exact Hlt|].
      apply Hnone. lia.
Qed.

Lemma project_fold_leads rest : forall pre st,
  projLeads px py total coords (pre ++ rest) (length pre) st ->
  projLeads px py total coords (pre ++ rest) (length (pre ++ rest))
    (fold_left (projectStep px py (cosLatOf py) total) rest st).
Proof.
  induction rest as [|[seg len] rest IH]; intros pre st H; cbn [fold_left].
  - now rewrite app_nil_r in *.
  - pose proof (projectStep_leads pre seg len rest st H) as H1. cbv zeta in H1.
    replace (pre ++ (seg, len) :: rest) with ((pre ++ [(seg, len)]) ++ rest) in *
      by (now rewrite <- app_assoc).
    apply IH. rewrite length_app. simpl. rewrite Nat.add_1_r. exact H1.
Qed.

End NearestCandidate.

Section NearestCandidateSpec.
Context {num : Type} {N : Num num} {O : NumOrder N}.
Local Open Scope num_scope.

(** X16: on a street that has a vertex, the projection reports the
    candidate of one segment, the point that the loop computes as the
    nearest on it: its distance to the fix, its coordinates and its [t],
    [(cumDist + localT * segLen) / total], or 0 when the total is not
    above zero.  No candidate is at a smaller distance, and every
    candidate of an earlier segment is at a greater one or at one that
    does not compare below [Infinity].  It reports [Infinity] only when no
    candidate compares below [Infinity]. *)
Theorem projection_is_first_nearest_candidate (px py : num) (coords : list (Coord num)) :
  coords <> [] ->
  let segs := measured (cosLatOf py) coords in
  let total := totalOf (segLengthsOf (cosLatOf py) coords) in
  let dist j := distTo px py (candidateAt px py segs j) in
  exists p,
    projectOntoLineString px py coords = Ok p /\
    match p_distance p with
    | Infinity => forall j, (j < length segs)%nat -> lt_Infinity (dist j) = false
    | Fin d =>
        exists i, (i < length segs)%nat /\ d = dist i /\
          (p_lon p, p_lat p) = candidateAt px py segs i /\
          p_t p = candidateT px py total segs i /\
          (forall j, (j < length segs)%nat -> (dist j <? d) = false) /\
          (forall j, (j < i)%nat -> (d <? dist j) = true \/ lt_Infinity (dist j) = false)
    end.
Proof.
  intros Hne segs total dist.
  destruct (projection_defined px py coords Hne) as [p Hp].
  exists p. split; [exact Hp|].
  destruct (projectOntoLineString_fold _ _ _ _ Hp) as [_ E]. cbv zeta in E.
  fold total in E. fold segs in E.
  pose proof (project_fold_leads px py total coords segs [] (projectInit coords)) as L.
  simpl app in L. simpl length in L.
  destruct L as [_ L].
  { split; [reflexivity|]. unfold projectInit. simpl.
    split; [reflexivity|]. split; [|intros j Hj; lia].
    destruct coords as [|[lon0 lat0] rest]; [congruence|reflexivity]. }
  rewrite E. cbn [p_distance p_lon p_lat p_t].
  destruct (bestDist (fold_left _ segs (projectInit coords))) as [d|].
  - exact L.
  - destruct L as (_ & _ & L). exact L.
Qed.

End NearestCandidateSpec.

(** ** The progress interval *)

Section ProgressIntervalFacts.
Context {num : Type} {N : Num num} {O : NumOrder N}.
Local Open Scope num_scope.

Lemma ltb_false_trans (a b c : num) :
  (a <? b) = false -> (c <? b) = true -> (a <? c) = false.
Proof.
  intros H1 H2. destruct (a <? c) eqn:E; [|reflexivity].
  rewrite (ltb_trans _ _ _ E H2) in H1. discriminate.
Qed.

Lemma ltb_false_trans_r (a b c : num) :
  (b <? a) = false -> (b <? c) = true -> (c <? a) = false.
Proof.
  intros H1 H2. destruct (c <? a) eqn:E; [|reflexivity].
  rewrite (ltb_trans _ _ _ H2 E) in H1. discriminate.
Qed.

Lemma coverStep_within sLon sLat (cov : SegmentCoverage num) touched i s :
  nth_error (samples cov) i = Some s -> withinProgress cov ->
  withinProgress (fst (coverStep sLon sLat (cov, touched) i s)).
Proof.
  intros Hs W. unfold coverStep.
  destruct (nth i (covered cov) false) eqn:Hci; [exact W|].
  destruct (num_leb _ _); [|exact W].
  assert (Step : forall lo hi,
            (s_t s <? lo) = false -> (hi <? s_t s) = false ->
            (forall s', (s_t s' <? minCoveredT cov) = false -> (s_t s' <? lo) = false) ->
            (forall s', (maxCoveredT cov <? s_t s') = false -> (hi <? s_t s') = false) ->
            withinProgress (mkCov (wayId cov) (featureIndex cov) (coords cov)
                              (samples cov) (array_set (covered cov) i true)
                              (validated cov) lo hi)).
  { intros lo hi H1 H2 H3 H4 j s' Hs' Hc. unfold isCovered in Hc. cbn in Hs', Hc |- *.
    destruct (Nat.eq_dec i j) as [<- | Hne].
    - assert (s' = s) by congruence. subst s'. auto.
    - rewrite array_set_other in Hc by assumption.
      destruct (W j s' Hs' Hc) as [W1 W2]. auto. }
  unfold set_minCoveredT, set_maxCoveredT, set_covered.
  cbn [fst minCoveredT maxCoveredT wayId featureIndex coords samples covered validated].
  destruct (s_t s <? minCoveredT cov) eqn:H1;
    cbn [fst minCoveredT maxCoveredT wayId featureIndex coords samples covered validated];
    destruct (maxCoveredT cov <? s_t s) eqn:H2;
    cbn [fst minCoveredT maxCoveredT wayId featureIndex coords samples covered validated];
    apply Step; auto using ltb_irrefl; intros s' Hs'.
  - now apply ltb_false_trans with (b := minCoveredT cov).
  - now apply ltb_false_trans_r with (b := maxCoveredT cov).
  - now apply ltb_false_trans with (b := minCoveredT cov).
  - now apply ltb_false_trans_r with (b := maxCoveredT cov).
Qed.

Lemma coverLoop_within sLon sLat (ss : list (Sample num)) : forall i acc,
  (forall k s, nth_error ss k = Some s ->
     nth_error (samples (fst acc)) (i + k) = Some s) ->
  withinProgress (fst acc) ->
  withinProgress (fst (coverLoop sLon sLat ss i acc)).
Proof.
  induction ss as [|s0 rest IH]; intros i acc Hs W; simpl; [exact W|].
  destruct (coverStep_frame sLon sLat acc i s0) as (_ & _ & _ & Hsam & _). cbv zeta in Hsam.
  apply IH.
  - intros k s Hk. rewrite Hsam. replace (S i + k)%nat with (i + S k)%nat by lia.
    now apply Hs.
  - destruct acc as [cov touched]. apply coverStep_within; [|exact W].
    specialize (Hs 0%nat s0 eq_refl). now rewrite Nat.add_0_r in Hs.
Qed.

Lemma markCovered_within (cov : SegmentCoverage num) sLon sLat cov' touched :
  markCovered cov sLon sLat = (cov', touched) -> withinProgress cov -> withinProgress cov'.
Proof.
  unfold markCovered. intros H W.
  pose proof (coverLoop_within sLon sLat (samples cov) 0 (cov, false)) as G.
  rewrite H in G. apply G; [|exact W]. intros k s Hk. exact Hk.
Qed.

Lemma buildCoverages_within (features : list (Feature num)) : forall idx covs,
  buildCoverages features idx = Some covs -> Forall withinProgress covs.
Proof.
  induction features as [|f rest IH]; intros idx covs H; cbn [buildCoverages] in H.
  - injection H as <-. constructor.
  - destruct (sampleLineStringWithT (f_coordinates f) SAMPLE_STEP_METERS) as [ss|] eqn:Es;
      [|discriminate].
    destruct (buildCoverages rest (S idx)) eqn:E; [|discriminate].
    injection H as <-. constructor; [|eapply IH; eauto].
    intros i s _ Hc. unfold isCovered in Hc. cbn [covered] in Hc.
    rewrite nth_repeat in Hc. discriminate.
Qed.

Lemma restored_shape (c : SegmentCoverage num) : isRestored (restored c).
Proof.
  unfold isRestored, restored. simpl. repeat split.
  apply Forall_forall. intros b Hb. apply in_map_iff in Hb. now destruct Hb as (_ & <- & _).
Qed.

Lemma reachable_within cityName (st : Engine num) :
  reachable cityName st ->
  Forall (fun c => withinProgress c \/ isRestored c) (segmentCoverages st).
Proof.
  induction 1 as [ | st uid R0 IH Hu | st uid streets savedIds savedBadges st' R0 IH Hu Hl
                   | st f R0 IH ].
  - constructor.
  - exact IH.
  - unfold mapLoad in Hl.
    destruct (buildCoverages (streetsToGeoJSON streets) 0) as [covs|] eqn:Hb; [|discriminate].
    injection Hl as <-. simpl.
    apply fold_restoreFirst_Forall.
    + eapply Forall_impl; [|exact (buildCoverages_within _ _ _ Hb)]. intros c Hc. now left.
    + intros c _ _. right. apply restored_shape.
  - unfold processFix.
    destruct (afterFix_coverages cityName (fix_ready f) (fix_lon f) (fix_lat f) st)
      as [[E _] | (i0 & cov & cov' & touched & sLon & sLat & Hc & Hv & Hm & Hcase)].
    + now rewrite E.
    + assert (W : withinProgress cov).
      { rewrite Forall_forall in IH. destruct (IH cov) as [W | (Hval & _)].
        - eapply nth_error_In; eauto.
        - exact W.
        - congruence. }
      pose proof (markCovered_within _ _ _ _ _ Hm W) as W'.
      destruct Hcase as [[E _] | [E _]]; rewrite E; apply Forall_replace_at; auto.
Qed.

(** X6: in every state of a session, every entry is as the restore block
    leaves it, validated with every sample covered and the interval from
    0 to 1, or has every covered sample within its progress interval: the
    [t] of none is below [minCoveredT] or above [maxCoveredT]. *)
Theorem covered_samples_within_progress cityName (st : Engine num) c :
  reachable cityName st -> In c (segmentCoverages st) ->
  withinProgress c \/ isRestored c.
Proof.
  intros R0 Hin. pose proof (reachable_within _ _ R0) as F.
  rewrite Forall_forall in F. exact (F c Hin).
Qed.

End ProgressIntervalFacts.

(** ** From one session to the next *)

Section SetsAsLists.
Variable K : Type.
Variable eqb : K -> K -> bool.
Hypothesis eqb_eq : forall a b, eqb a b = true <-> a = b.

Lemma set_has_false_notin (s : list K) (k : K) : set_has eqb s k = false -> ~ In k s.
Proof.
  unfold set_has. intros H Hin.
  assert (E : existsb (eqb k) s = true).
  { apply existsb_exists. exists k. split; [exact Hin|]. now apply eqb_eq. }
  congruence.
Qed.

Lemma set_has_true_in (s : list K) (k : K) : set_has eqb s k = true -> In k s.
Proof.
  unfold set_has. intro H. apply existsb_exists in H. destruct H as (x & Hx & E).
  apply eqb_eq in E. now subst.
Qed.

Lemma set_add_NoDup (s : list K) (k : K) : NoDup s -> NoDup (set_add eqb s k).
Proof.
  intro H. unfold set_add. destruct (set_has eqb s k) eqn:E; [exact H|].
  apply set_has_false_notin in E.
  apply NoDup_app; [exact H|constructor; [intros []|constructor]|].
  intros x Hx [<- | []]. contradiction.
Qed.

Lemma fold_set_add_NoDup (l s : list K) : NoDup s -> NoDup (fold_left (set_add eqb) l s).
Proof.
  revert s; induction l as [|k l IH]; intros s H; simpl; [exact H|].
  apply IH. now apply set_add_NoDup.
Qed.

(** Adding, one by one, distinct elements that are not in the set puts
    them at its end, in their order. *)
Lemma fold_set_add_fresh (l : list K) : forall s,
  NoDup l -> (forall x, In x l -> ~ In x s) -> fold_left (set_add eqb) l s = s ++ l.
Proof.
  induction l as [|k l IH]; intros s Hnd Hfresh; simpl; [now rewrite app_nil_r|].
  inversion Hnd as [|? ? Hk Hnd']; subst.
  assert (E : set_add eqb s k = s ++ [k]).
  { unfold set_add. destruct (set_has eqb s k) eqn:Hh; [|reflexivity].
    apply set_has_true_in in Hh. exfalso. apply (Hfresh k); [now left|exact Hh]. }
  rewrite E, IH; [now rewrite <- app_assoc|exact Hnd'|].
  intros x Hx Hin. apply in_app_iff in Hin. destruct Hin as [Hin | [<- | []]].
  - apply (Hfresh x); [now right|exact Hin].
  - contradiction.
Qed.

End SetsAsLists.

Section Restart.
Context {num : Type} {N : Num num}.

Lemma reachable_NoDup cityName (st : Engine num) :
  reachable cityName st -> NoDup (validatedWayIds st) /\ NoDup (unlockedBadges st).
Proof.
  induction 1 as [ | st uid R IH Hu | st uid streets savedIds savedBadges st' R IH Hu Hl
                   | st f R IH ].
  - split; constructor.
  - exact IH.
  - unfold mapLoad in Hl.
    destruct (buildCoverages (streetsToGeoJSON streets) 0) as [covs|] eqn:Hb; [|discriminate].
    injection Hl as <-. simpl. destruct IH as [I1 I2]. split.
    + apply fold_set_add_NoDup; [apply Z.eqb_eq|exact I1].
    + apply fold_set_add_NoDup; [apply String.eqb_eq|exact I2].
  - unfold processFix. destruct IH as [I1 I2].
    destruct (afterFix_books cityName (fix_ready f) (fix_lon f) (fix_lat f) st)
      as [[Hb _] | (features & i & cov & st3 & Hg & Hb & E & _)].
    + destruct Hb as (_ & _ & -> & -> & _). auto.
    + rewrite E. destruct (validateSegment_books cityName features i cov st3) as (-> & -> & _).
      destruct Hb as (_ & _ & -> & -> & _). split.
      * apply set_add_NoDup; [apply Z.eqb_eq|exact I1].
      * set (new := newBadgesOf _ _). clearbody new. revert I2.
        generalize (unlockedBadges st).
        induction new as [|b new IHn]; intros u Hu; simpl; [exact Hu|].
        apply IHn. apply set_add_NoDup; [apply String.eqb_eq|exact Hu].
Qed.

Lemma runFixes_keeps_session cityName fixes : forall st : Engine num,
  geojson (runFixes cityName fixes st) = geojson st.
Proof.
  induction fixes as [|f fixes IH]; intro st; simpl; [reflexivity|].
  rewrite IH. unfold processFix.
  apply (afterFix_keeps_session cityName (fix_ready f) (fix_lon f) (fix_lat f) st).
Qed.

Lemma skeleton_wayIds (covs covs' : list (SegmentCoverage num)) :
  map skeleton covs = map skeleton covs' -> map wayId covs = map wayId covs'.
Proof.
  intro H. apply (f_equal (map (fun k : Z * nat * list (Coord num) * list (Sample num) =>
                                  fst (fst (fst k))))) in H.
  rewrite !map_map in H. exact H.
Qed.

Lemma restart_restores cityName uid (streets : list (OverpassWay num))
    savedIds savedBadges fixes (st : Engine num) :
  uid <> ""%string ->
  sessionAfter cityName uid streets savedIds savedBadges fixes = Some st ->
  exists st2,
    mapLoad uid streets (validatedWayIds st) (unlockedBadges st) initialEngine = Some st2 /\
    validatedWayIds st2 = validatedWayIds st /\
    unlockedBadges st2 = unlockedBadges st /\
    savedCount st2 = set_size (validatedWayIds st) /\
    map skeleton (segmentCoverages st2) = map skeleton (segmentCoverages st) /\
    forall c, In c (segmentCoverages st) -> validated c = true ->
      exists c2, In c2 (segmentCoverages st2) /\ wayId c2 = wayId c /\ isRestored c2.
Proof.
  intros Hu Hs.
  pose proof (sessionAfter_reachable _ _ _ _ _ _ _ Hu Hs) as R.
  destruct (reachable_NoDup _ _ R) as [N1 N2].
  unfold sessionAfter in Hs.
  destruct (mapLoad uid streets savedIds savedBadges initialEngine) as [st0|] eqn:Hl;
    [|discriminate].
  injection Hs as Hst.
  assert (Hg : geojson st = Some (streetsToGeoJSON streets)).
  { rewrite <- Hst, runFixes_keeps_session. unfold mapLoad in Hl.
    destruct (buildCoverages (streetsToGeoJSON streets) 0); [|discriminate].
    injection Hl as <-. reflexivity. }
  destruct (reachable_skeleton _ _ R _ Hg) as (covs0 & Hb & Hsk).
  unfold mapLoad. rewrite Hb. eexists. split; [reflexivity|]. simpl.
  split; [apply (fold_set_add_fresh Z Z.eqb Z.eqb_eq _ [] N1); intros x _ []|].
  split; [apply (fold_set_add_fresh string String.eqb String.eqb_eq _ [] N2); intros x _ []|].
  split; [reflexivity|].
  split; [now rewrite fold_restoreFirst_skeleton|].
  intros c Hin Hv. apply fold_restoreFirst_known.
  - pose proof (reachable_validated_in_set _ _ R) as F. rewrite Forall_forall in F. now apply F.
  - rewrite <- (skeleton_wayIds _ _ Hsk). now apply in_map.
Qed.

(** X13: what a session leaves is what the next one starts from: loading the
    same streets with the validated set and the unlocked badges of a
    session as the stored exploration gives back both sets, element for
    element and in order, a saved count equal to the size of the validated
    set, the same entries for the same streets, and a validated, fully
    covered entry for the way of every entry that was validated. *)
Theorem restart_restores_the_session cityName uid (streets : list (OverpassWay num))
    savedIds savedBadges fixes (st : Engine num) :
  uid <> ""%string ->
  sessionAfter cityName uid streets savedIds savedBadges fixes = Some st ->
  exists st2,
    mapLoad uid streets (validatedWayIds st) (unlockedBadges st) initialEngine = Some st2 /\
    validatedWayIds st2 = validatedWayIds st /\
    unlockedBadges st2 = unlockedBadges st /\
    savedCount st2 = set_size (validatedWayIds st) /\
    map skeleton (segmentCoverages st2) = map skeleton (segmentCoverages st) /\
    forall c, In c (segmentCoverages st) -> validated c = true ->
      exists c2, In c2 (segmentCoverages st2) /\ wayId c2 = wayId c /\ isRestored c2.
Proof. exact (restart_restores cityName uid streets savedIds savedBadges fixes st). Qed.

End Restart.

(** ** The explored layer *)

Section Explored.
Context {num : Type} {N : Num num}.

Lemma validateSegment_exploredData cityName features i cov (st : Engine num) :
  exploredData (validateSegment cityName features i cov st)
  = filter (fun f => set_has Z.eqb (set_add Z.eqb (validatedWayIds st) (wayId cov)) (f_id f))
           features.
Proof.
  unfold validateSegment. repeat break_match; reflexivity.
Qed.

(** When the explored layer is the streets whose id is in the validated
    set, it shows the street of every validated entry. *)
Lemma explored_filter_shown cityName (st : Engine num) features :
  reachable cityName st -> geojson st = Some features ->
  exploredData st = filter (fun f => set_has Z.eqb (validatedWayIds st) (f_id f)) features ->
  exploredShown st.
Proof.
  intros R Hg He features' i c f Hg' Hc Hv Hf.
  assert (features' = features) by congruence. subst features'.
  rewrite He. apply filter_In. split; [eapply nth_error_In; eauto|].
  apply set_has_In.
  destruct (reachable_bound _ _ _ R Hg) as [_ Hb].
  destruct (Hb i c Hc) as (f' & Hf' & Hw & _).
  assert (f' = f) by congruence. subst f'. rewrite <- Hw.
  pose proof (reachable_validated_in_set _ _ R) as F. rewrite Forall_forall in F.
  apply F; [eapply nth_error_In; eauto|exact Hv].
Qed.

Lemma nth_error_replace_at (covs : list (SegmentCoverage num)) i0 x i c :
  nth_error (replace_at covs i0 x) i = Some c ->
  nth_error covs i = Some c \/ (i = i0 /\ c = x).
Proof.
  revert i0 i; induction covs as [|y tl IH]; intros [|i0] [|i] H; simpl in *;
    try discriminate; auto.
  - injection H as <-. now right.
  - destruct (IH _ _ H) as [? | [-> ->]]; auto.
Qed.

Lemma reachable_exploredShown cityName (st : Engine num) :
  reachable cityName st -> exploredShown st.
Proof.
  induction 1 as [ | st uid R IH Hu | st uid streets savedIds savedBadges st' R IH Hu Hl
                   | st f R IH ].
  - intros features i c f Hg. discriminate.
  - exact IH.
  - assert (R' : reachable cityName st') by (eapply reach_load; eauto).
    unfold mapLoad in Hl.
    destruct (buildCoverages (streetsToGeoJSON streets) 0) as [covs|] eqn:Hb; [|discriminate].
    injection Hl as Hst'.
    destruct savedIds as [|id0 ids].
    + (* nothing stored: no entry is validated *)
      intros features i c f0 Hg Hc Hv Hf. exfalso. rewrite <- Hst' in Hc. simpl in Hc.
      pose proof (buildCoverages_fresh _ _ _ Hb) as F. rewrite Forall_forall in F.
      destruct (F c (nth_error_In _ _ Hc)) as [_ Hn]. congruence.
    + apply (explored_filter_shown cityName st' (streetsToGeoJSON streets) R');
        rewrite <- Hst'; reflexivity.
  - assert (R' : reachable cityName (processFix cityName st f)) by (now apply reach_fix).
    unfold processFix in *.
    destruct (afterFix_books cityName (fix_ready f) (fix_lon f) (fix_lat f) st)
      as [[Hb Hno] | (features & i & cov & st3 & Hg & Hb & E & _)].
    + intros features i c f0 Hg Hc Hv Hf.
      destruct Hb as (Hgeo & _ & _ & _ & _ & _ & _ & _ & Hed & _).
      rewrite Hed. rewrite Hgeo in Hg.
      destruct (afterFix_coverages cityName (fix_ready f) (fix_lon f) (fix_lat f) st)
        as [[Ecov _] | (i0 & cov & cov' & touched & sLon & sLat & Hc0 & Hv0 & Hm & Hcase)].
      * rewrite Ecov in Hc. exact (IH features i c f0 Hg Hc Hv Hf).
      * destruct (markCovered_frame _ _ _ _ _ Hm) as (_ & _ & _ & _ & Hval).
        destruct Hcase as [[Ecov _] | [Ecov _]]; rewrite Ecov in Hc;
          destruct (nth_error_replace_at _ _ _ _ _ Hc) as [Hold | [-> ->]].
        -- exact (IH features i c f0 Hg Hold Hv Hf).
        -- congruence.
        -- exact (IH features i c f0 Hg Hold Hv Hf).
        -- exfalso. apply Hno. exists i0, cov, (set_validated cov' true).
           repeat split; auto. rewrite Ecov.
           apply (nth_error_replace_at_same _ _ _ _ Hc0).
    + assert (Hg' : geojson (afterFix cityName (fix_ready f) (fix_lon f) (fix_lat f) st)
                    = Some features).
      { rewrite (proj1 (afterFix_keeps_session cityName (fix_ready f) (fix_lon f) (fix_lat f) st)).
        exact Hg. }
      apply (explored_filter_shown cityName _ features R' Hg').
      rewrite E, validateSegment_exploredData, validateSegment_validatedWayIds. reflexivity.
Qed.

(** X8: in every state of a session, the explored layer of the map holds the
    street of every validated entry. *)
Theorem validated_streets_are_on_the_map cityName (st : Engine num) features i c f :
  reachable cityName st -> geojson st = Some features ->
  nth_error (segmentCoverages st) i = Some c -> validated c = true ->
  nth_error features i = Some f ->
  In f (exploredData st).
Proof.
  intros R Hg Hc Hv Hf. exact (reachable_exploredShown cityName st R features i c f Hg Hc Hv Hf).
Qed.

End Explored.

(** ** A fix that is not a number, on binary64 values *)

Section NaNFix.
Local Open Scope float_scope.

Lemma SFcompare_refl x : x <> S754_nan -> SFcompare x x = Some Eq.
Proof.
  destruct x as [[]|[]| |[] m e]; simpl; intro H; try reflexivity; try congruence.
  - rewrite Z.compare_refl.
    change (PosDef.Pos.compare_cont Eq m m) with (Pos.compare m m).
    now rewrite Pos.compare_refl.
  - rewrite Z.compare_refl.
    change (PosDef.Pos.compare_cont Eq m m) with (Pos.compare m m).
    now rewrite Pos.compare_refl.
Qed.

Lemma is_nan_isNaN (x : float) : is_nan x = true <-> isNaN x.
Proof.
  unfold is_nan, isNaN. rewrite FloatAxioms.eqb_spec. unfold SFeqb. split.
  - intro H. destruct (Prim2SF x) as [s|s| |s m e] eqn:E; try reflexivity;
      rewrite SFcompare_refl in H by discriminate; discriminate.
  - intros ->. reflexivity.
Qed.

Lemma sub_nan_l (a b : float) : isNaN a -> isNaN (a - b).
Proof. unfold isNaN. intro H. now rewrite FloatAxioms.sub_spec, H. Qed.

Lemma mul_nan_l (a b : float) : isNaN a -> isNaN (a * b).
Proof. unfold isNaN. intro H. now rewrite FloatAxioms.mul_spec, H. Qed.

Lemma add_nan_l (a b : float) : isNaN a -> isNaN (a + b).
Proof. unfold isNaN. intro H. now rewrite FloatAxioms.add_spec, H. Qed.

Lemma add_nan_r (a b : float) : isNaN b -> isNaN (a + b).
Proof.
  unfold isNaN. intro H. rewrite FloatAxioms.add_spec, H.
  destruct (Prim2SF a) as [[]|[]| |[] m e]; reflexivity.
Qed.

Lemma sqrt_nan (a : float) : isNaN a -> isNaN (PrimFloat.sqrt a).
Proof. unfold isNaN. intro H. now rewrite FloatAxioms.sqrt_spec, H. Qed.

Lemma ltb_nan_l (a b : float) : isNaN a -> (a <? b) = false.
Proof. unfold isNaN. intro H. now rewrite FloatAxioms.ltb_spec, H. Qed.

(** The distance from a fix that is not a number is not a number. *)
Lemma distance_from_nan (px py qx qy : float) :
  isNaN px \/ isNaN py -> isNaN (distancePointToPoint px py qx qy).
Proof.
  intro H. unfold distancePointToPoint.
  cbn [num_add num_sub num_mul Math_sqrt F64.num].
  apply sqrt_nan. destruct H as [H | H].
  - apply add_nan_l. do 3 apply mul_nan_l. now apply sub_nan_l.
  - apply add_nan_r. do 2 apply mul_nan_l. now apply sub_nan_l.
Qed.

Lemma project_fold_nan (px py total : float) segs : forall st,
  isNaN px \/ isNaN py -> bestDist st = Infinity ->
  bestDist (fold_left (projectStep px py (cosLatOf py) total) segs st) = Infinity.
Proof.
  induction segs as [|[seg len] segs IH]; intros st Hn Hb; cbn [fold_left]; [exact Hb|].
  apply IH; [exact Hn|]. rewrite projectStep_turn. cbv zeta. rewrite Hb.
  cbn [xlt lt_Infinity F64.num]. unfold distTo.
  rewrite ltb_nan_l by (now apply distance_from_nan). reflexivity.
Qed.

Lemma projection_from_nan (px py : float) (coords : list (Coord float)) :
  isNaN px \/ isNaN py ->
  projectOntoLineString px py coords = TypeError \/
  exists p, projectOntoLineString px py coords = Ok p /\ p_distance p = Infinity.
Proof.
  intro Hn. unfold projectOntoLineString. destruct coords as [|[lon0 lat0] rest]; [now left|].
  right. eexists. split; [reflexivity|]. cbn [p_distance].
  now apply project_fold_nan.
Qed.

Lemma nearestLoop_nan (lon lat : float) covs : forall i st,
  isNaN lon \/ isNaN lat ->
  nearestLoop lon lat covs i st = TypeError \/ nearestLoop lon lat covs i st = Ok st.
Proof.
  induction covs as [|c rest IH]; intros i st Hn; cbn [nearestLoop]; [now right|].
  unfold nearestStep.
  destruct (projection_from_nan lon lat (coords c) Hn) as [-> | (p & -> & Hp)]; [now left|].
  cbn [bind]. rewrite Hp. cbn [xltx bind]. now apply IH.
Qed.

(** X14: a fix whose longitude or latitude is [NaN] matches no street: the
    handler changes nothing but the marker position. *)
Theorem nan_fix_changes_nothing cityName ready (lon lat : float) (st : Engine float) :
  is_nan lon = true \/ is_nan lat = true ->
  sameEngineState (afterFix cityName ready lon lat st) st.
Proof.
  intro H.
  assert (Hn : isNaN lon \/ isNaN lat) by (destruct H; [left|right]; now apply is_nan_isNaN).
  unfold afterFix, updatePosition.
  destruct ready; cbn [negb]; [|apply sameEngineState_refl].
  destruct (geojson st) as [features|]; [|apply sameEngineState_refl].
  destruct (length (segmentCoverages st) =? 0)%nat eqn:El; [apply sameEngineState_refl|].
  unfold findNearestSegment. rewrite El.
  destruct (nearestLoop_nan lon lat (segmentCoverages st) 0
              (mkNearState Infinity None (of_Z 0) lon lat) Hn) as [-> | ->];
    cbn [bind nBestCov]; apply sameEngineState_position.
Qed.

End NaNFix.

(** ** What the marking loop covers *)

Section Marking.
Context {num : Type} {N : Num num}.

Lemma coverStep_flags sLon sLat (cov : SegmentCoverage num) touched i s :
  let r := coverStep sLon sLat (cov, touched) i s in
  isCovered (fst r) i = isCovered cov i || nearSnapped sLon sLat s /\
  (forall j, j <> i -> isCovered (fst r) j = isCovered cov j) /\
  snd r = touched || (negb (isCovered cov i) && nearSnapped sLon sLat s).
Proof.
  cbv zeta. unfold coverStep, isCovered, nearSnapped.
  destruct (nth i (covered cov) false) eqn:Hc; cbn [fst snd].
  - rewrite Hc. repeat split; auto. now rewrite orb_false_r.
  - destruct (num_leb _ _) eqn:Hd.
    + assert (E : forall c : SegmentCoverage num,
                covered (if num_ltb (maxCoveredT
                                       (if num_ltb (s_t s) (minCoveredT c)
                                        then set_minCoveredT c (s_t s) else c)) (s_t s)
                         then set_maxCoveredT
                                (if num_ltb (s_t s) (minCoveredT c)
                                 then set_minCoveredT c (s_t s) else c) (s_t s)
                         else if num_ltb (s_t s) (minCoveredT c)
                              then set_minCoveredT c (s_t s) else c)
                = covered c).
      { intro c. repeat break_match; reflexivity. }
      cbn [fst snd]. rewrite E. cbn [set_covered covered].
      split; [now rewrite array_set_same|].
      split; [intros j Hj; now apply array_set_other|].
      now rewrite orb_true_r.
    + cbn [fst snd]. rewrite Hc. repeat split; auto. now rewrite orb_false_r.
Qed.

Lemma coverLoop_flags sLon sLat (ss : list (Sample num)) :
  forall k (acc : SegmentCoverage num * bool),
  let r := coverLoop sLon sLat ss k acc in
  (forall i s, nth_error ss i = Some s ->
     isCovered (fst r) (k + i) = isCovered (fst acc) (k + i) || nearSnapped sLon sLat s) /\
  (forall j, j < k \/ k + length ss <= j -> isCovered (fst r) j = isCovered (fst acc) j) /\
  (snd r = true <->
   snd acc = true \/
   exists i s, nth_error ss i = Some s /\ isCovered (fst acc) (k + i) = false /\
               nearSnapped sLon sLat s = true).
Proof.
  induction ss as [|s0 rest IH]; intros k acc; cbn [coverLoop].
  - cbv zeta. split; [intros [|i] s H; discriminate|]. split; [reflexivity|].
    split; [now left|]. intros [H | (i & s & H & _)]; [exact H|]. destruct i; discriminate.
  - destruct acc as [cov touched].
    destruct (coverStep_flags sLon sLat cov touched k s0) as (S1 & S2 & S3). cbv zeta in S1, S2, S3.
    destruct (IH (S k) (coverStep sLon sLat (cov, touched) k s0)) as (I1 & I2 & I3).
    cbv zeta in I1, I2, I3 |- *. cbn [fst snd] in *.
    split; [|split].
    + intros [|i] s Hs; cbn [nth_error] in Hs.
      * injection Hs as <-. rewrite Nat.add_0_r. rewrite I2 by lia. exact S1.
      * replace (k + S i) with (S k + i) by lia. rewrite (I1 i s Hs).
        rewrite S2 by lia. reflexivity.
    + intros j Hj. cbn [length] in Hj. rewrite I2 by lia. apply S2. lia.
    + rewrite I3, S3. split.
      * intros [H | (i & s & Hs & Hc & Hn)].
        -- apply orb_true_iff in H. destruct H as [H | H]; [now left|].
           apply andb_true_iff in H. destruct H as [Hc Hn]. apply negb_true_iff in Hc.
           right. exists 0, s0. rewrite Nat.add_0_r. auto.
        -- right. exists (S i), s. replace (k + S i) with (S k + i) by lia.
           rewrite S2 in Hc by lia. auto.
      * intros [H | (i & s & Hs & Hc & Hn)].
        -- left. rewrite H. reflexivity.
        -- destruct i as [|i]; cbn [nth_error] in Hs.
           ++ injection Hs as <-. rewrite Nat.add_0_r in Hc. left. rewrite Hc, Hn.
              now rewrite orb_true_r.
           ++ right. exists i, s. replace (S k + i) with (k + S i) by lia.
              rewrite S2 by lia. auto.
Qed.

(** X2: step 3 covers exactly the samples near the snapped point: after the
    loop, a sample is covered when it was covered before or lies within
    [COVERAGE_RADIUS_METERS] of the snapped point; the flags beyond the
    samples are untouched; and the entry counts as touched exactly when a
    sample that was not covered lies within that radius. *)
Theorem marking_covers_the_near_samples (cov : SegmentCoverage num) sLon sLat :
  let cov' := fst (markCovered cov sLon sLat) in
  let touched := snd (markCovered cov sLon sLat) in
  (forall i s, nth_error (samples cov) i = Some s ->
     isCovered cov' i = isCovered cov i || nearSnapped sLon sLat s) /\
  (forall i, length (samples cov) <= i -> isCovered cov' i = isCovered cov i) /\
  (touched = true <->
   exists i s, nth_error (samples cov) i = Some s /\ isCovered cov i = false /\
               nearSnapped sLon sLat s = true).
Proof.
  cbv zeta. unfold markCovered.
  destruct (coverLoop_flags sLon sLat (samples cov) 0 (cov, false)) as (H1 & H2 & H3).
  cbv zeta in H1, H2, H3. cbn [fst snd] in *. split; [|split].
  - intros i s Hs. exact (H1 i s Hs).
  - intros i Hi. apply H2. right. simpl. lia.
  - rewrite H3. split; [intros [H | H]; [discriminate|exact H]|intro H; now right].
Qed.

(** X7: the progress layer holds a line for entries in progress only: a
    validated entry gives none, whatever the numbers are, and every line
    has at least two points. *)
Theorem progress_layer_lines (covs : list (SegmentCoverage num)) :
  Forall (fun pts => 2 <= length pts) (progressFeatures covs) /\
  progressFeatures covs = progressFeatures (filter (fun c => negb (validated c)) covs) /\
  length (progressFeatures covs) <= length (filter (fun c => negb (validated c)) covs).
Proof.
  induction covs as [|c rest (IH1 & IH2 & IH3)]; cbn [progressFeatures filter].
  { split; [apply Forall_nil|split; [reflexivity|apply Nat.le_refl]]. }
  destruct (validated c) eqn:V; cbn [orb negb]; [split; [exact IH1|split; [exact IH2|exact IH3]]|].
  cbn [progressFeatures]. rewrite V. cbn [orb].
  destruct (num_ltb _ _); [split; [exact IH1|split; [exact IH2|cbn [length]; lia]]|].
  destruct (subLineString (coords c) (minCoveredT c) (maxCoveredT c)) as [pts|] eqn:E;
    [|split; [exact IH1|split; [exact IH2|cbn [length]; lia]]].
  split; [|split; [now rewrite IH2|cbn [length]; lia]]. apply Forall_cons; [|exact IH1].
  unfold subLineString in E.
  destruct (_ || _); [discriminate|].
  destruct (num_eqb _ _); [discriminate|].
  destruct (2 <=? _) eqn:L; [|discriminate].
  injection E as <-. now apply Nat.leb_le.
Qed.

End Marking.

(** ** From one session to the next *)

Section RoundTrip.
Context {num : Type} {N : Num num}.

Lemma runFixes_keeps_user cityName fixes : forall st : Engine num,
  userId (runFixes cityName fixes st) = userId st.
Proof.
  induction fixes as [|f fixes IH]; intro st; simpl; [reflexivity|].
  rewrite IH. unfold processFix.
  apply (afterFix_keeps_session cityName (fix_ready f) (fix_lon f) (fix_lat f) st).
Qed.

Lemma sessionAfter_session cityName uid (streets : list (OverpassWay num))
    savedIds savedBadges fixes (st : Engine num) :
  sessionAfter cityName uid streets savedIds savedBadges fixes = Some st ->
  geojson st = Some (streetsToGeoJSON streets) /\ userId st = Some uid.
Proof.
  unfold sessionAfter. intro Hs.
  destruct (mapLoad uid streets savedIds savedBadges initialEngine) as [st0|] eqn:Hl;
    [|discriminate].
  injection Hs as <-. rewrite runFixes_keeps_session, runFixes_keeps_user.
  unfold mapLoad in Hl. destruct (buildCoverages (streetsToGeoJSON streets) 0); [|discriminate].
  injection Hl as <-. split; reflexivity.
Qed.

(** X26: progress survives a restart: when a session ends with validated
    streets that are not saved yet, the cleanup emits one request; once
    that request is written to a table with at most one row for the user
    and the city, reading the table back gives the validated set and the
    unlocked badges of the session, and loading the same streets with what
    was read starts a session with the same two sets, in which the way of
    every entry that was validated has a validated, fully covered entry. *)
Theorem progress_survives_a_restart cityName uid (streets : list (OverpassWay num))
    savedIds savedBadges fixes (st : Engine num) (table : list Row) (now : string) :
  uid <> ""%string ->
  sessionAfter cityName uid streets savedIds savedBadges fixes = Some st ->
  savedCount st < set_size (validatedWayIds st) ->
  length (filter (rowMatches uid cityName) table) <= 1 ->
  exists r st2,
    saveRequests (cleanup cityName st) = saveRequests st ++ [r] /\
    let stored := loadExploration (saveExploration table r now) uid cityName in
    stored = (validatedWayIds st, unlockedBadges st) /\
    mapLoad uid streets (fst stored) (snd stored) initialEngine = Some st2 /\
    validatedWayIds st2 = validatedWayIds st /\
    unlockedBadges st2 = unlockedBadges st /\
    forall c, In c (segmentCoverages st) -> validated c = true ->
      exists c2, In c2 (segmentCoverages st2) /\ wayId c2 = wayId c /\ isRestored c2.
Proof.
  intros Hu Hs Hunsaved Hone.
  destruct (sessionAfter_session _ _ _ _ _ _ _ Hs) as [Hg Huid].
  destruct (restart_restores cityName uid streets savedIds savedBadges fixes st Hu Hs)
    as (st2 & L1 & L2 & L3 & _ & _ & L6).
  set (r := mkExploration uid cityName (validatedWayIds st)
              (length (streetsToGeoJSON streets)) (unlockedBadges st)).
  exists r, st2. split.
  - unfold cleanup. rewrite Hg, Huid, (truthy_nonempty _ Hu).
    replace (savedCount st <? set_size (validatedWayIds st)) with true
      by (symmetry; now apply Nat.ltb_lt).
    reflexivity.
  - cbv zeta.
    destruct (saved_is_loaded table r now Hu Hone) as [E _]. cbv zeta in E.
    change (user_id r) with uid in E. change (city r) with cityName in E.
    rewrite E. cbn [fst snd explored_way_ids badges r].
    split; [reflexivity|]. split; [exact L1|]. split; [exact L2|]. split; [exact L3|exact L6].
Qed.

End RoundTrip.

(** ** Runs of the two instances *)

Section Runs.

Lemma session_reachable : reachable "Marly" Scenario.session.
Proof.
  apply reach_load with (st := initialEngine) (uid := "u1"%string)
    (streets := [Scenario.meridian; Scenario.parallel; Scenario.lonely])
    (savedIds := [7%Z]) (savedBadges := []).
  - apply reach_init.
  - discriminate.
  - vm_compute. reflexivity.
Qed.

Lemma sessionPlain_reachable : reachable "Marly" Scenario.sessionPlain.
Proof.
  apply reach_load with (st := initialEngine) (uid := "u1"%string)
    (streets := [Scenario.meridian]) (savedIds := []) (savedBadges := []).
  - apply reach_init.
  - discriminate.
  - vm_compute. reflexivity.
Qed.

End Runs.

(** ** The further properties on the runs *)

Lemma fixes_never_uncover_witness :
  let st := Scenario.sessionPlain in
  let c := hd (mkCov 0 0 [] [] [] false 0%float 0%float) (segmentCoverages st) in
  nth_error (segmentCoverages st) 0 = Some c /\
  exists c',
    nth_error (segmentCoverages (runFixes "Marly" Scenario.walk st)) 0 = Some c' /\
    skeleton c' = skeleton c /\ grows c c'.
Proof.
  intros st c.
  assert (H : nth_error (segmentCoverages st) 0 = Some c) by (vm_compute; reflexivity).
  split; [exact H|].
  destruct (fixes_never_uncover "Marly" Scenario.walk st 0 c H) as (c' & H1 & H2 & H3 & _).
  exists c'. split; [exact H1|]. split; [exact H2|exact H3].
Defined.

Lemma covered_flags_match_samples_witness :
  let st := runFixes "Marly" Scenario.walk Scenario.sessionPlain in
  let c := hd (mkCov 0 0 [] [] [] false 0%float 0%float) (segmentCoverages st) in
  reachable "Marly" st /\ In c (segmentCoverages st) /\
  length (covered c) = length (samples c).
Proof.
  intros st c.
  assert (R : reachable "Marly" st)
    by exact (runFixes_reachable "Marly" Scenario.walk _ sessionPlain_reachable).
  assert (H : In c (segmentCoverages st)) by (vm_compute; left; reflexivity).
  split; [exact R|]. split; [exact H|].
  exact (covered_flags_match_samples "Marly" st c R H).
Defined.

Lemma validated_entries_are_in_the_set_witness :
  let st := Scenario.session in
  let c := hd (mkCov 0 0 [] [] [] false 0%float 0%float) (segmentCoverages st) in
  reachable "Marly" st /\ In c (segmentCoverages st) /\ validated c = true /\
  In (wayId c) (validatedWayIds st).
Proof.
  intros st c.
  assert (H : In c (segmentCoverages st)) by (vm_compute; left; reflexivity).
  assert (V : validated c = true) by (vm_compute; reflexivity).
  split; [exact session_reachable|]. split; [exact H|]. split; [exact V|].
  exact (validated_entries_are_in_the_set "Marly" st c session_reachable H V).
Defined.

Lemma coverage_bound_to_street_witness :
  let st := Scenario.session in
  let features := streetsToGeoJSON [Scenario.meridian; Scenario.parallel; Scenario.lonely] in
  reachable "Marly" st /\ geojson st = Some features /\
  length (segmentCoverages st) = length features.
Proof.
  intros st features.
  assert (G : geojson st = Some features) by (vm_compute; reflexivity).
  split; [exact session_reachable|]. split; [exact G|].
  exact (proj1 (coverage_bound_to_street "Marly" st features session_reachable G)).
Defined.

Lemma reached_badges_are_unlocked_witness :
  let st := runFixes "Marly" (firstn 6 Scenario.walk) Scenario.sessionPlain in
  let f := nth 6 Scenario.walk (mkFix true 0%float 0%float) in
  let st' := afterFix "Marly" true (fix_lon f) (fix_lat f) st in
  let bd := hd (mkBadgeDef (mkBadge "" "" "") 0) BADGE_DEFS in
  validationEvent st st' /\ In bd BADGE_DEFS /\
  threshold bd <= set_size (validatedWayIds st') /\
  In (b_id (bd_badge bd)) (unlockedBadges st').
Proof.
  intros st f st' bd.
  assert (E : validationEvent st st').
  { exists 0, (hd (mkCov 0 0 [] [] [] false 0%float 0%float) (segmentCoverages st)),
      (hd (mkCov 0 0 [] [] [] false 0%float 0%float) (segmentCoverages st')).
    split; [vm_compute; reflexivity|]. split; [vm_compute; reflexivity|].
    split; vm_compute; reflexivity. }
  assert (B : In bd BADGE_DEFS) by (left; reflexivity).
  assert (T : threshold bd <= set_size (validatedWayIds st')) by (vm_compute; lia).
  split; [exact E|]. split; [exact B|]. split; [exact T|].
  subst st'.
  exact (reached_badges_are_unlocked "Marly" true (fix_lon f) (fix_lat f) st bd E B T).
Defined.

Lemma badge_announced_once_witness :
  let evs1 := map (@EvFix float) (firstn 6 Scenario.walk) in
  let f := nth 6 Scenario.walk (mkFix true 0%float 0%float) in
  let g := nth 7 Scenario.walk (mkFix true 0%float 0%float) in
  let b := bd_badge (hd (mkBadgeDef (mkBadge "" "" "") 0) BADGE_DEFS) in
  let s1 := runEvents "Marly" evs1 Scenario.sessionPlain in
  let s1' := stepEvent "Marly" s1 (EvFix f) in
  let s2 := runEvents "Marly" [@EvDismiss float] s1' in
  let s2' := stepEvent "Marly" s2 (EvFix g) in
  newlyAnnounced s1 s1' b /\ ~ newlyAnnounced s2 s2' b.
Proof.
  intros evs1 f g b s1 s1' s2 s2'.
  assert (H : newlyAnnounced s1 s1' b).
  { split; [vm_compute; left; reflexivity|]. vm_compute. intros []. }
  split; [exact H|].
  subst s1 s1' s2 s2'.
  exact (badge_announced_once "Marly" Scenario.sessionPlain evs1 (EvFix f)
           [@EvDismiss float] (EvFix g) b H).
Defined.

Lemma fewer_than_ten_unsaved_witness :
  let st := runFixes "Marly" Scenario.walk Scenario.sessionPlain in
  "u1"%string <> ""%string /\
  sessionAfter "Marly" "u1" [Scenario.meridian] [] [] Scenario.walk = Some st /\
  (Z.of_nat (set_size (validatedWayIds st)) < Z.of_nat (savedCount st) + SAVE_EVERY_N)%Z.
Proof.
  intros st.
  assert (U : "u1"%string <> ""%string) by discriminate.
  assert (H : sessionAfter "Marly" "u1" [Scenario.meridian] [] [] Scenario.walk = Some st)
    by (vm_compute; reflexivity).
  split; [exact U|]. split; [exact H|].
  exact (fewer_than_ten_unsaved "Marly" "u1" [Scenario.meridian] [] [] Scenario.walk st U H).
Defined.

Lemma save_requests_are_sound_witness :
  let st := runFixes "Marly" Scenario.walk Scenario.sessionPlain in
  let r := hd (mkExploration "" "" [] 0 []) (saveRequests (cleanup "Marly" st)) in
  reachable "Marly" st /\ In r (saveRequests (cleanup "Marly" st)) /\
  soundRequest "Marly" st r.
Proof.
  intros st r.
  assert (R : reachable "Marly" st)
    by exact (runFixes_reachable "Marly" Scenario.walk _ sessionPlain_reachable).
  assert (H : In r (saveRequests (cleanup "Marly" st))) by (vm_compute; left; reflexivity).
  split; [exact R|]. split; [exact H|].
  exact (save_requests_are_sound "Marly" st r R H).
Defined.

Lemma assembleRings_counts_witness :
  let ways := [[mkOsmPoint 0 0; mkOsmPoint 1 0]; [mkOsmPoint 1 0; mkOsmPoint 0 0];
               [mkOsmPoint 5 5]]%float in
  Forall (fun w => w <> []) ways /\
  exists rings,
    assembleRings ways = Some (Ok rings) /\ length rings <= length ways /\
    pointCount rings + (length ways - length rings) = pointCount (map toCoords ways).
Proof.
  intros ways.
  assert (F : Forall (fun w => w <> []) ways) by (repeat constructor; discriminate).
  split; [exact F|].
  destruct (assembleRings_counts ways F) as (rings & H1 & _ & H2 & _ & H3).
  exists rings. split; [exact H1|]. split; [exact H2|exact H3].
Defined.

Lemma assembleRings_points_witness :
  let ways := [[mkOsmPoint 0 0; mkOsmPoint 1 0]; [mkOsmPoint 1 0; mkOsmPoint 0 0];
               [mkOsmPoint 5 5]]%float in
  let rings := [[(0, 0); (0, 1); (0, 0)]; [(5, 5)]]%float in
  Forall (fun w => w <> []) ways /\ assembleRings ways = Some (Ok rings) /\
  forall r p, In r rings -> In p r -> exists w, In w ways /\ In p (toCoords w).
Proof.
  intros ways rings.
  assert (F : Forall (fun w => w <> []) ways) by (repeat constructor; discriminate).
  assert (H : assembleRings ways = Some (Ok rings)) by (vm_compute; reflexivity).
  split; [exact F|]. split; [exact H|].
  exact (proj1 (assembleRings_points ways rings F H)).
Defined.

Lemma ring_growth_is_not_cut_short_witness :
  let ring := [(0, 0); (0, 1)]%float in
  let remaining := [[(0, 1); (1, 1)]; [(9, 9); (0, 0)]]%float in
  let ring' := [(0, 0); (0, 1); (1, 1)]%float in
  let rest := [[(9, 9); (0, 0)]]%float in
  Forall (fun w => w <> []) remaining /\
  growRing (length remaining * 2) ring remaining = Ok (ring', rest) /\
  (near (List.last ring' (0, 0)%float) (List.hd (0, 0)%float ring') = true \/
   matchWay (List.last ring' (0, 0)%float) rest = Ok None).
Proof.
  intros ring remaining ring' rest.
  assert (F : Forall (fun w => w <> []) remaining) by (repeat constructor; discriminate).
  assert (H : growRing (length remaining * 2) ring remaining = Ok (ring', rest))
    by (vm_compute; reflexivity).
  split; [exact F|]. split; [exact H|].
  exact (ring_growth_is_not_cut_short ring remaining ring' rest (0, 0)%float F H).
Defined.

Lemma getUserId_is_stable_witness :
  let s1 := snd (getUserIdIn [] "abc") in
  "abc"%string <> ""%string /\ getUserIdIn s1 "xyz" = ("abc"%string, s1).
Proof.
  intros s1.
  assert (U : "abc"%string <> ""%string) by discriminate.
  split; [exact U|].
  exact (proj1 (proj2 (proj2 (proj2 (getUserId_is_stable [] "abc" "xyz" U))))).
Defined.

Lemma save_then_load_witness :
  let e := mkExploration "u1" "Marly" [7%Z] 3 ["first_step"%string] in
  user_id e <> ""%string /\
  length (filter (rowMatches (user_id e) (city e)) []) <= 1 /\
  loadExploration (saveExploration [] e "2024-05-01") "u1" "Marly"
  = ([7%Z], ["first_step"%string]).
Proof.
  intros e.
  assert (U : user_id e <> ""%string) by discriminate.
  assert (L : length (filter (rowMatches (user_id e) (city e)) []) <= 1) by (simpl; lia).
  split; [exact U|]. split; [exact L|].
  exact (proj1 (save_then_load [] e "2024-05-01" U L)).
Defined.

Lemma projection_distance_is_to_snapped_witness :
  let px := 0.0001220703125%float in
  let py := 0.00048828125%float in
  let coords := [(0, 0); (0, 0.0009765625)]%float in
  let p := match projectOntoLineString px py coords with
           | Ok p => p
           | TypeError => mkProjection 0%float 0%float 0%float Infinity
           end in
  projectOntoLineString px py coords = Ok p /\
  match p_distance p with
  | Fin d => d = distancePointToPoint px py (p_lon p) (p_lat p)
  | Infinity => p_t p = of_Z 0 /\ Some (p_lon p, p_lat p) = hd_error coords
  end.
Proof.
  intros px py coords p.
  assert (H : projectOntoLineString px py coords = Ok p) by (vm_compute; reflexivity).
  split; [exact H|].
  exact (projection_distance_is_to_snapped px py coords p H).
Defined.

Lemma restart_restores_the_session_witness :
  let st := runFixes "Marly" Scenario.walk Scenario.sessionPlain in
  "u1"%string <> ""%string /\
  sessionAfter "Marly" "u1" [Scenario.meridian] [] [] Scenario.walk = Some st /\
  exists st2,
    mapLoad "u1" [Scenario.meridian] (validatedWayIds st) (unlockedBadges st) initialEngine
    = Some st2 /\
    validatedWayIds st2 = validatedWayIds st /\ unlockedBadges st2 = unlockedBadges st.
Proof.
  intros st.
  assert (U : "u1"%string <> ""%string) by discriminate.
  assert (H : sessionAfter "Marly" "u1" [Scenario.meridian] [] [] Scenario.walk = Some st)
    by (vm_compute; reflexivity).
  split; [exact U|]. split; [exact H|].
  destruct (restart_restores_the_session "Marly" "u1" [Scenario.meridian] [] []
              Scenario.walk st U H) as (st2 & H1 & H2 & H3 & _).
  exists st2. split; [exact H1|]. split; [exact H2|exact H3].
Defined.

Lemma progress_survives_a_restart_witness :
  let st := runFixes "Marly" Scenario.walk Scenario.sessionPlain in
  "u1"%string <> ""%string /\
  sessionAfter "Marly" "u1" [Scenario.meridian] [] [] Scenario.walk = Some st /\
  savedCount st < set_size (validatedWayIds st) /\
  length (filter (rowMatches "u1" "Marly") []) <= 1 /\
  exists r st2,
    saveRequests (cleanup "Marly" st) = saveRequests st ++ [r] /\
    let stored := loadExploration (saveExploration [] r "2024-05-01") "u1" "Marly" in
    stored = (validatedWayIds st, unlockedBadges st) /\
    mapLoad "u1" [Scenario.meridian] (fst stored) (snd stored) initialEngine = Some st2 /\
    validatedWayIds st2 = validatedWayIds st.
Proof.
  intros st.
  assert (U : "u1"%string <> ""%string) by discriminate.
  assert (H : sessionAfter "Marly" "u1" [Scenario.meridian] [] [] Scenario.walk = Some st)
    by (vm_compute; reflexivity).
  assert (S : savedCount st < set_size (validatedWayIds st)) by (vm_compute; lia).
  assert (L : length (filter (rowMatches "u1" "Marly") []) <= 1) by (simpl; lia).
  split; [exact U|]. split; [exact H|]. split; [exact S|]. split; [exact L|].
  destruct (progress_survives_a_restart "Marly" "u1" [Scenario.meridian] [] []
              Scenario.walk st [] "2024-05-01" U H S L)
    as (r & st2 & H1 & H2 & H3 & H4 & _).
  exists r, st2. split; [exact H1|]. split; [exact H2|]. split; [exact H3|exact H4].
Defined.

Lemma validated_streets_are_on_the_map_witness :
  let st := Scenario.session in
  let features := streetsToGeoJSON [Scenario.meridian; Scenario.parallel; Scenario.lonely] in
  let c := hd (mkCov 0 0 [] [] [] false 0%float 0%float) (segmentCoverages st) in
  let f := hd (mkFeature 0 []) features in
  reachable "Marly" st /\ geojson st = Some features /\
  nth_error (segmentCoverages st) 0 = Some c /\ validated c = true /\
  nth_error features 0 = Some f /\
  In f (exploredData st).
Proof.
  intros st features c f.
  assert (G : geojson st = Some features) by (vm_compute; reflexivity).
  assert (H : nth_error (segmentCoverages st) 0 = Some c) by (vm_compute; reflexivity).
  assert (V : validated c = true) by (vm_compute; reflexivity).
  assert (F : nth_error features 0 = Some f) by (vm_compute; reflexivity).
  split; [exact session_reachable|]. split; [exact G|]. split; [exact H|].
  split; [exact V|]. split; [exact F|].
  exact (validated_streets_are_on_the_map "Marly" st features 0 c f session_reachable G H V F).
Defined.

Lemma nan_fix_changes_nothing_witness :
  is_nan nan = true /\
  sameEngineState (afterFix "Marly" true nan 0%float Scenario.session) Scenario.session.
Proof.
  assert (H : is_nan nan = true) by (vm_compute; reflexivity).
  split; [exact H|].
  exact (nan_fix_changes_nothing "Marly" true nan 0%float Scenario.session (or_introl H)).
Defined.

(** ** The claims on the sessions of the equator *)

Lemma validation_threshold_boundary_witness :
  let st := Equator.sixteen in
  let features := streetsToGeoJSON [Equator.avenue] in
  let cov := hd (mkCov 0 0 [] [] [] false 0%float 0%float) (segmentCoverages st) in
  let nearestAt (j : Z) :=
    match findNearestSegment (Equator.at_sample j) 0%float (segmentCoverages st) with
    | Ok (Some n) => n
    | _ => mkNearest 0 0%float 0%float 0%float Infinity
    end in
  let markedAt (j : Z) :=
    fst (markCovered cov (snappedLon (nearestAt j)) (snappedLat (nearestAt j))) in
  let after (j : Z) := afterFix "Marly" true (Equator.at_sample j) 0%float st in
  (* the entry before the two fixes *)
  (length (samples cov) = 23 /\ neededOf 23 = 19%Z /\
   Zceil (0.80 * IZR (Z.of_nat 23)) = 19%Z /\
   count_true (covered cov) = 16 /\ validated cov = false) /\
  (* a fix that brings the count to 19 *)
  (count_true (covered (markedAt 15%Z)) = 19 /\
   exists c,
     nth_error (segmentCoverages (after 15%Z)) (coverage (nearestAt 15%Z)) = Some c /\
     validated c = true /\ covered c = covered (markedAt 15%Z) /\
     In (wayId cov) (validatedWayIds (after 15%Z))) /\
  (* a fix that brings the count to 18 *)
  (count_true (covered (markedAt 14%Z)) = 18 /\
   exists c,
     nth_error (segmentCoverages (after 14%Z)) (coverage (nearestAt 14%Z)) = Some c /\
     validated c = false /\ covered c = covered (markedAt 14%Z) /\
     validatedWayIds (after 14%Z) = validatedWayIds st).
Proof.
  intros st features cov nearestAt markedAt after.
  assert (Hg : geojson st = Some features) by (vm_compute; reflexivity).
  assert (Hc : forall j, j = 15%Z \/ j = 14%Z ->
             nth_error (segmentCoverages st) (coverage (nearestAt j)) = Some cov)
    by (intros j [-> | ->]; vm_compute; reflexivity).
  assert (Hn : forall j, j = 15%Z \/ j = 14%Z ->
             findNearestSegment (Equator.at_sample j) 0%float (segmentCoverages st)
             = Ok (Some (nearestAt j)))
    by (intros j [-> | ->]; vm_compute; reflexivity).
  assert (Hd : forall j, j = 15%Z \/ j = 14%Z ->
             xgt (distance (nearestAt j)) MAP_MATCH_MAX_DIST = false)
    by (intros j [-> | ->]; vm_compute; reflexivity).
  assert (Hv : validated cov = false) by (vm_compute; reflexivity).
  assert (Hm : forall j, j = 15%Z \/ j = 14%Z ->
             markCovered cov (snappedLon (nearestAt j)) (snappedLat (nearestAt j))
             = (markedAt j, true))
    by (intros j [-> | ->]; vm_compute; reflexivity).
  assert (Hs : length (samples cov) = 23) by (vm_compute; reflexivity).
  assert (H1 : (1 <= length (samples cov))%nat) by (rewrite Hs; lia).
  assert (H32 : (Z.of_nat (length (samples cov)) < 2 ^ 32)%Z) by (rewrite Hs; reflexivity).
  assert (K15 : count_true (covered (markedAt 15%Z)) = 19) by (vm_compute; reflexivity).
  assert (K14 : count_true (covered (markedAt 14%Z)) = 18) by (vm_compute; reflexivity).
  assert (Hneed : neededOf 23 = 19%Z) by reflexivity.
  split; [|split].
  - split; [exact Hs|]. split; [exact Hneed|].
    split; [|split; [vm_compute; reflexivity|exact Hv]].
    rewrite <- Hs, <- Hneed.
    symmetry. rewrite <- Hs at 1.
    exact (proj1 (validation_threshold_boundary "Marly" (Equator.at_sample 15) 0%float st
                    features (nearestAt 15%Z) cov (markedAt 15%Z) Hg
                    (Hn 15%Z (or_introl eq_refl)) (Hd 15%Z (or_introl eq_refl))
                    (Hc 15%Z (or_introl eq_refl)) Hv (Hm 15%Z (or_introl eq_refl)) H1 H32)).
  - split; [exact K15|].
    apply (proj1 (proj2 (validation_threshold_boundary "Marly" (Equator.at_sample 15) 0%float st
                    features (nearestAt 15%Z) cov (markedAt 15%Z) Hg
                    (Hn 15%Z (or_introl eq_refl)) (Hd 15%Z (or_introl eq_refl))
                    (Hc 15%Z (or_introl eq_refl)) Hv (Hm 15%Z (or_introl eq_refl)) H1 H32))).
    rewrite K15, Hs. reflexivity.
  - split; [exact K14|].
    apply (proj2 (proj2 (validation_threshold_boundary "Marly" (Equator.at_sample 14) 0%float st
                    features (nearestAt 14%Z) cov (markedAt 14%Z) Hg
                    (Hn 14%Z (or_intror eq_refl)) (Hd 14%Z (or_intror eq_refl))
                    (Hc 14%Z (or_intror eq_refl)) Hv (Hm 14%Z (or_intror eq_refl)) H1 H32))).
    rewrite K14, Hs. reflexivity.
Defined.

(** On binary64 values a step of [2^-1060] m makes the number of steps
    infinite, and the sampler never returns. *)
Example sampler_never_returns_on_tiny_step :
  sampleLineStringWithT Equator.bend 0x1p-1060%float = None.
Proof. vm_compute. reflexivity. Qed.


Section SubLineRun.
Local Open Scope num_scope.


End SubLineRun.

Lemma save_every_ten_and_final_flush_witness :
  let nearestOf (lon : float) (st : Engine float) :=
    match findNearestSegment lon 0%float (segmentCoverages st) with
    | Ok (Some n) => n
    | _ => mkNearest 0 0%float 0%float 0%float Infinity
    end in
  let covOf (lon : float) (st : Engine float) :=
    nth (coverage (nearestOf lon st)) (segmentCoverages st)
        (mkCov 0 0 [] [] [] false 0%float 0%float) in
  let markedOf (lon : float) (st : Engine float) :=
    fst (markCovered (covOf lon st) (snappedLon (nearestOf lon st))
           (snappedLat (nearestOf lon st))) in
  let st := Equator.walked 9 in
  let lon := fix_lon (Equator.fixOn 10) in
  let st' := afterFix "Marly" true lon 0%float st in
  let s0 := Equator.lanesLoaded in
  let lon0 := fix_lon (Equator.fixOn 1) in
  let s1 := afterFix "Marly" true lon0 0%float s0 in
  let s2 := afterFix "Marly" true 0.5%float 0%float st in
  reachable "Marly" st /\ reachable "Marly" s0 /\
  (savedCount st = 0 /\ saveRequests st = [] /\ set_size (validatedWayIds st) = 9) /\
  (* the tenth validation since the last save emits a request *)
  (validationEvent st st' /\
   validatedWayIds st' = set_add Z.eqb (validatedWayIds st) (wayId (covOf lon st)) /\
   set_size (validatedWayIds st') = 10 /\
   saveRequests st' =
     saveRequests st ++
     [mkExploration "u1" "Marly" (validatedWayIds st') 10 (unlockedBadges st')] /\
   savedCount st' = set_size (validatedWayIds st')) /\
  (* the first validation emits none *)
  (validationEvent s0 s1 /\
   validatedWayIds s1 = set_add Z.eqb (validatedWayIds s0) (wayId (covOf lon0 s0)) /\
   saveRequests s1 = saveRequests s0 /\ savedCount s1 = savedCount s0) /\
  (* a fix far from every street emits none *)
  (~ validationEvent st s2 /\
   saveRequests s2 = saveRequests st /\ savedCount s2 = savedCount st) /\
  (* the cleanup with nine validations since the last save emits one *)
  (exists features,
     geojson st = Some features /\ length features = 10 /\
     saveRequests (cleanup "Marly" st) =
       saveRequests st ++
       [mkExploration "u1" "Marly" (validatedWayIds st) (length features)
          (unlockedBadges st)]).
Proof.
  intros nearestOf covOf markedOf st lon st' s0 lon0 s1 s2.
  assert (R0 : reachable "Marly" s0).
  { apply reach_load with (st := initialEngine) (uid := "u1"%string)
      (streets := Equator.lanes) (savedIds := []) (savedBadges := []).
    - apply reach_init.
    - discriminate.
    - vm_compute. reflexivity. }
  assert (R : reachable "Marly" st) by exact (runFixes_reachable "Marly" _ _ R0).
  split; [exact R|]. split; [exact R0|].
  split; [split; [|split]; vm_compute; reflexivity|].
  pose proof (save_every_ten_and_final_flush "Marly" st R) as (T1 & T2 & T3).
  pose proof (save_every_ten_and_final_flush "Marly" s0 R0) as (U1 & _ & _).
  split; [|split; [|split]].
  - assert (Hg : geojson st = Some (streetsToGeoJSON Equator.lanes))
      by (vm_compute; reflexivity).
    assert (Hn : findNearestSegment lon 0%float (segmentCoverages st)
                 = Ok (Some (nearestOf lon st))) by (vm_compute; reflexivity).
    assert (Hd : xgt (distance (nearestOf lon st)) MAP_MATCH_MAX_DIST = false)
      by (vm_compute; reflexivity).
    assert (Hc : nth_error (segmentCoverages st) (coverage (nearestOf lon st))
                 = Some (covOf lon st)) by (vm_compute; reflexivity).
    assert (Hv : validated (covOf lon st) = false) by (vm_compute; reflexivity).
    assert (Hm : markCovered (covOf lon st) (snappedLon (nearestOf lon st))
                   (snappedLat (nearestOf lon st)) = (markedOf lon st, true))
      by (vm_compute; reflexivity).
    assert (Hr : num_ltb (coverageRatio (markedOf lon st)) VALIDATION_THRESHOLD = false)
      by (vm_compute; reflexivity).
    pose proof (T1 lon 0%float _ _ _ _ Hg Hn Hd Hc Hv Hm Hr) as (E & V & S).
    fold st' in E, V, S.
    assert (Hsize : set_size (validatedWayIds st') = 10) by (vm_compute; reflexivity).
    assert (Hcond : (Z.of_nat (set_size (validatedWayIds st')) - Z.of_nat (savedCount st)
                     >=? 10)%Z = true) by (vm_compute; reflexivity).
    rewrite Hcond in S. destruct S as [S1 S2].
    split; [exact E|]. split; [exact V|]. split; [exact Hsize|]. split; [exact S1|exact S2].
  - assert (Hg : geojson s0 = Some (streetsToGeoJSON Equator.lanes))
      by (vm_compute; reflexivity).
    assert (Hn : findNearestSegment lon0 0%float (segmentCoverages s0)
                 = Ok (Some (nearestOf lon0 s0))) by (vm_compute; reflexivity).
    assert (Hd : xgt (distance (nearestOf lon0 s0)) MAP_MATCH_MAX_DIST = false)
      by (vm_compute; reflexivity).
    assert (Hc : nth_error (segmentCoverages s0) (coverage (nearestOf lon0 s0))
                 = Some (covOf lon0 s0)) by (vm_compute; reflexivity).
    assert (Hv : validated (covOf lon0 s0) = false) by (vm_compute; reflexivity).
    assert (Hm : markCovered (covOf lon0 s0) (snappedLon (nearestOf lon0 s0))
                   (snappedLat (nearestOf lon0 s0)) = (markedOf lon0 s0, true))
      by (vm_compute; reflexivity).
    assert (Hr : num_ltb (coverageRatio (markedOf lon0 s0)) VALIDATION_THRESHOLD = false)
      by (vm_compute; reflexivity).
    pose proof (U1 lon0 0%float _ _ _ _ Hg Hn Hd Hc Hv Hm Hr) as (E & V & S).
    fold s1 in E, V, S.
    assert (Hcond : (Z.of_nat (set_size (validatedWayIds s1)) - Z.of_nat (savedCount s0)
                     >=? 10)%Z = false) by (vm_compute; reflexivity).
    rewrite Hcond in S. destruct S as [S1 S2].
    split; [exact E|]. split; [exact V|]. split; [exact S1|exact S2].
  - assert (Hsame : segmentCoverages s2 = segmentCoverages st) by (vm_compute; reflexivity).
    assert (Hnot : ~ validationEvent st s2).
    { intros (i & c & c' & H1 & H2 & H3 & H4). rewrite Hsame in H3. congruence. }
    split; [exact Hnot|].
    exact (proj2 (T2 true 0.5%float 0%float) Hnot).
  - assert (Hcond : (savedCount st <? set_size (validatedWayIds st))%nat = true)
      by (vm_compute; reflexivity).
    rewrite Hcond in T3. destruct T3 as (features & Hg & Hs).
    exists features. split; [exact Hg|]. split.
    + assert (Hg' : geojson st = Some (streetsToGeoJSON Equator.lanes))
        by (vm_compute; reflexivity).
      rewrite Hg' in Hg. injection Hg as <-. vm_compute. reflexivity.
    + exact Hs.
Defined.

Lemma covered_samples_within_progress_witness :
  let st := Equator.sixteen in
  let c := hd (mkCov 0 0 [] [] [] false 0%float 0%float) (segmentCoverages st) in
  reachable "Marly" st /\ In c (segmentCoverages st) /\
  count_true (covered c) = 16 /\ validated c = false /\
  (withinProgress c \/ isRestored c).
Proof.
  intros st c.
  assert (R0 : reachable "Marly" Equator.loaded).
  { apply reach_load with (st := initialEngine) (uid := "u1"%string)
      (streets := [Equator.avenue]) (savedIds := []) (savedBadges := []).
    - apply reach_init.
    - discriminate.
    - vm_compute. reflexivity. }
  assert (R : reachable "Marly" st) by exact (runFixes_reachable "Marly" _ _ R0).
  assert (E : segmentCoverages st = [c]) by (vm_compute; reflexivity).
  assert (H : In c (segmentCoverages st)) by (rewrite E; left; reflexivity).
  split; [exact R|]. split; [exact H|].
  split; [vm_compute; reflexivity|]. split; [vm_compute; reflexivity|].
  exact (covered_samples_within_progress "Marly" st c R H).
Defined.

Section CandidateRun.
Local Open Scope num_scope.

Lemma projection_is_first_nearest_candidate_witness :
  let px := 0.00006103515625%float in
  let py := 0%float in
  let coords := Equator.bend in
  let segs := measured (cosLatOf py) coords in
  let total := totalOf (segLengthsOf (cosLatOf py) coords) in
  let dist j := distTo px py (candidateAt px py segs j) in
  coords <> [] /\
  (* the candidates, at 6.77490234375 m and 5 m, and the projection *)
  map dist [0; 1]%nat = [6.77490234375; 5]%float /\
  projectOntoLineString px py coords
  = Ok (mkProjection (candidateT px py total segs 1) px 0x1.79dd7f667e044p-15%float
          (Fin 5%float)) /\
  exists p,
    projectOntoLineString px py coords = Ok p /\
    match p_distance p with
    | Infinity => forall j, (j < length segs)%nat -> lt_Infinity (dist j) = false
    | Fin d =>
        exists i, (i < length segs)%nat /\ d = dist i /\
          (p_lon p, p_lat p) = candidateAt px py segs i /\
          p_t p = candidateT px py total segs i /\
          (forall j, (j < length segs)%nat -> (dist j <? d) = false) /\
          (forall j, (j < i)%nat -> (d <? dist j) = true \/ lt_Infinity (dist j) = false)
    end.
Proof.
  intros px py coords segs total dist.
  assert (H : coords <> []) by discriminate.
  split; [exact H|]. split; [vm_compute; reflexivity|]. split; [vm_compute; reflexivity|].
  exact (projection_is_first_nearest_candidate px py coords H).
Defined.

End CandidateRun.
